(** * Screenkhorn: screened Sinkhorn by dual projection

    A shallow embedding of the two source variants of the [Screenkhorn]
    class, [src/code/screenkhornBFGS.py] and [src/new_formulation.py],
    and the properties of its constructor, its restricted dual objective,
    its warm start and its plan reconstruction.

    Numbers.  The source computes on numpy [float64].  The embedding keeps
    the special values of that arithmetic (the two infinities and NaN, with
    the IEEE 754 rules for them) and takes the finite values to be exact
    reals: rounding, overflow, underflow and the sign of zero are not
    modelled.

    Arrays.  A one-dimensional [ndarray] is a [list num]; a two-dimensional
    one is a list of rows together with its number of columns, so that the
    shape of an array without rows is not lost.  Elementwise operations of
    two arrays are written with [zip_with]; numpy raises on a shape
    mismatch, and every statement below that depends on shapes carries the
    shape of its inputs as a hypothesis. *)

From Stdlib Require Import Reals Lra Lia ZArith.
From stdpp Require Import base option list sorting gmap sets.
From Equations Require Import Equations.

Local Open Scope R_scope.

(** ** Python exceptions *)

Module Py.

Inductive exn := IndexError | ValueError | ZeroDivisionError.

Inductive result (A : Type) :=
  | Ok (x : A)
  | Raise (e : exn).
Arguments Ok {A} x.
Arguments Raise {A} e.

Definition bind {A B} (r : result A) (k : A -> result B) : result B :=
  match r with
  | Ok x => k x
  | Raise e => Raise e
  end.

End Py.

Notation "'let!' x ':=' r 'in' k" := (Py.bind r (fun x => k))
  (at level 10, x pattern, r at level 100, k at level 200).

(** ** float64 values, finite values idealised as reals *)

Module F64.

Inductive num :=
  | Fin (r : R)
  | PInf
  | NInf
  | NaN.

Definition zero : num := Fin 0.
Definition one : num := Fin 1.

Definition of_nat (k : nat) : num := Fin (INR k).

Definition is_nan (x : num) : bool :=
  match x with NaN => true | _ => false end.

Definition is_finite (x : num) : bool :=
  match x with Fin _ => true | _ => false end.

Definition Rleb (x y : R) : bool := if Rle_dec x y then true else false.
Definition Rltb (x y : R) : bool := if Rlt_dec x y then true else false.
Definition Reqb (x y : R) : bool := if Req_dec_T x y then true else false.

Definition fneg (x : num) : num :=
  match x with
  | Fin r => Fin (- r)
  | PInf => NInf
  | NInf => PInf
  | NaN => NaN
  end.

Definition fadd (x y : num) : num :=
  match x, y with
  | NaN, _ | _, NaN => NaN
  | Fin r, Fin s => Fin (r + s)
  | PInf, NInf | NInf, PInf => NaN
  | PInf, _ | _, PInf => PInf
  | NInf, _ | _, NInf => NInf
  end.

Definition fsub (x y : num) : num := fadd x (fneg y).

(** The product of an infinity and a finite value takes the sign of the
    pair; an infinity times zero is NaN. *)
Definition scale_inf (pos : bool) (r : R) : num :=
  if Reqb r 0 then NaN
  else if Rltb 0 r then (if pos then PInf else NInf)
  else (if pos then NInf else PInf).

Definition fmul (x y : num) : num :=
  match x, y with
  | NaN, _ | _, NaN => NaN
  | Fin r, Fin s => Fin (r * s)
  | PInf, Fin r | Fin r, PInf => scale_inf true r
  | NInf, Fin r | Fin r, NInf => scale_inf false r
  | PInf, PInf | NInf, NInf => PInf
  | PInf, NInf | NInf, PInf => NInf
  end.

(** Division: a finite nonzero value over zero is an infinity of the sign of
    the numerator, zero over zero is NaN (the zero divisor is taken as [+0]). *)
Definition fdiv (x y : num) : num :=
  match x, y with
  | NaN, _ | _, NaN => NaN
  | Fin r, Fin s =>
      if Reqb s 0 then
        (if Reqb r 0 then NaN else if Rltb 0 r then PInf else NInf)
      else Fin (r / s)
  | Fin _, PInf | Fin _, NInf => Fin 0
  | PInf, Fin s => if Rltb s 0 then NInf else PInf
  | NInf, Fin s => if Rltb s 0 then PInf else NInf
  | _, _ => NaN
  end.

(** Comparisons are false as soon as one side is NaN. *)
Definition fle (x y : num) : bool :=
  match x, y with
  | NaN, _ | _, NaN => false
  | Fin r, Fin s => Rleb r s
  | NInf, _ | _, PInf => true
  | _, _ => false
  end.

Definition fge (x y : num) : bool := fle y x.

Definition flt (x y : num) : bool :=
  match x, y with
  | NaN, _ | _, NaN => false
  | Fin r, Fin s => Rltb r s
  | PInf, _ | _, NInf => false
  | _, _ => true
  end.

Definition fgt (x y : num) : bool := flt y x.

Definition fexp (x : num) : num :=
  match x with
  | Fin r => Fin (exp r)
  | PInf => PInf
  | NInf => Fin 0
  | NaN => NaN
  end.

Definition flog (x : num) : num :=
  match x with
  | Fin r => if Rltb 0 r then Fin (ln r) else if Reqb r 0 then NInf else NaN
  | PInf => PInf
  | NInf | NaN => NaN
  end.

(** [x ** y] for a positive exponent [y] that is not an integer (the source
    uses [1/4] and [1/2]): NaN on a negative base. *)
Definition fpow (x : num) (y : R) : num :=
  match x with
  | Fin r =>
      if Rltb 0 r then Fin (Rpower r y)
      else if Reqb r 0 then Fin 0 else NaN
  | PInf | NInf => PInf
  | NaN => NaN
  end.

(** [x ** k] for a Python [int] exponent [k >= 0]. *)
Definition fpow_int (x : num) (k : nat) : num := Nat.iter k (fmul x) one.

(** Python's builtin [max(x, y)]: the first argument unless the second is
    strictly greater. *)
Definition py_max (x y : num) : num := if fgt y x then y else x.

(** [np.minimum] as used by [ndarray.min]: NaN propagates. *)
Definition fmin (x y : num) : num :=
  if is_nan x then x else if is_nan y then y else if fle x y then x else y.

End F64.

Export F64.

(** ** numpy arrays *)

Module Np.

Abbreviation vec := (list num).

(** A two-dimensional array: its rows, and its number of columns. *)
Record matrix := Matrix { rows : list vec; ncols : nat }.

Definition nrows (A : matrix) : nat := length (rows A).

Definition wf_matrix (A : matrix) : Prop :=
  Forall (fun r => length r = ncols A) (rows A).

Definition full (k : nat) (x : num) : vec := replicate k x.
Definition ones (k : nat) : vec := full k one.

(** [x.sum()] *)
Definition sum (x : vec) : num := foldr fadd zero x.

(** [x.mean()]: NaN on an empty array. *)
Definition mean (x : vec) : num := fdiv (sum x) (of_nat (length x)).

(** [x @ y] for two one-dimensional arrays *)
Definition dot (x y : vec) : num := sum (zip_with fmul x y).

Definition col (j : nat) (A : matrix) : vec := map (fun r => nth j r NaN) (rows A).

(** [A.T] *)
Definition transpose (A : matrix) : matrix :=
  {| rows := map (fun j => col j A) (seq 0 (ncols A)); ncols := nrows A |}.

(** [A @ x] and [x @ A] *)
Definition matvec (A : matrix) (x : vec) : vec := map (fun r => dot r x) (rows A).
Definition vecmat (x : vec) (A : matrix) : vec :=
  map (fun j => dot x (col j A)) (seq 0 (ncols A)).

(** [A.sum(axis=1)] and [A.sum(axis=0)] *)
Definition sum_axis1 (A : matrix) : vec := map sum (rows A).
Definition sum_axis0 (A : matrix) : vec :=
  map (fun j => sum (col j A)) (seq 0 (ncols A)).

(** [A * r.reshape((1, -1))] and [c.reshape((-1, 1)) * A] *)
Definition mul_row (A : matrix) (r : vec) : matrix :=
  {| rows := map (fun x => zip_with fmul x r) (rows A); ncols := ncols A |}.
Definition mul_col (c : vec) (A : matrix) : matrix :=
  {| rows := zip_with (fun ci x => map (fmul ci) x) c (rows A); ncols := ncols A |}.

(** [x[idx]] with a list of indices, and [A[np.ix_(ri, ci)]] *)
Definition index (x : vec) (idx : list nat) : vec := map (fun i => nth i x NaN) idx.
Definition ix_ (A : matrix) (ri ci : list nat) : matrix :=
  {| rows := map (fun i => index (nth i (rows A) []) ci) ri; ncols := length ci |}.

(** [np.where(cond)[0].tolist()]: the positions of the true entries, ascending *)
Fixpoint where_from (k : nat) (cond : list bool) : list nat :=
  match cond with
  | [] => []
  | c :: cond' => if c then k :: where_from (S k) cond' else where_from (S k) cond'
  end.
Definition where_ (cond : list bool) : list nat := where_from 0 cond.

(** [x[start:stop]] with Python's treatment of negative and large bounds *)
Definition clip_bound (len i : Z) : Z :=
  if (i <? 0)%Z then Z.max (i + len) 0 else Z.min i len.
Definition slice (x : vec) (start stop : Z) : vec :=
  let len := Z.of_nat (length x) in
  let lo := clip_bound len start in
  let hi := clip_bound len stop in
  take (Z.to_nat (hi - lo)) (drop (Z.to_nat lo) x).

(** [np.sort]: ascending, NaN last *)
Definition sort_le (x y : num) : bool :=
  match x, y with
  | _, NaN => true
  | NaN, _ => false
  | _, _ => fle x y
  end.
Fixpoint insert_sorted (x : num) (l : vec) : vec :=
  match l with
  | [] => [x]
  | y :: l' => if sort_le x y then x :: l else y :: insert_sorted x l'
  end.
Definition sort (x : vec) : vec := foldr insert_sorted [] x.

(** [A.min()] over all entries; numpy raises on an array without entries *)
Definition min (A : matrix) : Py.result num :=
  match concat (rows A) with
  | [] => Py.Raise Py.ValueError
  | x :: l => Py.Ok (foldl fmin x l)
  end.

(** [x[0]] and [x[-1]] *)
Definition get_first (x : vec) : Py.result num :=
  match head x with
  | None => Py.Raise Py.IndexError
  | Some y => Py.Ok y
  end.
Definition get_last (x : vec) : Py.result num :=
  match last x with
  | None => Py.Raise Py.IndexError
  | Some y => Py.Ok y
  end.

(** [x[idx] = y]: position [idx[k]] receives [y[k]] *)
Definition assign_index (x : vec) (idx : list nat) (y : vec) : vec :=
  foldl (fun acc iy => <[iy.1 := iy.2]> acc) x (zip idx y).

(** [u.reshape((-1, 1)) * A * v.reshape((1, -1))] *)
Definition scale_rows_cols (u : vec) (A : matrix) (v : vec) : matrix :=
  mul_row (mul_col u A) v.

(** A Python float or an array, for attributes that hold either *)
Inductive operand := Scalar (c : num) | Array (x : vec).

(** [x + c] with numpy broadcasting of a scalar [c] *)
Definition add_operand (x : vec) (c : operand) : vec :=
  match c with
  | Scalar c => map (fun xi => fadd xi c) x
  | Array y => zip_with fadd x y
  end.

End Np.

Import Np.

(** ** The [Screenkhorn] object

    The attributes assigned by [__init__], named [self_x] for [self.x].
    [self_verbose] and [self_uniform] exist in [new_formulation.py] only.
    [self_cst_u] and [self_cst_v] hold the Python float [0.] in full mode
    and an array in screening mode. *)

Record Screenkhorn := {
  self_a : vec;
  self_b : vec;
  self_C : matrix;
  self_reg : num;
  self_N : nat;
  self_M : nat;
  self_verbose : option bool;
  self_uniform : option bool;
  self_K : matrix;
  self_I : list nat;
  self_J : list nat;
  self_epsilon : num;
  self_fact_scale : num;
  self_bounds_u : list (num * num);
  self_bounds_v : list (num * num);
  self_Ic : list nat;
  self_Jc : list nat;
  self_a_I : vec;
  self_b_J : vec;
  self_a_Ic : vec;
  self_b_Jc : vec;
  self_K_IJ : matrix;
  self_K_IcJ : matrix;
  self_K_IJc : matrix;
  self_vec_eps_IJc : vec;
  self_vec_eps_IcJ : vec;
  self_cst_u : operand;
  self_cst_v : operand
}.

(** ** The statements common to the two constructors

    Each definition below is a run of statements that the two source files
    share word for word; the constructors of the two variants, further
    down, put them together in the order of their file. *)

Module Common.

Definition of_int (z : Z) : num := Fin (IZR z).

Definition map_matrix (f : num -> num) (A : matrix) : matrix :=
  {| rows := map (map f) (rows A); ncols := ncols A |}.

(** [K_sum_cols = self.K.sum(axis=1)], [K_sum_rows = self.K.T.sum(axis=1)] *)
Definition K_sum_cols (K : matrix) : vec := sum_axis1 K.
Definition K_sum_rows (K : matrix) : vec := sum_axis1 (transpose K).

(** [aK_sort = np.sort(a / K_sum_cols)[::-1]] *)
Definition ratio_sort (a Ksum : vec) : vec := reverse (sort (zip_with fdiv a Ksum)).

(** [epsilon_u_square = aK_sort[self.N - 1: self.N].mean()] *)
Definition epsilon_square (aK_sort : vec) (N : nat) : num :=
  mean (slice aK_sort (Z.of_nat N - 1) (Z.of_nat N)).

(** [self.epsilon = (epsilon_u_square * epsilon_v_square)**(1/4)]
    [self.fact_scale = (epsilon_v_square / epsilon_u_square)**(1/2)] *)
Definition epsilon_of (eu ev : num) : num := fpow (fmul eu ev) (1/4).
Definition fact_scale_of (eu ev : num) : num := fpow (fdiv ev eu) (1/2).

(** [self.I = np.where(self.a >= self.epsilon**2 / self.fact_scale * K_sum_cols)[0].tolist()]
    [self.J = np.where(self.b >= self.epsilon**2 * self.fact_scale * K_sum_rows)[0].tolist()] *)
Definition active_I (a : vec) (epsilon fact_scale : num) (Ksc : vec) : list nat :=
  where_ (zip_with fge a (map (fmul (fdiv (fpow_int epsilon 2) fact_scale)) Ksc)).
Definition active_J (b : vec) (epsilon fact_scale : num) (Ksr : vec) : list nat :=
  where_ (zip_with fge b (map (fmul (fmul (fpow_int epsilon 2) fact_scale)) Ksr)).

(** The box of the optimizer, [self.bounds_u] and [self.bounds_v].  The
    tuple is built once and repeated [len(self.I)] (resp. [len(self.J)])
    times; building it raises [IndexError] when [a_sort[self.I]] or
    [b_sort[self.J]] is empty. *)
Definition bounds_u_pair (a_sort b_sort : vec) (I J : list nat)
    (epsilon fact_scale : num) (n m : nat) (K_min : num) : Py.result (num * num) :=
  let! aI_last := get_last (index a_sort I) in
  let! bJ_first := get_first (index b_sort J) in
  let! aI_first := get_first (index a_sort I) in
  Py.Ok
    (py_max
       (fdiv (fmul fact_scale aI_last)
          (fadd (fmul epsilon (of_int (Z.of_nat m - Z.of_nat (length J))))
                (fmul (of_nat (length J))
                      (fdiv bJ_first (fmul (fmul epsilon (of_nat n)) K_min)))))
       (fdiv epsilon fact_scale),
     fdiv aI_first (fmul (fmul epsilon (of_nat m)) K_min)).

Definition bounds_v_pair (a_sort b_sort : vec) (I J : list nat)
    (epsilon fact_scale : num) (n m : nat) (K_min : num) : Py.result (num * num) :=
  let! bJ_last := get_last (index b_sort J) in
  let! aI_first := get_first (index a_sort I) in
  let! bJ_first := get_first (index b_sort J) in
  Py.Ok
    (py_max
       (fdiv bJ_last
          (fadd (fmul epsilon (of_int (Z.of_nat n - Z.of_nat (length I))))
                (fmul (of_nat (length I))
                      (fdiv aI_first (fmul (fmul epsilon (of_nat m)) K_min)))))
       (fmul epsilon fact_scale),
     fdiv bJ_first (fmul (fmul epsilon (of_nat n)) K_min)).

(** [list(set(list(range(n))) - set(self.I))]: the order in which Python
    lists a set is not specified, and nothing here depends on the order in
    which [elements] lists a [gset]. *)
Definition complement (n : nat) (I : list nat) : list nat :=
  elements ((list_to_set (seq 0 n) : gset nat) ∖ list_to_set I).

(** What the first branch of the constructor leaves behind. *)
Record selection := {
  sel_I : list nat;
  sel_J : list nat;
  sel_epsilon : num;
  sel_fact_scale : num;
  sel_bounds_u : list (num * num);
  sel_bounds_v : list (num * num)
}.

(** The branch [if self.N == n and self.M == m:].  Its two assignments
    [self.cst_u = 0.] and [self.cst_v = 0.] are made in [assemble], in the
    branch opposite to [if self.N != n or self.M != m:]. *)
Definition full_mode (n m : nat) : selection :=
  {| sel_I := seq 0 n;
     sel_J := seq 0 m;
     sel_epsilon := Fin 0;
     sel_fact_scale := Fin 1;
     sel_bounds_u := replicate n (Fin 0, PInf);
     sel_bounds_v := replicate m (Fin 0, PInf) |}.

(** From [# Ic, Jc] to the end of the constructor. *)
Definition assemble (a b : vec) (C : matrix) (reg : num) (N M : nat)
    (verbose uniform : option bool) (K : matrix) (sel : selection) : Screenkhorn :=
  let n := nrows C in
  let m := ncols C in
  let I := sel_I sel in
  let J := sel_J sel in
  let epsilon := sel_epsilon sel in
  let fact_scale := sel_fact_scale sel in
  let Ic := complement n I in
  let Jc := complement m J in
  let K_IJ := ix_ K I J in
  let K_IcJ := ix_ K Ic J in
  let K_IJc := ix_ K I Jc in
  let vec_eps_IJc :=
    map (fmul (fmul epsilon fact_scale)) (sum_axis1 (mul_row K_IJc (ones (length Jc)))) in
  let vec_eps_IcJ :=
    map (fmul (fdiv epsilon fact_scale)) (sum_axis0 (mul_col (ones (length Ic)) K_IcJ)) in
  let cst :=
    if negb (N =? n)%nat || negb (M =? m)%nat then
      (Array (map (fmul (fmul fact_scale epsilon)) (sum_axis1 K_IJc)),
       Array (map (fun x => fdiv x fact_scale) (map (fmul epsilon) (sum_axis0 K_IcJ))))
    else (Scalar (Fin 0), Scalar (Fin 0)) in
  {| self_a := a; self_b := b; self_C := C; self_reg := reg;
     self_N := N; self_M := M;
     self_verbose := verbose; self_uniform := uniform;
     self_K := K;
     self_I := I; self_J := J;
     self_epsilon := epsilon; self_fact_scale := fact_scale;
     self_bounds_u := sel_bounds_u sel; self_bounds_v := sel_bounds_v sel;
     self_Ic := Ic; self_Jc := Jc;
     self_a_I := index a I; self_b_J := index b J;
     self_a_Ic := index a Ic; self_b_Jc := index b Jc;
     self_K_IJ := K_IJ; self_K_IcJ := K_IcJ; self_K_IJc := K_IJc;
     self_vec_eps_IJc := vec_eps_IJc; self_vec_eps_IcJ := vec_eps_IcJ;
     self_cst_u := cst.1;
     self_cst_v := cst.2 |}.

End Common.

(** ** Methods that the two files share word for word *)

Module Methods.

(** [objective(self, u_param, v_param)] *)
Definition objective (self : Screenkhorn) (u_param v_param : vec) : num :=
  let part_IJ :=
    fsub (fsub (dot (vecmat u_param (self_K_IJ self)) v_param)
               (dot (map (fmul (self_fact_scale self)) (self_a_I self)) (map flog u_param)))
         (dot (map (fmul (fdiv one (self_fact_scale self))) (self_b_J self))
              (map flog v_param)) in
  let part_IJc := dot u_param (self_vec_eps_IJc self) in
  let part_IcJ := dot (self_vec_eps_IcJ self) v_param in
  fadd (fadd part_IJ part_IJc) part_IcJ.

(** [grad_objective(self, u_param, v_param)] *)
Definition grad_objective (self : Screenkhorn) (u_param v_param : vec) : vec * vec :=
  let grad_u :=
    zip_with fsub
      (zip_with fadd (matvec (self_K_IJ self) v_param) (self_vec_eps_IJc self))
      (zip_with fdiv (map (fmul (self_fact_scale self)) (self_a_I self)) u_param) in
  let grad_v :=
    zip_with fsub
      (zip_with fadd (matvec (transpose (self_K_IJ self)) u_param) (self_vec_eps_IcJ self))
      (zip_with fdiv (map (fmul (fdiv one (self_fact_scale self))) (self_b_J self)) v_param) in
  (grad_u, grad_v).

(** [_bfgspost(self, theta)] *)
Definition _bfgspost (self : Screenkhorn) (theta : vec) : num * vec :=
  let u := take (length (self_I self)) theta in
  let v := drop (length (self_I self)) theta in
  let f := objective self u v in
  let '(g_u, g_v) := grad_objective self u v in
  (f, g_u ++ g_v).

End Methods.

(** ** Arrays as objects

    [_projection] writes into the array it is given, so the arrays that
    [restricted_sinkhorn] receives and returns are references into a store
    of array objects.  The attributes of [self] are only read there and
    stay values. *)

Module Heap.

Abbreviation loc := nat (only parsing).
Abbreviation heap := (gmap nat (list num)).

(** A new array object holding [x] *)
Definition alloc (h : heap) (x : vec) : heap * loc :=
  let l := fresh (dom h) in (<[l := x]> h, l).

(** The contents of the array at [l] *)
Definition deref (h : heap) (l : loc) : vec := h !!! l.

(** [u[np.where(u <= epsilon)] = epsilon] on the contents *)
Definition clamp (epsilon : num) (x : vec) : vec :=
  map (fun xi => if fle xi epsilon then epsilon else xi) x.

(** [_projection(self, u, epsilon)]: writes through [u], returns [u] *)
Definition _projection (u : loc) (epsilon : num) (h : heap) : heap * loc :=
  (alter (clamp epsilon) u h, u).

(** The variables of [restricted_sinkhorn] while its loop runs.  [fr_rounds]
    is a ghost counter of the executions of the loop body. *)
Record frame := Frame {
  fr_heap : heap; fr_cpt : Z; fr_usc : loc; fr_vsc : loc; fr_rounds : nat
}.

(** [while (cpt < max_iter): body; cpt += 1], for a [body] of array
    statements *)
Equations? while_cpt (body : frame -> frame) (max_iter : Z) (fr : frame) : frame
  by wf (Z.to_nat (max_iter - fr_cpt fr)) lt :=
  while_cpt body max_iter fr with decide (fr_cpt fr < max_iter)%Z := {
    | left _ =>
        let fr' := body fr in
        while_cpt body max_iter
          (Frame (fr_heap fr') (fr_cpt fr + 1) (fr_usc fr') (fr_vsc fr')
                 (S (fr_rounds fr)))
    | right _ => fr }.
Proof. simpl. lia. Qed.

(** One turn of the loop: the body, then [cpt += 1]. *)
Definition turn (body : frame -> frame) (fr : frame) : frame :=
  let fr' := body fr in
  Frame (fr_heap fr') (fr_cpt fr + 1) (fr_usc fr') (fr_vsc fr') (S (fr_rounds fr)).

(** The contents of the two arrays that the loop variables refer to *)
Definition contents (fr : frame) : vec * vec :=
  (deref (fr_heap fr) (fr_usc fr), deref (fr_heap fr) (fr_vsc fr)).

End Heap.

(** ** The external optimizer

    [scipy.optimize.fmin_l_bfgs_b] is not part of the repository: it is a
    parameter of [lbfgsb], given the keyword arguments of the call. *)

Record fmin_args := {
  arg_func : vec -> num * vec;
  arg_x0 : vec;
  arg_bounds : list (num * num);
  arg_m : option nat;
  arg_factr : option num;
  arg_maxfun : nat;
  arg_pgtol : num;
  arg_maxiter : nat
}.

Import Common Methods Heap.

(** [1. / k] for a Python [int] [k] *)
Definition py_inverse (k : nat) : Py.result num :=
  if (k =? 0)%nat then Py.Raise Py.ZeroDivisionError else Py.Ok (fdiv one (of_nat k)).

(** From [usc = theta[:len(self.I)]] to [return] in [lbfgsb] *)
Definition reconstruct {info : Type} (self : Screenkhorn) (theta : vec) (d : info)
    : vec * vec * matrix * info :=
  let n := nrows (self_C self) in
  let m := ncols (self_C self) in
  let usc := take (length (self_I self)) theta in
  let vsc := drop (length (self_I self)) theta in
  let usc_full := full n (fdiv (self_epsilon self) (self_fact_scale self)) in
  let vsc_full := full m (fmul (self_epsilon self) (self_fact_scale self)) in
  let usc_full := assign_index usc_full (self_I self) usc in
  let vsc_full := assign_index vsc_full (self_J self) vsc in
  let Psc := scale_rows_cols usc_full (self_K self) vsc_full in
  (usc_full, vsc_full, Psc, d).

(** ** [src/code/screenkhornBFGS.py] *)

Module BFGS.

(** [self.K = np.exp(-self.C / self.reg)] *)
Definition kernel (C : matrix) (reg : num) : matrix :=
  map_matrix (fun c => fexp (fdiv (fneg c) reg)) C.

(** The [else:] branch of the constructor *)
Definition screening_mode (a b : vec) (K : matrix) (N M n m : nat) : Py.result selection :=
  let K_sum_cols := K_sum_cols K in
  let K_sum_rows := K_sum_rows K in
  let! K_min := Np.min K in
  let a_sort := sort a in
  let b_sort := sort b in
  let aK_sort := ratio_sort a K_sum_cols in
  let bK_sort := ratio_sort b K_sum_rows in
  let epsilon_u_square := epsilon_square aK_sort N in
  let epsilon_v_square := epsilon_square bK_sort M in
  let epsilon := epsilon_of epsilon_u_square epsilon_v_square in
  let fact_scale := fact_scale_of epsilon_u_square epsilon_v_square in
  let I := active_I a epsilon fact_scale K_sum_cols in
  let J := active_J b epsilon fact_scale K_sum_rows in
  let fact_scale := Fin 1 in
  let! bu := bounds_u_pair a_sort b_sort I J epsilon fact_scale n m K_min in
  let! bv := bounds_v_pair a_sort b_sort I J epsilon fact_scale n m K_min in
  Py.Ok {| sel_I := I; sel_J := J;
           sel_epsilon := epsilon; sel_fact_scale := fact_scale;
           sel_bounds_u := replicate (length I) bu;
           sel_bounds_v := replicate (length J) bv |}.

(** [__init__(self, a, b, C, reg, N, M)] *)
Definition __init__ (a b : vec) (C : matrix) (reg : num) (N M : nat) : Py.result Screenkhorn :=
  let n := nrows C in
  let m := ncols C in
  let K := kernel C reg in
  let! sel :=
    (if (N =? n)%nat && (M =? m)%nat then Py.Ok (full_mode n m)
     else screening_mode a b K N M n m) in
  Py.Ok (assemble a b C reg N M None None K sel).

(** The array statements of the loop body of [restricted_sinkhorn] *)
Definition round (self : Screenkhorn) (fr : frame) : frame :=
  let h := fr_heap fr in
  let K_IJ_transpose_u :=
    map (fmul (self_fact_scale self))
      (add_operand (matvec (transpose (self_K_IJ self)) (deref h (fr_usc fr)))
                   (self_cst_v self)) in
  let '(h, vsc) := alloc h (zip_with fdiv (self_b_J self) K_IJ_transpose_u) in
  let KIJ_v := add_operand (matvec (self_K_IJ self) (deref h vsc)) (self_cst_u self) in
  let '(h, usc) :=
    alloc h (zip_with fdiv (map (fmul (self_fact_scale self)) (self_a_I self)) KIJ_v) in
  Frame h (fr_cpt fr) usc vsc (fr_rounds fr).

(** [cpt = 1] and the [while] loop of [restricted_sinkhorn] *)
Definition sinkhorn_loop (self : Screenkhorn) (usc vsc : loc) (max_iter : Z) (h : heap)
    : frame :=
  while_cpt (round self) max_iter (Frame h 1 usc vsc 0).

(** [restricted_sinkhorn(self, usc, vsc, max_iter)] *)
Definition restricted_sinkhorn (self : Screenkhorn) (usc vsc : loc) (max_iter : Z)
    (h : heap) : heap * (loc * loc) :=
  let fr := sinkhorn_loop self usc vsc max_iter h in
  let '(h, usc) :=
    _projection (fr_usc fr) (fdiv (self_epsilon self) (self_fact_scale self)) (fr_heap fr) in
  let '(h, vsc) :=
    _projection (fr_vsc fr) (fmul (self_epsilon self) (self_fact_scale self)) h in
  (h, (usc, vsc)).

(** The first statements of [lbfgsb]: the new arrays [u0] and [v0], and
    the [max_iter] with which [restricted_sinkhorn] is called on them. *)
Definition warm_start_call (self : Screenkhorn) : Py.result (heap * loc * loc * Z) :=
  let! inv_I := py_inverse (length (self_I self)) in
  let '(h, u0) :=
    alloc ∅ (full (length (self_I self))
               (fadd inv_I (fdiv (self_epsilon self) (self_fact_scale self)))) in
  let! inv_J := py_inverse (length (self_J self)) in
  let '(h, v0) :=
    alloc h (full (length (self_J self))
               (fadd inv_J (fmul (self_epsilon self) (self_fact_scale self)))) in
  Py.Ok (h, u0, v0, 3%Z).

(** [u, v = self.restricted_sinkhorn(u0, v0, max_iter=3)] *)
Definition warm_start (self : Screenkhorn) : Py.result (heap * (loc * loc)) :=
  let! (h, u0, v0, max_iter) := warm_start_call self in
  Py.Ok (restricted_sinkhorn self u0 v0 max_iter h).

(** The number of executions of the loop body in that call *)
Definition warm_start_rounds (self : Screenkhorn) : Py.result nat :=
  let! (h, u0, v0, max_iter) := warm_start_call self in
  Py.Ok (fr_rounds (sinkhorn_loop self u0 v0 max_iter h)).

Section Lbfgsb.
Context {info : Type} (fmin_l_bfgs_b : fmin_args -> vec * num * info).

(** [lbfgsb(self)] *)
Definition lbfgsb (self : Screenkhorn) : Py.result (vec * vec * matrix * info) :=
  let! (h, (u, v)) := warm_start self in
  let theta0 := deref h u ++ deref h v in
  let '(theta, _, d) :=
    fmin_l_bfgs_b
      {| arg_func := _bfgspost self;
         arg_x0 := theta0;
         arg_bounds := self_bounds_u self ++ self_bounds_v self;
         arg_m := Some 2%nat;
         arg_factr := Some (Fin 1e5);
         arg_maxfun := 1000;
         arg_pgtol := Fin 1e-9;
         arg_maxiter := 1000 |} in
  Py.Ok (reconstruct self theta d).

End Lbfgsb.

End BFGS.

(** ** [src/new_formulation.py] *)

Module NewFormulation.

(** [np.divide(self.C, - self.reg, out=self.K)] then [np.exp(self.K, out=self.K)] *)
Definition kernel (C : matrix) (reg : num) : matrix :=
  map_matrix (fun c => fexp (fdiv c (fneg reg))) C.

(** The [else:] branch of the constructor *)
Definition screening_mode (a b : vec) (K : matrix) (N M n m : nat) (uniform : bool)
    : Py.result selection :=
  let K_sum_cols := K_sum_cols K in
  let K_sum_rows := K_sum_rows K in
  let! K_min := Np.min K in
  let '(a_sort, b_sort) := if negb uniform then (sort a, sort b) else (a, b) in
  let aK_sort := ratio_sort a K_sum_cols in
  let bK_sort := ratio_sort b K_sum_rows in
  let epsilon_u_square := epsilon_square aK_sort N in
  let epsilon_v_square := epsilon_square bK_sort M in
  let epsilon := epsilon_of epsilon_u_square epsilon_v_square in
  let fact_scale := fact_scale_of epsilon_u_square epsilon_v_square in
  let I := active_I a epsilon fact_scale K_sum_cols in
  let J := active_J b epsilon fact_scale K_sum_rows in
  let! bu := bounds_u_pair a_sort b_sort I J epsilon fact_scale n m K_min in
  let! bv := bounds_v_pair a_sort b_sort I J epsilon fact_scale n m K_min in
  Py.Ok {| sel_I := I; sel_J := J;
           sel_epsilon := epsilon; sel_fact_scale := fact_scale;
           sel_bounds_u := replicate (length I) bu;
           sel_bounds_v := replicate (length J) bv |}.

(** [__init__(self, a, b, C, reg, N, M, verbose = True, uniform = True)] *)
Definition __init__ (a b : vec) (C : matrix) (reg : num) (N M : nat)
    (verbose uniform : bool) : Py.result Screenkhorn :=
  let n := nrows C in
  let m := ncols C in
  let K := kernel C reg in
  let! sel :=
    (if (N =? n)%nat && (M =? m)%nat then Py.Ok (full_mode n m)
     else screening_mode a b K N M n m uniform) in
  Py.Ok (assemble a b C reg N M (Some verbose) (Some uniform) K sel).

(** The array statements of the loop body of [restricted_sinkhorn] *)
Definition round (self : Screenkhorn) (fr : frame) : frame :=
  let h := fr_heap fr in
  let K_IJ_v :=
    add_operand (matvec (transpose (self_K_IJ self)) (deref h (fr_usc fr)))
                (self_cst_v self) in
  let '(h, vsc) :=
    alloc h (zip_with fdiv (self_b_J self) (map (fmul (self_fact_scale self)) K_IJ_v)) in
  let KIJ_u := add_operand (matvec (self_K_IJ self) (deref h vsc)) (self_cst_u self) in
  let '(h, usc) :=
    alloc h (zip_with fdiv (map (fmul (self_fact_scale self)) (self_a_I self)) KIJ_u) in
  Frame h (fr_cpt fr) usc vsc (fr_rounds fr).

(** [cpt = 1] and the [while] loop of [restricted_sinkhorn] *)
Definition sinkhorn_loop (self : Screenkhorn) (usc vsc : loc) (max_iter : Z) (h : heap)
    : frame :=
  while_cpt (round self) max_iter (Frame h 1 usc vsc 0).

(** [restricted_sinkhorn(self, usc, vsc, max_iter)] *)
Definition restricted_sinkhorn (self : Screenkhorn) (usc vsc : loc) (max_iter : Z)
    (h : heap) : heap * (loc * loc) :=
  let fr := sinkhorn_loop self usc vsc max_iter h in
  let '(h, usc) :=
    _projection (fr_usc fr) (fdiv (self_epsilon self) (self_fact_scale self)) (fr_heap fr) in
  let '(h, vsc) :=
    _projection (fr_vsc fr) (fmul (self_epsilon self) (self_fact_scale self)) h in
  (h, (usc, vsc)).

(** The first statements of [lbfgsb]: the new arrays [u0] and [v0], and
    the [max_iter] with which [restricted_sinkhorn] is called on them. *)
Definition warm_start_call (self : Screenkhorn) : Py.result (heap * loc * loc * Z) :=
  let! inv_I := py_inverse (length (self_I self)) in
  let '(h, u0) :=
    alloc ∅ (full (length (self_I self))
               (fadd inv_I (fdiv (self_epsilon self) (self_fact_scale self)))) in
  let! inv_J := py_inverse (length (self_J self)) in
  let '(h, v0) :=
    alloc h (full (length (self_J self))
               (fadd inv_J (fmul (self_epsilon self) (self_fact_scale self)))) in
  Py.Ok (h, u0, v0, 10%Z).

(** [u, v = self.restricted_sinkhorn(u0, v0, max_iter=10)] *)
Definition warm_start (self : Screenkhorn) : Py.result (heap * (loc * loc)) :=
  let! (h, u0, v0, max_iter) := warm_start_call self in
  Py.Ok (restricted_sinkhorn self u0 v0 max_iter h).

(** The number of executions of the loop body in that call *)
Definition warm_start_rounds (self : Screenkhorn) : Py.result nat :=
  let! (h, u0, v0, max_iter) := warm_start_call self in
  Py.Ok (fr_rounds (sinkhorn_loop self u0 v0 max_iter h)).

Section Lbfgsb.
Context {info : Type} (fmin_l_bfgs_b : fmin_args -> vec * num * info).

(** [lbfgsb(self)] *)
Definition lbfgsb (self : Screenkhorn) : Py.result (vec * vec * matrix * info) :=
  let! (h, (u, v)) := warm_start self in
  let theta0 := deref h u ++ deref h v in
  let '(theta, _, d) :=
    fmin_l_bfgs_b
      {| arg_func := _bfgspost self;
         arg_x0 := theta0;
         arg_bounds := self_bounds_u self ++ self_bounds_v self;
         arg_m := None;
         arg_factr := None;
         arg_maxfun := 1000;
         arg_pgtol := Fin 1e-9;
         arg_maxiter := 1000 |} in
  Py.Ok (reconstruct self theta d).

End Lbfgsb.

End NewFormulation.

(** ** The specification's wording of what the code computes *)

Module Spec.

(** [v <- b_J / (fact_scale . (K_IJ^T . u + cst_v))] *)
Definition v_update (self : Screenkhorn) (u : vec) : vec :=
  zip_with fdiv (self_b_J self)
    (map (fmul (self_fact_scale self))
       (add_operand (matvec (transpose (self_K_IJ self)) u) (self_cst_v self))).

(** [u <- (fact_scale . a_I) / (K_IJ . v + cst_u)] *)
Definition u_update (self : Screenkhorn) (v : vec) : vec :=
  zip_with fdiv (map (fmul (self_fact_scale self)) (self_a_I self))
    (add_operand (matvec (self_K_IJ self) v) (self_cst_u self)).

(** One round: [v] first from the current [u], then [u] from the new [v]. *)
Definition round (self : Screenkhorn) (uv : vec * vec) : vec * vec :=
  let v := v_update self uv.1 in
  (u_update self v, v).

(** The unconstrained dual Sinkhorn objective
    [u.K.v - a.log(u) - b.log(v)] and its gradient
    [(K.v - a/u, K^T.u - b/v)] over the whole matrix. *)
Definition dual_objective (K : matrix) (a b u v : vec) : num :=
  fsub (fsub (dot (vecmat u K) v) (dot a (map flog u))) (dot b (map flog v)).

Definition dual_gradient (K : matrix) (a b u v : vec) : vec * vec :=
  (zip_with fsub (matvec K v) (zip_with fdiv a u),
   zip_with fsub (matvec (transpose K) u) (zip_with fdiv b v)).

(** The box of [bounds_u]:
    [max(fact_scale . a_last / (epsilon.(m-|J|) + |J|.(b_first / (epsilon.n.K_min))),
         epsilon/fact_scale)] and [a_first / (epsilon.m.K_min)]. *)
Definition box_u (fact_scale epsilon K_min : num) (n m sizeJ : nat)
    (a_last a_first b_first : num) : num * num :=
  (py_max
     (fdiv (fmul fact_scale a_last)
        (fadd (fmul epsilon (of_int (Z.of_nat m - Z.of_nat sizeJ)))
              (fmul (of_nat sizeJ) (fdiv b_first (fmul (fmul epsilon (of_nat n)) K_min)))))
     (fdiv epsilon fact_scale),
   fdiv a_first (fmul (fmul epsilon (of_nat m)) K_min)).

(** The box of [bounds_v], with the roles of the two sides exchanged; the
    numerator of its lower bound carries no [fact_scale]. *)
Definition box_v (fact_scale epsilon K_min : num) (n m sizeI : nat)
    (b_last b_first a_first : num) : num * num :=
  (py_max
     (fdiv b_last
        (fadd (fmul epsilon (of_int (Z.of_nat n - Z.of_nat sizeI)))
              (fmul (of_nat sizeI) (fdiv a_first (fmul (fmul epsilon (of_nat m)) K_min)))))
     (fmul epsilon fact_scale),
   fdiv b_first (fmul (fmul epsilon (of_nat n)) K_min)).

End Spec.

(** ** Inputs *)

(** The shapes that the constructor expects: [C] is [n] by [m], [a] has
    length [n] and [b] has length [m]. *)
Definition valid_shape (a b : vec) (C : matrix) : Prop :=
  wf_matrix C /\ length a = nrows C /\ length b = ncols C.

(** Screening mode: the [else:] branch of the constructor is taken. *)
Definition screening (C : matrix) (N M : nat) : Prop :=
  ~ (N = nrows C /\ M = ncols C).

Definition positive (x : num) : Prop := exists r, x = Fin r /\ 0 < r.

Definition not_nan (x : num) : Prop := is_nan x = false.

(** The input contract: positive marginals, finite costs, [reg > 0],
    [N] in [[1, n]] and [M] in [[1, m]]. *)
Definition valid_input (a b : vec) (C : matrix) (reg : num) (N M : nat) : Prop :=
  valid_shape a b C /\
  Forall positive a /\ Forall positive b /\
  Forall (Forall (fun c => is_finite c = true)) (rows C) /\
  positive reg /\
  (1 <= N <= nrows C)%nat /\ (1 <= M <= ncols C)%nat.

(** The threshold quantities of the [else:] branch, as functions of the
    inputs. *)
Definition eps_u_sq (a : vec) (K : matrix) (N : nat) : num :=
  epsilon_square (ratio_sort a (K_sum_cols K)) N.
Definition eps_v_sq (b : vec) (K : matrix) (M : nat) : num :=
  epsilon_square (ratio_sort b (K_sum_rows K)) M.
Definition epsilon0 (a b : vec) (K : matrix) (N M : nat) : num :=
  epsilon_of (eps_u_sq a K N) (eps_v_sq b K M).
Definition fact_scale0 (a b : vec) (K : matrix) (N M : nat) : num :=
  fact_scale_of (eps_u_sq a K N) (eps_v_sq b K M).

(** ** Notions used in the statements *)

(** The selection that a constructor hands to [assemble] in screening mode:
    [a_sort], [b_sort] are the arrays indexed in the box, [fs] the
    [fact_scale] in force after the active sets are chosen. *)
Definition screening_selection (a b a_sort b_sort : vec) (K : matrix) (N M n m : nat)
    (fs : num) (sel : selection) : Prop :=
  let eps := epsilon0 a b K N M in
  let I := active_I a eps (fact_scale0 a b K N M) (K_sum_cols K) in
  let J := active_J b eps (fact_scale0 a b K N M) (K_sum_rows K) in
  exists K_min bu bv,
    Np.min K = Py.Ok K_min /\
    bounds_u_pair a_sort b_sort I J eps fs n m K_min = Py.Ok bu /\
    bounds_v_pair a_sort b_sort I J eps fs n m K_min = Py.Ok bv /\
    sel = {| sel_I := I; sel_J := J; sel_epsilon := eps; sel_fact_scale := fs;
             sel_bounds_u := replicate (length I) bu;
             sel_bounds_v := replicate (length J) bv |}.

(** An object built by either constructor *)
Definition constructed (a b : vec) (C : matrix) (reg : num) (N M : nat)
    (s : Screenkhorn) : Prop :=
  BFGS.__init__ a b C reg N M = Py.Ok s \/
  exists verbose uniform, NewFormulation.__init__ a b C reg N M verbose uniform = Py.Ok s.

(** The order of [np.sort]: NaN is above everything. *)
Definition sort_rel (x y : num) : Prop := sort_le x y = true.

(** [np.sort(x)[::-1]] lists [x] from its largest entry down. *)
Definition descending (l : vec) : Prop :=
  forall i j x y, (i <= j)%nat -> l !! i = Some x -> l !! j = Some y -> sort_le y x = true.

(** ** A worked input

    Two sources and three targets at zero cost, [reg = 1], [N = M = 2]:
    screening mode, with [epsilon = 1/4] and a computed [fact_scale] of 2. *)

Definition ex_a : vec := [Fin (29/32); Fin (3/32)].
Definition ex_b : vec := [Fin (5/8); Fin (1/4); Fin (1/8)].
Definition ex_C : matrix := Matrix [[Fin 0; Fin 0; Fin 0]; [Fin 0; Fin 0; Fin 0]] 3.
Definition ex_K : matrix := Matrix [[Fin 1; Fin 1; Fin 1]; [Fin 1; Fin 1; Fin 1]] 3.

(** What [screenkhornBFGS.py] builds on it *)
Definition ex_sel_bfgs : selection :=
  {| sel_I := [0; 1]%nat; sel_J := [0; 1]%nat;
     sel_epsilon := Fin (1/4); sel_fact_scale := Fin 1;
     sel_bounds_u :=
       replicate 2 (Spec.box_u (Fin 1) (Fin (1/4)) (Fin 1) 2 3 2
                      (Fin (29/32)) (Fin (3/32)) (Fin (1/8)));
     sel_bounds_v :=
       replicate 2 (Spec.box_v (Fin 1) (Fin (1/4)) (Fin 1) 2 3 2
                      (Fin (1/4)) (Fin (1/8)) (Fin (3/32))) |}.
Definition ex_bfgs : Screenkhorn :=
  assemble ex_a ex_b ex_C (Fin 1) 2 2 None None ex_K ex_sel_bfgs.

(** What [new_formulation.py] builds on it with [uniform = True], where the
    box indexes [a] and [b] unsorted *)
Definition ex_sel_new : selection :=
  {| sel_I := [0; 1]%nat; sel_J := [0; 1]%nat;
     sel_epsilon := Fin (1/4); sel_fact_scale := Fin 2;
     sel_bounds_u :=
       replicate 2 (Spec.box_u (Fin 2) (Fin (1/4)) (Fin 1) 2 3 2
                      (Fin (3/32)) (Fin (29/32)) (Fin (5/8)));
     sel_bounds_v :=
       replicate 2 (Spec.box_v (Fin 2) (Fin (1/4)) (Fin 1) 2 3 2
                      (Fin (1/4)) (Fin (5/8)) (Fin (29/32))) |}.
Definition ex_new : Screenkhorn :=
  assemble ex_a ex_b ex_C (Fin 1) 2 2 (Some true) (Some true) ex_K ex_sel_new.

(** The box of [s] is the one of the formula, with [a_sort] and [b_sort]
    the arrays that the formula indexes by [I] and [J]. *)
Definition box_built_from (a_sort b_sort : vec) (s : Screenkhorn) : Prop :=
  let n := nrows (self_C s) in
  let m := ncols (self_C s) in
  let I := self_I s in
  let J := self_J s in
  let eps := self_epsilon s in
  let fs := self_fact_scale s in
  exists K_min a_last a_first b_last b_first,
    Np.min (self_K s) = Py.Ok K_min /\
    last (index a_sort I) = Some a_last /\ head (index a_sort I) = Some a_first /\
    last (index b_sort J) = Some b_last /\ head (index b_sort J) = Some b_first /\
    self_bounds_u s =
      replicate (length I) (Spec.box_u fs eps K_min n m (length J) a_last a_first b_first) /\
    self_bounds_v s =
      replicate (length J) (Spec.box_v fs eps K_min n m (length I) b_last b_first a_first).

(** The lengths of the attributes that the warm start reads *)
Definition shape_ok (s : Screenkhorn) : Prop :=
  length (self_a_I s) = length (self_I s) /\
  length (self_b_J s) = length (self_J s) /\
  nrows (self_K_IJ s) = length (self_I s) /\
  ncols (self_K_IJ s) = length (self_J s) /\
  (forall x, self_cst_u s = Array x -> length x = length (self_I s)) /\
  (forall y, self_cst_v s = Array y -> length y = length (self_J s)).

(** What [lbfgsb] returns for the point [theta] of the optimizer: full
    length vectors that hold the thresholds outside the active sets and
    [theta] on them, and the plan [P[i,j] = u_full[i] . K[i,j] . v_full[j]]. *)
Definition plan_of (s : Screenkhorn) (theta usc_full vsc_full : vec) (P : matrix) : Prop :=
  let n := nrows (self_C s) in
  let m := ncols (self_C s) in
  let I := self_I s in
  let J := self_J s in
  length usc_full = n /\ length vsc_full = m /\
  (forall k i, I !! k = Some i -> usc_full !! i = theta !! k) /\
  (forall i, (i < n)%nat -> i ∉ I ->
     usc_full !! i = Some (fdiv (self_epsilon s) (self_fact_scale s))) /\
  (forall k j, J !! k = Some j -> vsc_full !! j = theta !! (length I + k)%nat) /\
  (forall j, (j < m)%nat -> j ∉ J ->
     vsc_full !! j = Some (fmul (self_epsilon s) (self_fact_scale s))) /\
  nrows P = n /\ ncols P = m /\
  (forall i j, (i < n)%nat -> (j < m)%nat ->
     exists ui row kij vj prow,
       usc_full !! i = Some ui /\ rows (self_K s) !! i = Some row /\
       row !! j = Some kij /\ vsc_full !! j = Some vj /\
       rows P !! i = Some prow /\ prow !! j = Some (fmul (fmul ui kij) vj)).

(** A full-mode input: two sources, two targets, [N = M = 2]. *)
Definition exf_a : vec := [Fin (1/2); Fin (1/2)].
Definition exf_b : vec := [Fin (1/2); Fin (1/2)].
Definition exf_C : matrix := Matrix [[Fin 0; Fin 1]; [Fin 1; Fin 0]] 2.

(** A store with two arrays of ones, at the references 0 and 1. *)
Definition ex_heap : heap :=
  <[1%nat := [Fin 1; Fin 1]]> (<[0%nat := [Fin 1; Fin 1]]> ∅).

(** An optimizer that returns its starting point. *)
Definition ex_optimizer (args : fmin_args) : vec * num * unit :=
  (arg_x0 args, Fin 0, tt).

(** ** The active sets as functions of the inputs *)

(** [self.I] and [self.J] as the [else:] branch selects them for the
    kernel [K]: with the thresholds and the [fact_scale] computed from the
    ratio vectors. *)
Definition selected_I (a b : vec) (K : matrix) (N M : nat) : list nat :=
  active_I a (epsilon0 a b K N M) (fact_scale0 a b K N M) (K_sum_cols K).
Definition selected_J (a b : vec) (K : matrix) (N M : nat) : list nat :=
  active_J b (epsilon0 a b K N M) (fact_scale0 a b K N M) (K_sum_rows K).

(** An input without sources and targets, in full mode *)
Definition ex_empty_C : matrix := Matrix [] 0.

(** ** Index arrays and blocks *)

(** [y] is [x[idx]] with every index of [idx] inside [x]. *)
Definition subvector (x : vec) (idx : list nat) (y : vec) : Prop :=
  length y = length idx /\
  forall k i, idx !! k = Some i -> is_Some (x !! i) /\ y !! k = x !! i.

(** [B] is the block [K[np.ix_(ri, ci)]] with every pair of indices inside
    [K]: the entry of [B] at [(k, l)] is the entry of [K] at
    [(ri[k], ci[l])]. *)
Definition block_of (K : matrix) (ri ci : list nat) (B : matrix) : Prop :=
  wf_matrix B /\ nrows B = length ri /\ ncols B = length ci /\
  forall k l i j, ri !! k = Some i -> ci !! l = Some j ->
    exists row x brow,
      rows K !! i = Some row /\ row !! j = Some x /\
      rows B !! k = Some brow /\ brow !! l = Some x.

(** ** Signs *)

Definition nonneg (x : num) : Prop := exists r, x = Fin r /\ 0 <= r.


(** ** The data read by the warm start and by the gradient

    What the methods find in an object that was built on a valid input:
    non-empty active sets, positive finite entries of the right lengths in
    [K_IJ], [a_I], [b_J], a positive [fact_scale], non-negative thresholds
    and corrections, and offsets that add the correction vectors. *)
Record positive_data (s : Screenkhorn) : Prop := {
  pd_I : self_I s <> [];
  pd_J : self_J s <> [];
  pd_K_wf : wf_matrix (self_K_IJ s);
  pd_K_nrows : nrows (self_K_IJ s) = length (self_I s);
  pd_K_ncols : ncols (self_K_IJ s) = length (self_J s);
  pd_K : Forall (Forall positive) (rows (self_K_IJ s));
  pd_a_len : length (self_a_I s) = length (self_I s);
  pd_a : Forall positive (self_a_I s);
  pd_b_len : length (self_b_J s) = length (self_J s);
  pd_b : Forall positive (self_b_J s);
  pd_fs : positive (self_fact_scale s);
  pd_eps : nonneg (self_epsilon s);
  pd_eu_len : length (self_vec_eps_IJc s) = length (self_I s);
  pd_eu : Forall nonneg (self_vec_eps_IJc s);
  pd_ev_len : length (self_vec_eps_IcJ s) = length (self_J s);
  pd_ev : Forall nonneg (self_vec_eps_IcJ s);
  pd_cst_u : forall x, length x = length (self_I s) ->
    add_operand x (self_cst_u s) = zip_with fadd x (self_vec_eps_IJc s);
  pd_cst_v : forall y, length y = length (self_J s) ->
    add_operand y (self_cst_v s) = zip_with fadd y (self_vec_eps_IcJ s)
}.


(** ** The box of the optimizer *)

(** [x] lies between the two bounds of the pair [bd]. *)
Definition within (x : num) (bd : num * num) : Prop :=
  fle bd.1 x = true /\ fle x bd.2 = true.

(** The full-mode object of [screenkhornBFGS.py] on the full-mode input *)
Definition exf_bfgs : Screenkhorn :=
  assemble exf_a exf_b exf_C (Fin 1) 2 2 None None (BFGS.kernel exf_C (Fin 1))
    (full_mode 2 2).

Definition finite (x : num) : Prop := is_finite x = true.

(** ** The statements that read [Ic] and [Jc]

    The four statements of the constructor whose value depends on the
    complements, for an arbitrary listing [Ic], [Jc] of them (Python does
    not specify the order of [list(set(...) - set(...))]). *)
Definition vec_eps_IJc_of (K : matrix) (I Jc : list nat) (epsilon fact_scale : num) : vec :=
  map (fmul (fmul epsilon fact_scale))
      (sum_axis1 (mul_row (ix_ K I Jc) (ones (length Jc)))).
Definition vec_eps_IcJ_of (K : matrix) (Ic J : list nat) (epsilon fact_scale : num) : vec :=
  map (fmul (fdiv epsilon fact_scale))
      (sum_axis0 (mul_col (ones (length Ic)) (ix_ K Ic J))).
Definition cst_u_of (K : matrix) (I Jc : list nat) (epsilon fact_scale : num) : vec :=
  map (fmul (fmul fact_scale epsilon)) (sum_axis1 (ix_ K I Jc)).
Definition cst_v_of (K : matrix) (Ic J : list nat) (epsilon fact_scale : num) : vec :=
  map (fun x => fdiv x fact_scale) (map (fmul epsilon) (sum_axis0 (ix_ K Ic J))).

(** * Properties *)

(** ** Arithmetic of [num] *)

Ltac Rb :=
  unfold Rleb, Rltb, Reqb in *;
  repeat match goal with
  | |- context [Rle_dec ?x ?y] => destruct (Rle_dec x y); try (exfalso; lra)
  | |- context [Rlt_dec ?x ?y] => destruct (Rlt_dec x y); try (exfalso; lra)
  | |- context [Req_dec_T ?x ?y] => destruct (Req_dec_T x y); try (exfalso; lra)
  | H : context [Rle_dec ?x ?y] |- _ => destruct (Rle_dec x y); try (exfalso; lra)
  | H : context [Rlt_dec ?x ?y] |- _ => destruct (Rlt_dec x y); try (exfalso; lra)
  | H : context [Req_dec_T ?x ?y] |- _ => destruct (Req_dec_T x y); try (exfalso; lra)
  end.

Ltac fin_eq := try reflexivity; try (f_equal; (lra || (field; lra))).

Section NumLemmas.

Lemma Rleb_true x y : Rleb x y = true <-> x <= y.
Proof. unfold Rleb. destruct (Rle_dec x y); split; intros; [done|done|done|lra]. Qed.

Lemma Rltb_true x y : Rltb x y = true <-> x < y.
Proof. unfold Rltb. destruct (Rlt_dec x y); split; intros; [done|done|done|lra]. Qed.

Lemma fmul_one_l x : fmul one x = x.
Proof. destruct x; simpl; unfold scale_inf; Rb; fin_eq. Qed.

Lemma fmul_one_r x : fmul x one = x.
Proof. destruct x; simpl; unfold scale_inf; Rb; fin_eq. Qed.

Lemma fadd_zero_r x : fadd x zero = x.
Proof. destruct x; simpl; fin_eq. Qed.

Lemma fadd_zero_l x : fadd zero x = x.
Proof. destruct x; simpl; fin_eq. Qed.

Lemma fdiv_one_r x : fdiv x one = x.
Proof. destruct x; simpl; Rb; fin_eq. Qed.

Lemma fsub_zero_r x : fsub x zero = x.
Proof. destruct x; unfold fsub; simpl; fin_eq. Qed.

Lemma fpow_int_2 x : fpow_int x 2 = fmul x x.
Proof. unfold fpow_int. simpl. by rewrite fmul_one_r. Qed.

Lemma fle_refl x : is_nan x = false -> fle x x = true.
Proof. destruct x; simpl; try done. intros _. apply Rleb_true. lra. Qed.

Lemma fle_trans x y z : fle x y = true -> fle y z = true -> fle x z = true.
Proof.
  destruct x, y, z; simpl; try done.
  rewrite !Rleb_true. lra.
Qed.

Lemma fle_total x y :
  is_nan x = false -> is_nan y = false -> fle x y = false -> fle y x = true.
Proof.
  destruct x, y; simpl; try done.
  intros _ _ H. apply Rleb_true. unfold Rleb in H.
  destruct (Rle_dec r r0); [done | lra].
Qed.

Lemma fle_not_nan_l x y : fle x y = true -> is_nan x = false.
Proof. by destruct x, y. Qed.

Lemma fle_not_nan_r x y : fle x y = true -> is_nan y = false.
Proof. by destruct x, y. Qed.

End NumLemmas.

(** ** The store of arrays, [_projection] and the loop *)

Section HeapLemmas.

Lemma alloc_fresh (h : heap) x : (alloc h x).2 ∉ dom h.
Proof. unfold alloc. simpl. apply is_fresh. Qed.

Lemma alloc_heap (h : heap) x : (alloc h x).1 = <[(alloc h x).2 := x]> h.
Proof. reflexivity. Qed.

Lemma alloc_deref (h : heap) x : deref (alloc h x).1 (alloc h x).2 = x.
Proof. unfold deref, alloc. simpl. by rewrite lookup_total_insert_eq. Qed.

Lemma alloc_lookup_old (h : heap) x l : l ∈ dom h -> (alloc h x).1 !! l = h !! l.
Proof.
  intros Hl. rewrite alloc_heap. apply lookup_insert_ne.
  intros <-. by apply (alloc_fresh h x).
Qed.

Lemma alloc_dom (h : heap) x : dom (alloc h x).1 = {[(alloc h x).2]} ∪ dom h.
Proof. rewrite alloc_heap. apply dom_insert_L. Qed.

Lemma deref_alter f (h : heap) l l' :
  deref (alter f l h) l' =
  if decide (l = l') then (if decide (l ∈ dom h) then f (deref h l') else []) else deref h l'.
Proof.
  unfold deref. rewrite !lookup_total_alt, lookup_alter.
  destruct (decide (l = l')) as [->|]; [|done].
  destruct (decide (l' ∈ dom h)) as [Hd|Hd].
  - apply elem_of_dom in Hd as [x Hx]. by rewrite Hx.
  - apply not_elem_of_dom in Hd. by rewrite Hd.
Qed.

Lemma clamp_length eps x : length (clamp eps x) = length x.
Proof. unfold clamp. by rewrite length_map. Qed.

Lemma clamp_lookup eps x i :
  clamp eps x !! i = (fun xi => if fle xi eps then eps else xi) <$> x !! i.
Proof. unfold clamp. by rewrite list_lookup_fmap. Qed.

Lemma while_cpt_exit body max_iter fr :
  (max_iter <= fr_cpt fr)%Z -> while_cpt body max_iter fr = fr.
Proof.
  intros H. rewrite while_cpt_equation_1. simpl.
  destruct (decide (fr_cpt fr < max_iter)%Z); [lia | done].
Qed.

Lemma while_cpt_step body max_iter fr :
  (fr_cpt fr < max_iter)%Z ->
  while_cpt body max_iter fr = while_cpt body max_iter (turn body fr).
Proof.
  intros H. rewrite while_cpt_equation_1 at 1. simpl.
  destruct (decide (fr_cpt fr < max_iter)%Z); [done | lia].
Qed.

Lemma while_cpt_iter body max_iter fr :
  while_cpt body max_iter fr =
  Nat.iter (Z.to_nat (max_iter - fr_cpt fr)) (turn body) fr.
Proof.
  remember (Z.to_nat (max_iter - fr_cpt fr)) as k eqn:Hk.
  revert fr Hk. induction k as [|k IH]; intros fr Hk.
  - simpl. apply while_cpt_exit. lia.
  - rewrite while_cpt_step by lia.
    rewrite (IH (turn body fr)) by (simpl; lia).
    by rewrite Nat.iter_succ_r.
Qed.

Lemma iter_turn_cpt body k fr :
  fr_cpt (Nat.iter k (turn body) fr) = (fr_cpt fr + Z.of_nat k)%Z.
Proof. induction k; simpl; [lia | rewrite IHk; lia]. Qed.

Lemma iter_turn_rounds body k fr :
  fr_rounds (Nat.iter k (turn body) fr) = (fr_rounds fr + k)%nat.
Proof. induction k; simpl; [lia | rewrite IHk; lia]. Qed.

End HeapLemmas.

Section WarmStart.

Lemma round_same : NewFormulation.round = BFGS.round.
Proof. reflexivity. Qed.

Lemma sinkhorn_loop_same : NewFormulation.sinkhorn_loop = BFGS.sinkhorn_loop.
Proof. reflexivity. Qed.

Lemma restricted_sinkhorn_same :
  NewFormulation.restricted_sinkhorn = BFGS.restricted_sinkhorn.
Proof. reflexivity. Qed.

(** What a round does to the store: two new arrays, nothing else touched. *)
Lemma round_store s fr :
  let fr' := BFGS.round s fr in
  (fr_usc fr' ∉ dom (fr_heap fr)) /\ (fr_vsc fr' ∉ dom (fr_heap fr)) /\
  (fr_usc fr' ∈ dom (fr_heap fr')) /\ (fr_vsc fr' ∈ dom (fr_heap fr')) /\
  fr_usc fr' <> fr_vsc fr' /\
  dom (fr_heap fr') = {[fr_usc fr']} ∪ ({[fr_vsc fr']} ∪ dom (fr_heap fr)) /\
  (forall l, l ∈ dom (fr_heap fr) -> fr_heap fr' !! l = fr_heap fr !! l) /\
  contents fr' = Spec.round s (contents fr).
Proof.
  unfold BFGS.round, contents, Spec.round, Spec.v_update, Spec.u_update.
  set (v' := zip_with fdiv (self_b_J s) _).
  destruct (alloc (fr_heap fr) v') as [h1 vsc] eqn:E1.
  assert (Hv : vsc = (alloc (fr_heap fr) v').2) by (by rewrite E1).
  assert (Hh1 : h1 = (alloc (fr_heap fr) v').1) by (by rewrite E1).
  assert (Hd1 : deref h1 vsc = v') by (rewrite Hv, Hh1; apply alloc_deref).
  rewrite Hd1.
  set (u' := zip_with fdiv (map _ (self_a_I s)) _).
  destruct (alloc h1 u') as [h2 usc] eqn:E2.
  assert (Hu : usc = (alloc h1 u').2) by (by rewrite E2).
  assert (Hh2 : h2 = (alloc h1 u').1) by (by rewrite E2).
  assert (Hvd : vsc ∈ dom h1).
  { rewrite Hh1, alloc_dom, <- Hv. set_solver. }
  assert (Hvf : vsc ∉ dom (fr_heap fr)) by (rewrite Hv; apply alloc_fresh).
  assert (Huf : usc ∉ dom h1) by (rewrite Hu; apply alloc_fresh).
  assert (Hdom1 : dom h1 = {[vsc]} ∪ dom (fr_heap fr)).
  { rewrite Hh1, alloc_dom, <- Hv. done. }
  assert (Hdom2 : dom h2 = {[usc]} ∪ dom h1).
  { rewrite Hh2, alloc_dom, <- Hu. done. }
  simpl. repeat split.
  - set_solver.
  - done.
  - set_solver.
  - set_solver.
  - set_solver.
  - rewrite Hdom2, Hdom1. done.
  - intros l Hl. rewrite Hh2, alloc_lookup_old by set_solver.
    rewrite Hh1, alloc_lookup_old by done. done.
  - f_equal.
    + rewrite Hu, Hh2. apply alloc_deref.
    + unfold deref. rewrite !lookup_total_alt.
      rewrite Hh2, alloc_lookup_old by done.
      fold (h1 !!! vsc). rewrite <- lookup_total_alt. exact Hd1.
Qed.

Lemma turn_contents s fr :
  contents (turn (BFGS.round s) fr) = Spec.round s (contents fr).
Proof. exact (proj2 (proj2 (proj2 (proj2 (proj2 (proj2 (proj2 (round_store s fr)))))))). Qed.

Lemma iter_turn_contents s k fr :
  contents (Nat.iter k (turn (BFGS.round s)) fr) = Nat.iter k (Spec.round s) (contents fr).
Proof. induction k; simpl; [done | by rewrite turn_contents, IHk]. Qed.

Lemma sinkhorn_loop_iter s usc vsc max_iter h :
  BFGS.sinkhorn_loop s usc vsc max_iter h =
  Nat.iter (Z.to_nat (max_iter - 1)) (turn (BFGS.round s)) (Frame h 1 usc vsc 0).
Proof. unfold BFGS.sinkhorn_loop. by rewrite while_cpt_iter. Qed.

Lemma sinkhorn_loop_rounds s usc vsc max_iter h :
  fr_rounds (BFGS.sinkhorn_loop s usc vsc max_iter h) = Z.to_nat (max_iter - 1).
Proof. rewrite sinkhorn_loop_iter, iter_turn_rounds. done. Qed.

Lemma warm_start_rounds_bfgs s k :
  BFGS.warm_start_rounds s = Py.Ok k -> k = 2%nat.
Proof.
  unfold BFGS.warm_start_rounds, BFGS.warm_start_call.
  destruct (py_inverse (length (self_I s))); simpl; [|done].
  destruct (py_inverse (length (self_J s))); simpl; [|done].
  rewrite sinkhorn_loop_rounds. intros [= <-]. done.
Qed.

Lemma warm_start_rounds_new s k :
  NewFormulation.warm_start_rounds s = Py.Ok k -> k = 9%nat.
Proof.
  unfold NewFormulation.warm_start_rounds, NewFormulation.warm_start_call.
  destruct (py_inverse (length (self_I s))); simpl; [|done].
  destruct (py_inverse (length (self_J s))); simpl; [|done].
  rewrite sinkhorn_loop_same, sinkhorn_loop_rounds. intros [= <-]. done.
Qed.

End WarmStart.

Section Projection.

Lemma sinkhorn_loop_one s usc vsc h :
  BFGS.sinkhorn_loop s usc vsc 1 h = Frame h 1 usc vsc 0.
Proof. unfold BFGS.sinkhorn_loop. apply while_cpt_exit. simpl. lia. Qed.

Lemma clamp_ge t x :
  is_nan t = false ->
  Forall (fun xi => is_nan xi = false) x ->
  Forall (fun xi => fge xi t = true) (clamp t x).
Proof.
  intros Ht Hx. unfold clamp. apply Forall_fmap.
  eapply Forall_impl; [exact Hx|]. intros xi Hxi. simpl. unfold fge.
  destruct (fle xi t) eqn:E.
  - by apply fle_refl.
  - by apply fle_total.
Qed.

Lemma clamp_not_nan t x :
  is_nan t = false ->
  Forall (fun xi => is_nan xi = false) x ->
  Forall (fun xi => is_nan xi = false) (clamp t x).
Proof.
  intros Ht Hx. unfold clamp. apply Forall_fmap.
  eapply Forall_impl; [exact Hx|]. intros xi Hxi. simpl.
  by destruct (fle xi t).
Qed.

Lemma clamp_keeps_ge t1 t2 x :
  Forall (fun xi => fge xi t1 = true) x ->
  Forall (fun xi => fge xi t1 = true) (clamp t2 x).
Proof.
  intros Hx. unfold clamp. apply Forall_fmap.
  eapply Forall_impl; [exact Hx|]. intros xi Hxi. simpl. unfold fge in *.
  destruct (fle xi t2) eqn:E; [|done].
  by apply (fle_trans t1 xi t2).
Qed.

End Projection.

(** ** Facts about the array operations *)

Section ArrayLemmas.

Lemma where_from_spec k cond j :
  j ∈ where_from k cond <-> exists i, j = (k + i)%nat /\ cond !! i = Some true.
Proof.
  revert k. induction cond as [|c cond IH]; intros k; simpl.
  - split; [by intros ?%elem_of_nil | by intros (i & _ & ?)].
  - destruct c.
    + rewrite elem_of_cons, IH. split.
      * intros [-> | (i & -> & Hi)]; [exists 0%nat | exists (S i)]; split; try done; lia.
      * intros ([|i] & -> & Hi); [left; lia | right; exists i; split; [lia | done]].
    + rewrite IH. split.
      * intros (i & -> & Hi). exists (S i). split; [lia | done].
      * intros ([|i] & -> & Hi); [done | exists i; split; [lia | done]].
Qed.

Lemma where_spec cond j : j ∈ where_ cond <-> cond !! j = Some true.
Proof.
  unfold where_. rewrite where_from_spec. split.
  - by intros (i & -> & Hi).
  - intros H. by exists j.
Qed.

Lemma where_lt cond j : j ∈ where_ cond -> (j < length cond)%nat.
Proof. rewrite where_spec. apply lookup_lt_Some. Qed.

Lemma where_from_NoDup k cond : NoDup (where_from k cond).
Proof.
  revert k. induction cond as [|c cond IH]; intros k; simpl; [constructor|].
  destruct c; [|apply IH]. constructor; [|apply IH].
  rewrite where_from_spec. intros (i & Hi & _). lia.
Qed.

Lemma where_NoDup cond : NoDup (where_ cond).
Proof. apply where_from_NoDup. Qed.

Lemma index_lookup x idx k :
  index x idx !! k = (fun i => nth i x NaN) <$> idx !! k.
Proof. unfold index. by rewrite list_lookup_fmap. Qed.

Lemma index_length x idx : length (index x idx) = length idx.
Proof. unfold index. by rewrite length_map. Qed.

Lemma index_seq x : index x (seq 0 (length x)) = x.
Proof.
  apply list_eq. intros i. rewrite index_lookup.
  destruct (decide (i < length x)%nat) as [Hi|Hi].
  - destruct (lookup_lt_is_Some_2 x i Hi) as [y Hy].
    rewrite lookup_seq_lt by lia. simpl. rewrite Hy. f_equal.
    by apply nth_lookup_Some.
  - rewrite lookup_seq_ge by lia. simpl.
    symmetry. apply lookup_ge_None. lia.
Qed.

Lemma complement_set n idx :
  (list_to_set (complement n idx) : gset nat) = list_to_set (seq 0 n) ∖ list_to_set idx.
Proof. unfold complement. apply list_to_set_elements_L. Qed.

Lemma complement_full n : complement n (seq 0 n) = [].
Proof.
  unfold complement.
  replace ((list_to_set (seq 0 n) : gset nat) ∖ list_to_set (seq 0 n)) with (∅ : gset nat)
    by set_solver.
  apply elements_empty.
Qed.

Lemma mean_singleton x : mean [x] = x.
Proof.
  unfold mean, sum. simpl. rewrite fadd_zero_r.
  replace (of_nat 1) with one by (unfold of_nat, one; f_equal; simpl; lra).
  apply fdiv_one_r.
Qed.

Lemma slice_rank x (k : nat) y :
  x !! k = Some y -> slice x (Z.of_nat (S k) - 1) (Z.of_nat (S k)) = [y].
Proof.
  intros H. pose proof (lookup_lt_Some _ _ _ H) as Hlt.
  unfold slice, clip_bound.
  destruct (Z.ltb_spec (Z.of_nat (S k) - 1) 0); [lia|].
  destruct (Z.ltb_spec (Z.of_nat (S k)) 0); [lia|].
  replace (Z.to_nat (Z.min (Z.of_nat (S k)) (Z.of_nat (length x)) -
           Z.min (Z.of_nat (S k) - 1) (Z.of_nat (length x)))) with 1%nat by lia.
  replace (Z.to_nat (Z.min (Z.of_nat (S k) - 1) (Z.of_nat (length x)))) with k by lia.
  apply list_eq. intros [|i]; simpl.
  - rewrite lookup_take_lt by lia. rewrite lookup_drop. by rewrite Nat.add_0_r.
  - rewrite lookup_take_ge by lia. done.
Qed.

Lemma slice_out_of_range x (N : nat) :
  (N = 0 \/ length x < N)%nat -> slice x (Z.of_nat N - 1) (Z.of_nat N) = [].
Proof.
  intros H. unfold slice, clip_bound.
  destruct (Z.ltb_spec (Z.of_nat N - 1) 0), (Z.ltb_spec (Z.of_nat N) 0); try lia.
  - replace (Z.to_nat (Z.min (Z.of_nat N) (Z.of_nat (length x)) -
             Z.max (Z.of_nat N - 1 + Z.of_nat (length x)) 0)) with 0%nat by lia.
    done.
  - replace (Z.to_nat (Z.min (Z.of_nat N) (Z.of_nat (length x)) -
             Z.min (Z.of_nat N - 1) (Z.of_nat (length x)))) with 0%nat by lia.
    done.
Qed.

End ArrayLemmas.

(** ** The constructors, taken apart *)

Section Constructors.

Lemma bind_ok {A B} (r : Py.result A) (k : A -> Py.result B) y :
  Py.bind r k = Py.Ok y <-> exists x, r = Py.Ok x /\ k x = Py.Ok y.
Proof.
  destruct r as [x|e]; simpl; split.
  - intros H. by exists x.
  - by intros (x' & [= <-] & H).
  - done.
  - by intros (x' & ? & _).
Qed.

Lemma get_first_ok x y : get_first x = Py.Ok y <-> x !! 0%nat = Some y.
Proof. unfold get_first. destruct x; simpl; split; congruence. Qed.

Lemma get_first_nonempty x y : get_first x = Py.Ok y -> x <> [].
Proof. by destruct x. Qed.

Lemma kernel_bfgs_nrows C reg : nrows (BFGS.kernel C reg) = nrows C.
Proof. unfold BFGS.kernel, map_matrix, nrows. simpl. by rewrite length_map. Qed.

Lemma kernel_bfgs_ncols C reg : ncols (BFGS.kernel C reg) = ncols C.
Proof. reflexivity. Qed.

Lemma kernel_new_nrows C reg : nrows (NewFormulation.kernel C reg) = nrows C.
Proof. unfold NewFormulation.kernel, map_matrix, nrows. simpl. by rewrite length_map. Qed.


Lemma K_sum_cols_length K : length (K_sum_cols K) = nrows K.
Proof. unfold K_sum_cols, sum_axis1, nrows. by rewrite length_map. Qed.

Lemma K_sum_rows_length K : length (K_sum_rows K) = ncols K.
Proof.
  unfold K_sum_rows, sum_axis1, transpose. simpl.
  by rewrite !length_map, length_seq.
Qed.

Lemma K_sum_cols_lookup K i :
  K_sum_cols K !! i = Np.sum <$> rows K !! i.
Proof. unfold K_sum_cols, sum_axis1. by rewrite list_lookup_fmap. Qed.

Lemma K_sum_rows_lookup K j :
  (j < ncols K)%nat -> K_sum_rows K !! j = Some (Np.sum (col j K)).
Proof.
  intros Hj. unfold K_sum_rows, sum_axis1, transpose. simpl.
  rewrite !list_lookup_fmap, lookup_seq_lt by done. done.
Qed.

(** Membership in the active sets, coordinate by coordinate. *)
Lemma active_I_spec a eps fs Ksc i :
  i ∈ active_I a eps fs Ksc <->
  exists ai ki, a !! i = Some ai /\ Ksc !! i = Some ki /\
                fge ai (fmul (fdiv (fmul eps eps) fs) ki) = true.
Proof.
  unfold active_I. rewrite where_spec, lookup_zip_with, fpow_int_2.
  rewrite list_lookup_fmap. split.
  - destruct (a !! i) as [ai|]; simpl; [|done].
    destruct (Ksc !! i) as [ki|]; simpl; [|done].
    intros [= H]. by exists ai, ki.
  - intros (ai & ki & -> & -> & H). simpl. by rewrite H.
Qed.

Lemma active_J_spec b eps fs Ksr j :
  j ∈ active_J b eps fs Ksr <->
  exists bj kj, b !! j = Some bj /\ Ksr !! j = Some kj /\
                fge bj (fmul (fmul (fmul eps eps) fs) kj) = true.
Proof.
  unfold active_J. rewrite where_spec, lookup_zip_with, fpow_int_2.
  rewrite list_lookup_fmap. split.
  - destruct (b !! j) as [bj|]; simpl; [|done].
    destruct (Ksr !! j) as [kj|]; simpl; [|done].
    intros [= H]. by exists bj, kj.
  - intros (bj & kj & -> & -> & H). simpl. by rewrite H.
Qed.

Lemma active_I_lt a eps fs Ksc i : i ∈ active_I a eps fs Ksc -> (i < length Ksc)%nat.
Proof. rewrite active_I_spec. intros (? & ? & _ & H & _). by apply lookup_lt_Some in H. Qed.

Lemma active_J_lt b eps fs Ksr j : j ∈ active_J b eps fs Ksr -> (j < length Ksr)%nat.
Proof. rewrite active_J_spec. intros (? & ? & _ & H & _). by apply lookup_lt_Some in H. Qed.

Lemma active_I_NoDup a eps fs Ksc : NoDup (active_I a eps fs Ksc).
Proof. apply where_NoDup. Qed.

Lemma active_J_NoDup b eps fs Ksr : NoDup (active_J b eps fs Ksr).
Proof. apply where_NoDup. Qed.

(** The box is built exactly when both active sets are inhabited. *)
Lemma bounds_u_pair_ok a_sort b_sort I J eps fs n m K_min bu :
  bounds_u_pair a_sort b_sort I J eps fs n m K_min = Py.Ok bu ->
  exists a_last b_first a_first,
    last (index a_sort I) = Some a_last /\
    head (index b_sort J) = Some b_first /\
    head (index a_sort I) = Some a_first /\
    bu = Spec.box_u fs eps K_min n m (length J) a_last a_first b_first.
Proof.
  unfold bounds_u_pair, get_last, get_first.
  destruct (last (index a_sort I)) as [al|]; simpl; [|done].
  destruct (head (index b_sort J)) as [bf|]; simpl; [|done].
  destruct (head (index a_sort I)) as [af|]; simpl; [|done].
  intros [= <-]. by exists al, bf, af.
Qed.

Lemma bounds_v_pair_ok a_sort b_sort I J eps fs n m K_min bv :
  bounds_v_pair a_sort b_sort I J eps fs n m K_min = Py.Ok bv ->
  exists b_last a_first b_first,
    last (index b_sort J) = Some b_last /\
    head (index a_sort I) = Some a_first /\
    head (index b_sort J) = Some b_first /\
    bv = Spec.box_v fs eps K_min n m (length I) b_last b_first a_first.
Proof.
  unfold bounds_v_pair, get_last, get_first.
  destruct (last (index b_sort J)) as [bl|]; simpl; [|done].
  destruct (head (index a_sort I)) as [af|]; simpl; [|done].
  destruct (head (index b_sort J)) as [bf|]; simpl; [|done].
  intros [= <-]. by exists bl, af, bf.
Qed.

Lemma head_index_nonempty x idx y : head (index x idx) = Some y -> idx <> [].
Proof. by destruct idx. Qed.


Lemma bfgs_screening_inv a b K N M n m sel :
  BFGS.screening_mode a b K N M n m = Py.Ok sel ->
  screening_selection a b (sort a) (sort b) K N M n m (Fin 1) sel.
Proof.
  unfold BFGS.screening_mode, screening_selection.
  intros H. apply bind_ok in H as (K_min & HK & H).
  apply bind_ok in H as (bu & Hbu & H).
  apply bind_ok in H as (bv & Hbv & H).
  injection H as <-. by exists K_min, bu, bv.
Qed.

Lemma new_screening_inv a b K N M n m uniform sel :
  NewFormulation.screening_mode a b K N M n m uniform = Py.Ok sel ->
  screening_selection a b
    (if uniform then a else sort a) (if uniform then b else sort b)
    K N M n m (fact_scale0 a b K N M) sel.
Proof.
  unfold NewFormulation.screening_mode, screening_selection.
  intros H. apply bind_ok in H as (K_min & HK & H).
  destruct uniform; simpl in H;
    apply bind_ok in H as (bu & Hbu & H);
    apply bind_ok in H as (bv & Hbv & H);
    injection H as <-; by exists K_min, bu, bv.
Qed.

Lemma mode_cases (C : matrix) (N M : nat) :
  ((N =? nrows C)%nat && (M =? ncols C)%nat = true /\ N = nrows C /\ M = ncols C) \/
  ((N =? nrows C)%nat && (M =? ncols C)%nat = false /\ screening C N M).
Proof.
  unfold screening.
  destruct (Nat.eqb_spec N (nrows C)), (Nat.eqb_spec M (ncols C)); simpl;
    [left | right | right | right]; split; try done; intros []; done.
Qed.

Lemma bfgs_init_inv a b C reg N M s :
  BFGS.__init__ a b C reg N M = Py.Ok s ->
  exists sel,
    s = assemble a b C reg N M None None (BFGS.kernel C reg) sel /\
    ((N = nrows C /\ M = ncols C /\ sel = full_mode (nrows C) (ncols C)) \/
     (screening C N M /\
      screening_selection a b (sort a) (sort b) (BFGS.kernel C reg) N M
        (nrows C) (ncols C) (Fin 1) sel)).
Proof.
  unfold BFGS.__init__. intros H. apply bind_ok in H as (sel & Hsel & H).
  injection H as <-. exists sel. split; [done|].
  destruct (mode_cases C N M) as [(E & HN & HM) | (E & Hs)]; rewrite E in Hsel.
  - left. by injection Hsel as <-.
  - right. split; [done|]. by apply bfgs_screening_inv.
Qed.

Lemma new_init_inv a b C reg N M verbose uniform s :
  NewFormulation.__init__ a b C reg N M verbose uniform = Py.Ok s ->
  exists sel,
    s = assemble a b C reg N M (Some verbose) (Some uniform)
          (NewFormulation.kernel C reg) sel /\
    ((N = nrows C /\ M = ncols C /\ sel = full_mode (nrows C) (ncols C)) \/
     (screening C N M /\
      screening_selection a b
        (if uniform then a else sort a) (if uniform then b else sort b)
        (NewFormulation.kernel C reg) N M (nrows C) (ncols C)
        (fact_scale0 a b (NewFormulation.kernel C reg) N M) sel)).
Proof.
  unfold NewFormulation.__init__. intros H. apply bind_ok in H as (sel & Hsel & H).
  injection H as <-. exists sel. split; [done|].
  destruct (mode_cases C N M) as [(E & HN & HM) | (E & Hs)]; rewrite E in Hsel.
  - left. by injection Hsel as <-.
  - right. split; [done|]. by apply new_screening_inv.
Qed.

End Constructors.

Section BothVariants.


Lemma constructed_inv a b C reg N M s :
  constructed a b C reg N M s ->
  exists verbose uniform K sel,
    s = assemble a b C reg N M verbose uniform K sel /\
    (K = BFGS.kernel C reg \/ K = NewFormulation.kernel C reg) /\
    nrows K = nrows C /\ ncols K = ncols C /\
    ((N = nrows C /\ M = ncols C /\ sel = full_mode (nrows C) (ncols C)) \/
     (screening C N M /\
      exists a_sort b_sort fs,
        (fs = Fin 1 \/ fs = fact_scale0 a b K N M) /\
        screening_selection a b a_sort b_sort K N M (nrows C) (ncols C) fs sel)).
Proof.
  intros [H | (verbose & uniform & H)].
  - apply bfgs_init_inv in H as (sel & -> & H).
    exists None, None, (BFGS.kernel C reg), sel.
    split; [done|]. split; [by left|].
    split; [apply kernel_bfgs_nrows|]. split; [done|].
    destruct H as [H | [Hs H]]; [by left | right].
    split; [done|]. exists (sort a), (sort b), (Fin 1). split; [by left | done].
  - apply new_init_inv in H as (sel & -> & H).
    exists (Some verbose), (Some uniform), (NewFormulation.kernel C reg), sel.
    split; [done|]. split; [by right|].
    split; [apply kernel_new_nrows|]. split; [done|].
    destruct H as [H | [Hs H]]; [by left | right].
    split; [done|]. do 3 eexists. split; [by right | exact H].
Qed.

Lemma selection_I_range a b C reg N M s :
  constructed a b C reg N M s ->
  (forall i, i ∈ self_I s -> (i < nrows C)%nat) /\
  (forall j, j ∈ self_J s -> (j < ncols C)%nat) /\
  NoDup (self_I s) /\ NoDup (self_J s).
Proof.
  intros H. apply constructed_inv in H
    as (verbose & uniform & K & sel & -> & _ & Hn & Hm & H). simpl.
  destruct H as [(_ & _ & ->) | (_ & a_sort & b_sort & fs & _ & Hsel)].
  - simpl. repeat split.
    + intros i Hi%elem_of_seq. lia.
    + intros j Hj%elem_of_seq. lia.
    + apply NoDup_seq.
    + apply NoDup_seq.
  - destruct Hsel as (K_min & bu & bv & _ & _ & _ & ->). simpl. repeat split.
    + intros i Hi%active_I_lt. rewrite K_sum_cols_length in Hi. lia.
    + intros j Hj%active_J_lt. rewrite K_sum_rows_length in Hj. lia.
    + apply active_I_NoDup.
    + apply active_J_NoDup.
Qed.

Lemma constructed_complements a b C reg N M s :
  constructed a b C reg N M s ->
  self_Ic s = complement (nrows C) (self_I s) /\
  self_Jc s = complement (ncols C) (self_J s).
Proof.
  intros H. apply constructed_inv in H as (? & ? & K & sel & -> & _). done.
Qed.

End BothVariants.

(** ** The index sets *)

(** C9.  For every input of valid shape, in full and in screening mode and
    for both constructors, the object that is built has [I] and [Ic]
    disjoint with union [{0..n-1}], and [J] and [Jc] disjoint with union
    [{0..m-1}]. *)
Theorem partition_invariant a b C reg N M s :
  valid_shape a b C ->
  constructed a b C reg N M s ->
  (list_to_set (self_I s) ∩ list_to_set (self_Ic s) = (∅ : gset nat)) /\
  (list_to_set (self_I s) ∪ list_to_set (self_Ic s)
     = (list_to_set (seq 0 (nrows C)) : gset nat)) /\
  (list_to_set (self_J s) ∩ list_to_set (self_Jc s) = (∅ : gset nat)) /\
  (list_to_set (self_J s) ∪ list_to_set (self_Jc s)
     = (list_to_set (seq 0 (ncols C)) : gset nat)).
Proof.
  intros _ H.
  destruct (selection_I_range _ _ _ _ _ _ _ H) as (HI & HJ & _ & _).
  destruct (constructed_complements _ _ _ _ _ _ _ H) as [-> ->].
  rewrite !complement_set.
  assert (SI : (list_to_set (self_I s) : gset nat) ⊆ list_to_set (seq 0 (nrows C))).
  { intros i Hi%elem_of_list_to_set. apply elem_of_list_to_set, elem_of_seq.
    specialize (HI i Hi). lia. }
  assert (SJ : (list_to_set (self_J s) : gset nat) ⊆ list_to_set (seq 0 (ncols C))).
  { intros j Hj%elem_of_list_to_set. apply elem_of_list_to_set, elem_of_seq.
    specialize (HJ j Hj). lia. }
  repeat split.
  - set_solver.
  - apply set_eq. intros i. rewrite elem_of_union, elem_of_difference.
    split; [intros [?|[? _]]; auto | intros ?].
    destruct (decide (i ∈ (list_to_set (self_I s) : gset nat))); auto.
  - set_solver.
  - apply set_eq. intros j. rewrite elem_of_union, elem_of_difference.
    split; [intros [?|[? _]]; auto | intros ?].
    destruct (decide (j ∈ (list_to_set (self_J s) : gset nat))); auto.
Qed.

(** C4.  In screening mode, for both constructors, [I] is exactly the set
    of rows [i] with [a[i] >= epsilon^2 / fact_scale . K_sum_cols[i]] and
    [J] the set of columns [j] with
    [b[j] >= epsilon^2 . fact_scale . K_sum_rows[j]], where [K_sum_cols[i]]
    is the sum of row [i] of [K], [K_sum_rows[j]] the sum of column [j],
    and [fact_scale] is the value computed from the two thresholds, before
    any reset. *)
Theorem active_sets_by_threshold a b C reg N M s :
  valid_shape a b C ->
  screening C N M ->
  constructed a b C reg N M s ->
  let K := self_K s in
  let eps := self_epsilon s in
  let fs := fact_scale0 a b K N M in
  (forall i, i ∈ self_I s <->
     exists ai row, a !! i = Some ai /\ rows K !! i = Some row /\
       fge ai (fmul (fdiv (fmul eps eps) fs) (Np.sum row)) = true) /\
  (forall j, j ∈ self_J s <->
     exists bj, b !! j = Some bj /\ (j < ncols K)%nat /\
       fge bj (fmul (fmul (fmul eps eps) fs) (Np.sum (col j K))) = true).
Proof.
  intros _ Hs H. apply constructed_inv in H
    as (verbose & uniform & K & sel & -> & _ & Hn & Hm & H). simpl.
  destruct H as [(HN & HM & _) | (_ & a_sort & b_sort & fs & _ & Hsel)].
  { exfalso. by apply Hs. }
  destruct Hsel as (K_min & bu & bv & _ & _ & _ & ->). simpl. split.
  - intros i. rewrite active_I_spec. split.
    + intros (ai & ki & Ha & Hk & Hge). rewrite K_sum_cols_lookup in Hk.
      destruct (rows K !! i) as [row|] eqn:E; [|done].
      injection Hk as <-. by exists ai, row.
    + intros (ai & row & Ha & Hr & Hge). exists ai, (Np.sum row).
      rewrite K_sum_cols_lookup, Hr. done.
  - intros j. rewrite active_J_spec. split.
    + intros (bj & kj & Hb & Hk & Hge).
      assert (Hj : (j < ncols K)%nat).
      { apply lookup_lt_Some in Hk. by rewrite K_sum_rows_length in Hk. }
      rewrite K_sum_rows_lookup in Hk by done. injection Hk as <-.
      by exists bj.
    + intros (bj & Hb & Hj & Hge). exists bj, (Np.sum (col j K)).
      by rewrite K_sum_rows_lookup.
Qed.

(** ** Evaluation on concrete inputs *)

#[local] Arguments IZR : simpl never.
#[local] Arguments INR : simpl never.

Section Evaluation.

Lemma Rleb_is_true x y : x <= y -> Rleb x y = true.
Proof. apply Rleb_true. Qed.

Lemma Rleb_is_false x y : y < x -> Rleb x y = false.
Proof. intros H. unfold Rleb. destruct (Rle_dec x y); [lra | done]. Qed.

Lemma Rltb_is_true x y : x < y -> Rltb x y = true.
Proof. apply Rltb_true. Qed.

Lemma Rltb_is_false x y : y <= x -> Rltb x y = false.
Proof. intros H. unfold Rltb. destruct (Rlt_dec x y); [lra | done]. Qed.

Lemma Reqb_is_true x y : x = y -> Reqb x y = true.
Proof. intros H. unfold Reqb. destruct (Req_dec_T x y); [done | lra]. Qed.

Lemma Reqb_is_false x y : x <> y -> Reqb x y = false.
Proof. intros H. unfold Reqb. destruct (Req_dec_T x y); [done | done]. Qed.

Lemma Rpower_quarter x r : 0 < r -> x = r * r * r * r -> Rpower x (1/4) = r.
Proof.
  intros Hr ->.
  replace (r * r * r * r) with (Rpower r 4).
  - rewrite Rpower_mult. replace (4 * (1/4)) with 1 by lra. by apply Rpower_1.
  - replace 4 with (INR 4) by (rewrite INR_IZR_INZ; by change (Z.of_nat 4) with 4%Z). rewrite Rpower_pow by done. simpl. lra.
Qed.

Lemma Rpower_half x r : 0 < r -> x = r * r -> Rpower x (1/2) = r.
Proof.
  intros Hr ->.
  replace (r * r) with (Rpower r 2).
  - rewrite Rpower_mult. replace (2 * (1/2)) with 1 by lra. by apply Rpower_1.
  - replace 2 with (INR 2) by (rewrite INR_IZR_INZ; by change (Z.of_nat 2) with 2%Z). rewrite Rpower_pow by done. simpl. lra.
Qed.

End Evaluation.

Ltac decide_R :=
  repeat match goal with
  | |- context [Rleb ?x ?y] =>
      first [ rewrite (Rleb_is_true x y) by lra | rewrite (Rleb_is_false x y) by lra ]
  | |- context [Rltb ?x ?y] =>
      first [ rewrite (Rltb_is_true x y) by lra | rewrite (Rltb_is_false x y) by lra ]
  | |- context [Reqb ?x ?y] =>
      first [ rewrite (Reqb_is_true x y) by lra | rewrite (Reqb_is_false x y) by lra ]
  end.

Ltac eval_INR :=
  rewrite ?INR_IZR_INZ;
  repeat match goal with
  | |- context [Z.of_nat ?n] =>
      let z := eval vm_compute in (Z.of_nat n) in change (Z.of_nat n) with z
  end.

Ltac feval := repeat (progress (simpl; eval_INR; decide_R)).


Lemma ex_kernel_bfgs : BFGS.kernel ex_C (Fin 1) = ex_K.
Proof.
  unfold BFGS.kernel, map_matrix, ex_C, ex_K. simpl. unfold fdiv. decide_R. simpl.
  replace (- 0 / 1) with 0 by lra. rewrite Rtrigo_def.exp_0. done.
Qed.

Lemma ex_kernel_new : NewFormulation.kernel ex_C (Fin 1) = ex_K.
Proof.
  unfold NewFormulation.kernel, map_matrix, ex_C, ex_K. simpl. unfold fdiv. decide_R. simpl.
  replace (0 / - (1)) with 0 by lra. rewrite Rtrigo_def.exp_0. done.
Qed.


(** ** Sorting *)

Section Sorting.


Lemma sort_le_total x y : sort_le x y = false -> sort_le y x = true.
Proof.
  destruct x, y; simpl; try done.
  unfold Rleb. intros H. destruct (Rle_dec r r0); [done|].
  destruct (Rle_dec r0 r); [done | lra].
Qed.

Lemma sort_le_trans x y z : sort_le x y = true -> sort_le y z = true -> sort_le x z = true.
Proof.
  destruct x, y, z; simpl; try done.
  rewrite !Rleb_true. lra.
Qed.

Lemma sort_le_refl x : sort_le x x = true.
Proof. destruct x; simpl; try done. apply Rleb_true. lra. Qed.

Lemma insert_sorted_perm x l : insert_sorted x l ≡ₚ x :: l.
Proof.
  induction l as [|y l IH]; simpl; [done|].
  destruct (sort_le x y); [done|].
  rewrite IH. apply Permutation_swap.
Qed.

Lemma sort_perm l : Np.sort l ≡ₚ l.
Proof.
  unfold Np.sort. induction l as [|x l IH]; simpl; [done|].
  by rewrite insert_sorted_perm, IH.
Qed.

Lemma insert_sorted_sorted x l :
  StronglySorted sort_rel l -> StronglySorted sort_rel (insert_sorted x l).
Proof.
  induction l as [|y l IH]; simpl; intros Hl.
  - repeat constructor.
  - apply StronglySorted_inv in Hl as [Hl Hy].
    destruct (sort_le x y) eqn:E.
    + constructor; [by constructor|].
      constructor; [done|].
      eapply Forall_impl; [exact Hy|]. intros z Hz. by eapply sort_le_trans.
    + constructor; [by apply IH|].
      rewrite insert_sorted_perm. constructor; [by apply sort_le_total | done].
Qed.

Lemma sort_sorted l : StronglySorted sort_rel (Np.sort l).
Proof.
  unfold Np.sort. induction l as [|x l IH]; simpl; [constructor|].
  by apply insert_sorted_sorted.
Qed.

Lemma sort_length l : length (Np.sort l) = length l.
Proof. by rewrite sort_perm. Qed.

(** Positions in an ascending list are ordered. *)
Lemma sorted_lookup l i j x y :
  StronglySorted sort_rel l -> (i <= j)%nat ->
  l !! i = Some x -> l !! j = Some y -> sort_le x y = true.
Proof.
  intros Hl. revert i j. induction Hl as [|z l Hl IH Hz]; intros i j Hij Hi Hj; [done|].
  destruct i as [|i], j as [|j]; simpl in *; try lia.
  - injection Hi as <-; injection Hj as <-. apply sort_le_refl.
  - injection Hi as <-. rewrite Forall_forall in Hz.
    apply Hz. by eapply list_elem_of_lookup_2.
  - apply (IH i j); [lia | done | done].
Qed.


Lemma ratio_sort_perm a Ksum : ratio_sort a Ksum ≡ₚ zip_with fdiv a Ksum.
Proof. unfold ratio_sort. by rewrite reverse_Permutation, sort_perm. Qed.

Lemma ratio_sort_descending a Ksum : descending (ratio_sort a Ksum).
Proof.
  unfold ratio_sort, descending. intros i j x y Hij Hi Hj.
  pose proof (lookup_lt_Some _ _ _ Hi) as Li.
  pose proof (lookup_lt_Some _ _ _ Hj) as Lj.
  rewrite length_reverse in Li, Lj.
  rewrite reverse_lookup in Hi by done.
  rewrite reverse_lookup in Hj by done.
  eapply (sorted_lookup _ _ _ _ _ (sort_sorted _)); [|exact Hj|exact Hi]. lia.
Qed.

(** A constant array is its own sort. *)
Lemma sort_replicate k c : Np.sort (replicate k c) = replicate k c.
Proof.
  unfold Np.sort. induction k as [|k IH]; simpl; [done|]. rewrite IH.
  destruct k; simpl; [done|]. by rewrite sort_le_refl.
Qed.

End Sorting.

(** ** Positivity on valid inputs *)

Section Positivity.

Lemma sum_positive l :
  Forall positive l ->
  exists r, Np.sum l = Fin r /\ 0 <= r /\ (l <> [] -> 0 < r).
Proof.
  induction 1 as [|x l (rx & -> & Hx) _ (r & Hr & Hr0 & _)]; simpl.
  - exists 0. repeat split; [lra | done].
  - unfold Np.sum in *. simpl. rewrite Hr. simpl. exists (rx + r).
    repeat split; [lra | intros _; lra].
Qed.

Lemma sum_positive_nonempty l : Forall positive l -> l <> [] -> positive (Np.sum l).
Proof.
  intros H Hl. destruct (sum_positive l H) as (r & Hr & _ & Hp).
  exists r. split; [done | by apply Hp].
Qed.

Lemma fdiv_positive x y : positive x -> positive y -> positive (fdiv x y).
Proof.
  intros (r & -> & Hr) (t & -> & Ht). simpl.
  rewrite Reqb_is_false by lra. exists (r / t). split; [done|].
  by apply Rdiv_lt_0_compat.
Qed.

Lemma zip_fdiv_positive x y :
  Forall positive x -> Forall positive y -> Forall positive (zip_with fdiv x y).
Proof.
  intros Hx. revert y. induction Hx as [|xi x Hxi Hx IH]; intros y Hy; simpl; [constructor|].
  destruct Hy as [|yi y Hyi Hy]; constructor; [by apply fdiv_positive | by apply IH].
Qed.

Lemma kernel_bfgs_positive C reg :
  positive reg ->
  Forall (Forall (fun c => is_finite c = true)) (rows C) ->
  Forall (Forall positive) (rows (BFGS.kernel C reg)).
Proof.
  intros (r & -> & Hr) HC. unfold BFGS.kernel, map_matrix. simpl.
  apply Forall_fmap. eapply Forall_impl; [exact HC|]. intros row Hrow. simpl.
  apply Forall_fmap. eapply Forall_impl; [exact Hrow|]. intros [c| | |] Hc; try done.
  simpl. rewrite Reqb_is_false by lra. simpl. eexists. split; [done|]. apply exp_pos.
Qed.

Lemma kernel_new_positive C reg :
  positive reg ->
  Forall (Forall (fun c => is_finite c = true)) (rows C) ->
  Forall (Forall positive) (rows (NewFormulation.kernel C reg)).
Proof.
  intros (r & -> & Hr) HC. unfold NewFormulation.kernel, map_matrix. simpl.
  apply Forall_fmap. eapply Forall_impl; [exact HC|]. intros row Hrow. simpl.
  apply Forall_fmap. eapply Forall_impl; [exact Hrow|]. intros [c| | |] Hc; try done.
  simpl. rewrite Reqb_is_false by lra. simpl. eexists. split; [done|]. apply exp_pos.
Qed.

Lemma map_matrix_wf f C : wf_matrix C -> wf_matrix (map_matrix f C).
Proof.
  unfold wf_matrix, map_matrix. simpl. intros H.
  apply Forall_fmap. eapply Forall_impl; [exact H|]. intros row Hrow. simpl.
  by rewrite length_map.
Qed.

Lemma K_sum_cols_positive K :
  wf_matrix K -> (1 <= ncols K)%nat ->
  Forall (Forall positive) (rows K) -> Forall positive (K_sum_cols K).
Proof.
  unfold K_sum_cols, sum_axis1, wf_matrix. intros Hwf Hm HK.
  apply Forall_fmap. rewrite Forall_forall in *. intros row Hrow. simpl.
  apply sum_positive_nonempty; [by apply HK|].
  specialize (Hwf row Hrow). simpl in Hwf. intros ->. simpl in Hwf. lia.
Qed.

Lemma col_positive K j :
  wf_matrix K -> (j < ncols K)%nat ->
  Forall (Forall positive) (rows K) -> Forall positive (col j K).
Proof.
  unfold col, wf_matrix. intros Hwf Hj HK.
  apply Forall_fmap. rewrite Forall_forall in *. intros row Hrow. simpl.
  specialize (Hwf row Hrow). simpl in Hwf.
  destruct (lookup_lt_is_Some_2 row j) as [x Hx]; [lia|].
  rewrite (nth_lookup_Some _ _ _ _ Hx).
  specialize (HK row Hrow). rewrite Forall_forall in HK. apply HK.
  by eapply list_elem_of_lookup_2.
Qed.

Lemma K_sum_rows_positive K :
  wf_matrix K -> (1 <= nrows K)%nat ->
  Forall (Forall positive) (rows K) -> Forall positive (K_sum_rows K).
Proof.
  intros Hwf Hn HK. unfold K_sum_rows, sum_axis1, transpose. simpl.
  apply Forall_fmap, Forall_fmap. rewrite Forall_forall. intros j Hj%elem_of_seq. simpl.
  apply sum_positive_nonempty; [apply col_positive; [done | lia | done]|].
  unfold col, nrows in *. destruct (rows K); simpl in *; [lia | done].
Qed.

Lemma ratio_sort_positive a Ksum :
  Forall positive a -> Forall positive Ksum -> Forall positive (ratio_sort a Ksum).
Proof. intros Ha Hk. rewrite ratio_sort_perm. by apply zip_fdiv_positive. Qed.

Lemma ratio_sort_length a Ksum :
  length (ratio_sort a Ksum) = Nat.min (length a) (length Ksum).
Proof. rewrite ratio_sort_perm. apply length_zip_with. Qed.

(** The threshold is the entry of rank [N - 1] whenever that rank exists. *)
Lemma epsilon_square_rank r (N : nat) x :
  (1 <= N)%nat -> r !! (N - 1)%nat = Some x -> epsilon_square r N = x.
Proof.
  intros HN Hx. unfold epsilon_square. destruct N as [|k]; [lia|].
  replace (S k - 1)%nat with k in Hx by lia.
  rewrite (slice_rank _ _ _ Hx). apply mean_singleton.
Qed.

Lemma positive_rank r (N : nat) :
  Forall positive r -> (1 <= N <= length r)%nat ->
  exists e, 0 < e /\ r !! (N - 1)%nat = Some (Fin e).
Proof.
  intros Hr HN. destruct (lookup_lt_is_Some_2 r (N - 1)) as [x Hx]; [lia|].
  rewrite Forall_forall in Hr.
  destruct (Hr x) as (e & -> & He); [by eapply list_elem_of_lookup_2|].
  by exists e.
Qed.

Lemma epsilon_of_positive eu ev :
  0 < eu -> 0 < ev -> epsilon_of (Fin eu) (Fin ev) = Fin (Rpower (eu * ev) (1/4)).
Proof.
  intros Hu Hv. unfold epsilon_of. simpl.
  rewrite Rltb_is_true; [done|]. by apply Rmult_lt_0_compat.
Qed.

Lemma fact_scale_of_positive eu ev :
  0 < eu -> 0 < ev -> fact_scale_of (Fin eu) (Fin ev) = Fin (sqrt (ev / eu)).
Proof.
  intros Hu Hv. unfold fact_scale_of. simpl.
  rewrite Reqb_is_false by lra. simpl.
  assert (0 < ev / eu) by (by apply Rdiv_lt_0_compat).
  rewrite Rltb_is_true by done. f_equal.
  replace (1 / 2) with (/ 2) by lra. by apply Rpower_sqrt.
Qed.

End Positivity.

(** ** The thresholds *)

Lemma constructed_kernel a b C reg N M s :
  valid_input a b C reg N M ->
  constructed a b C reg N M s ->
  wf_matrix (self_K s) /\ nrows (self_K s) = nrows C /\ ncols (self_K s) = ncols C /\
  Forall (Forall positive) (rows (self_K s)).
Proof.
  intros (Hshape & _ & _ & HC & Hreg & _ & _) H.
  destruct Hshape as (Hwf & _ & _).
  apply constructed_inv in H as (? & ? & K & sel & -> & HK & Hn & Hm & _). simpl.
  repeat split; try done.
  - destruct HK as [-> | ->]; by apply map_matrix_wf.
  - destruct HK as [-> | ->]; [by apply kernel_bfgs_positive | by apply kernel_new_positive].
Qed.

Lemma constructed_screening a b C reg N M s :
  screening C N M ->
  constructed a b C reg N M s ->
  let K := self_K s in
  self_epsilon s = epsilon0 a b K N M /\
  self_I s = active_I a (self_epsilon s) (fact_scale0 a b K N M) (K_sum_cols K) /\
  self_J s = active_J b (self_epsilon s) (fact_scale0 a b K N M) (K_sum_rows K) /\
  self_I s <> [] /\ self_J s <> [].
Proof.
  intros Hs H. apply constructed_inv in H
    as (? & ? & K & sel & -> & _ & _ & _ & H). simpl.
  destruct H as [(HN & HM & _) | (_ & a_sort & b_sort & fs & _ & Hsel)].
  { exfalso. by apply Hs. }
  destruct Hsel as (K_min & bu & bv & _ & Hbu & _ & ->). simpl.
  apply bounds_u_pair_ok in Hbu as (al & bf & af & _ & Hbf & Haf & _).
  repeat split; try done.
  - by eapply head_index_nonempty.
  - by eapply head_index_nonempty.
Qed.

(** C3.  In screening mode, on a valid input and for both constructors:
    the vectors [a / K_sum_cols] and [b / K_sum_rows] are sorted in
    descending order, [epsilon_u_sq] and [epsilon_v_sq] are their entries of
    rank [N - 1] and [M - 1], [epsilon] is the fourth root of their product
    and the [fact_scale] with which [I] and [J] are selected is the square
    root of their quotient. *)
Theorem thresholds_from_sorted_ratios a b C reg N M s :
  valid_input a b C reg N M ->
  screening C N M ->
  constructed a b C reg N M s ->
  let K := self_K s in
  let ratios_u := ratio_sort a (K_sum_cols K) in
  let ratios_v := ratio_sort b (K_sum_rows K) in
  ratios_u ≡ₚ zip_with fdiv a (K_sum_cols K) /\ descending ratios_u /\
  ratios_v ≡ₚ zip_with fdiv b (K_sum_rows K) /\ descending ratios_v /\
  exists epsilon_u_sq epsilon_v_sq : R,
    0 < epsilon_u_sq /\ 0 < epsilon_v_sq /\
    ratios_u !! (N - 1)%nat = Some (Fin epsilon_u_sq) /\
    ratios_v !! (M - 1)%nat = Some (Fin epsilon_v_sq) /\
    self_epsilon s = Fin (Rpower (epsilon_u_sq * epsilon_v_sq) (1/4)) /\
    let fact_scale := Fin (sqrt (epsilon_v_sq / epsilon_u_sq)) in
    self_I s = active_I a (self_epsilon s) fact_scale (K_sum_cols K) /\
    self_J s = active_J b (self_epsilon s) fact_scale (K_sum_rows K).
Proof.
  intros Hv Hs H.
  destruct (constructed_kernel _ _ _ _ _ _ _ Hv H) as (Hwf & Hn & Hm & Hpos).
  destruct (constructed_screening _ _ _ _ _ _ _ Hs H) as (Heps & HI & HJ & _).
  destruct Hv as ((_ & Hla & Hlb) & Ha & Hb & _ & _ & HN & HM).
  simpl. set (K := self_K s) in *.
  split; [apply ratio_sort_perm|]. split; [apply ratio_sort_descending|].
  split; [apply ratio_sort_perm|]. split; [apply ratio_sort_descending|].
  assert (Pu : Forall positive (ratio_sort a (K_sum_cols K))).
  { apply ratio_sort_positive; [done|]. apply K_sum_cols_positive; [done | lia | done]. }
  assert (Pv : Forall positive (ratio_sort b (K_sum_rows K))).
  { apply ratio_sort_positive; [done|]. apply K_sum_rows_positive; [done | lia | done]. }
  destruct (positive_rank _ N Pu) as (eu & Heu & Hru).
  { rewrite ratio_sort_length, K_sum_cols_length. lia. }
  destruct (positive_rank _ M Pv) as (ev & Hev & Hrv).
  { rewrite ratio_sort_length, K_sum_rows_length. lia. }
  exists eu, ev.
  assert (Eu : eps_u_sq a K N = Fin eu).
  { unfold eps_u_sq. apply epsilon_square_rank; [lia | done]. }
  assert (Ev : eps_v_sq b K M = Fin ev).
  { unfold eps_v_sq. apply epsilon_square_rank; [lia | done]. }
  assert (Ef : fact_scale0 a b K N M = Fin (sqrt (ev / eu))).
  { unfold fact_scale0. rewrite Eu, Ev. by apply fact_scale_of_positive. }
  repeat split; try done.
  - rewrite Heps. unfold epsilon0. rewrite Eu, Ev. by apply epsilon_of_positive.
  - by rewrite <- Ef.
  - by rewrite <- Ef.
Qed.

(** ** The worked input, evaluated *)

Section WorkedInput.

Ltac fin_list :=
  repeat first [ apply (f_equal2 (@cons num)) | apply (f_equal Fin) ];
  try reflexivity; try lra.

Lemma ex_Ksc : K_sum_cols ex_K = [Fin 3; Fin 3].
Proof. unfold K_sum_cols, sum_axis1, ex_K. simpl. fin_list. Qed.

Lemma ex_Ksr : K_sum_rows ex_K = [Fin 2; Fin 2; Fin 2].
Proof. unfold K_sum_rows, sum_axis1, transpose, ex_K. simpl. fin_list. Qed.

Lemma ex_ratio_u : ratio_sort ex_a [Fin 3; Fin 3] = [Fin (29/96); Fin (1/32)].
Proof.
  unfold ratio_sort, ex_a. simpl. decide_R. unfold Np.sort. simpl. decide_R.
  unfold reverse. simpl. fin_list.
Qed.

Lemma ex_ratio_v :
  ratio_sort ex_b [Fin 2; Fin 2; Fin 2] = [Fin (5/16); Fin (1/8); Fin (1/16)].
Proof.
  unfold ratio_sort, ex_b. simpl. decide_R. unfold Np.sort. simpl. decide_R.
  simpl. decide_R. unfold reverse. simpl. fin_list.
Qed.

Lemma ex_eu : eps_u_sq ex_a ex_K 2 = Fin (1/32).
Proof.
  unfold eps_u_sq. rewrite ex_Ksc, ex_ratio_u.
  apply epsilon_square_rank; [lia | done].
Qed.

Lemma ex_ev : eps_v_sq ex_b ex_K 2 = Fin (1/8).
Proof.
  unfold eps_v_sq. rewrite ex_Ksr, ex_ratio_v.
  apply epsilon_square_rank; [lia | done].
Qed.

Lemma ex_epsilon : epsilon0 ex_a ex_b ex_K 2 2 = Fin (1/4).
Proof.
  unfold epsilon0. rewrite ex_eu, ex_ev, epsilon_of_positive by lra.
  f_equal. apply Rpower_quarter; lra.
Qed.

Lemma ex_fact_scale : fact_scale0 ex_a ex_b ex_K 2 2 = Fin 2.
Proof.
  unfold fact_scale0. rewrite ex_eu, ex_ev. unfold fact_scale_of. simpl.
  decide_R. simpl. decide_R. f_equal. apply Rpower_half; lra.
Qed.

Lemma ex_I : active_I ex_a (Fin (1/4)) (Fin 2) [Fin 3; Fin 3] = [0; 1]%nat.
Proof. unfold active_I, ex_a, where_, fge. simpl. decide_R. simpl. decide_R. done. Qed.

Lemma ex_J : active_J ex_b (Fin (1/4)) (Fin 2) [Fin 2; Fin 2; Fin 2] = [0; 1]%nat.
Proof. unfold active_J, ex_b, where_, fge. simpl. decide_R. simpl. decide_R. done. Qed.

Lemma ex_K_min : Np.min ex_K = Py.Ok (Fin 1).
Proof. unfold Np.min, ex_K. simpl. unfold fmin. repeat (simpl; decide_R). done. Qed.

Lemma ex_sort_a : Np.sort ex_a = [Fin (3/32); Fin (29/32)].
Proof. unfold Np.sort, ex_a. simpl. decide_R. done. Qed.

Lemma ex_sort_b : Np.sort ex_b = [Fin (1/8); Fin (1/4); Fin (5/8)].
Proof. unfold Np.sort, ex_b. simpl. decide_R. simpl. decide_R. done. Qed.

Lemma ex_bfgs_init : BFGS.__init__ ex_a ex_b ex_C (Fin 1) 2 2 = Py.Ok ex_bfgs.
Proof.
  unfold BFGS.__init__. rewrite ex_kernel_bfgs.
  change ((2 =? nrows ex_C)%nat && (2 =? ncols ex_C)%nat) with false. cbv iota.
  unfold BFGS.screening_mode. rewrite ex_K_min. cbn [Py.bind].
  fold (eps_u_sq ex_a ex_K 2) (eps_v_sq ex_b ex_K 2).
  fold (epsilon0 ex_a ex_b ex_K 2 2) (fact_scale0 ex_a ex_b ex_K 2 2).
  rewrite ex_epsilon, ex_fact_scale, ex_Ksc, ex_Ksr, ex_I, ex_J, ex_sort_a, ex_sort_b.
  reflexivity.
Qed.

Lemma ex_new_init :
  NewFormulation.__init__ ex_a ex_b ex_C (Fin 1) 2 2 true true = Py.Ok ex_new.
Proof.
  unfold NewFormulation.__init__. rewrite ex_kernel_new.
  change ((2 =? nrows ex_C)%nat && (2 =? ncols ex_C)%nat) with false. cbv iota.
  unfold NewFormulation.screening_mode. rewrite ex_K_min. cbn [Py.bind negb].
  fold (eps_u_sq ex_a ex_K 2) (eps_v_sq ex_b ex_K 2).
  fold (epsilon0 ex_a ex_b ex_K 2 2) (fact_scale0 ex_a ex_b ex_K 2 2).
  rewrite ex_epsilon, ex_fact_scale, ex_Ksc, ex_Ksr, ex_I, ex_J.
  reflexivity.
Qed.

End WorkedInput.

(** ** [fact_scale] and the box *)

Section ScaleAndBox.

Lemma fdiv_one_one : fdiv one one = one.
Proof. apply fdiv_one_r. Qed.

Lemma map_fmul_one x : map (fmul one) x = x.
Proof. induction x as [|xi x IH]; [done|]. cbn [map]. by rewrite fmul_one_l, IH. Qed.

Lemma map_fdiv_one x : map (fun xi => fdiv xi one) x = x.
Proof. induction x as [|xi x IH]; [done|]. cbn [map]. by rewrite fdiv_one_r, IH. Qed.

Lemma zip_fmul_ones x : zip_with fmul x (ones (length x)) = x.
Proof.
  unfold ones, full. induction x as [|xi x IH]; [done|].
  cbn [length replicate zip_with]. by rewrite fmul_one_r, IH.
Qed.

Lemma ix_rows_length K ri ci : Forall (fun r => length r = length ci) (rows (ix_ K ri ci)).
Proof.
  unfold ix_. simpl. apply Forall_fmap, Forall_forall. intros i _. simpl.
  apply index_length.
Qed.

Lemma ix_nrows K ri ci : nrows (ix_ K ri ci) = length ri.
Proof. unfold ix_, nrows. simpl. by rewrite length_map. Qed.

Lemma mul_row_ones A k :
  Forall (fun r => length r = k) (rows A) -> mul_row A (ones k) = A.
Proof.
  destruct A as [rs m]. unfold mul_row. simpl. intros H. f_equal.
  induction H as [|r rs Hr _ IH]; simpl; [done|].
  rewrite IH. f_equal. rewrite <- Hr. apply zip_fmul_ones.
Qed.

Lemma mul_col_ones A : mul_col (ones (nrows A)) A = A.
Proof.
  destruct A as [rs m]. unfold mul_col, ones, full, nrows. simpl. f_equal.
  induction rs as [|r rs IH]; simpl; [done|].
  by rewrite IH, map_fmul_one.
Qed.

Lemma screening_mode_flag (C : matrix) (N M : nat) :
  screening C N M -> negb (N =? nrows C)%nat || negb (M =? ncols C)%nat = true.
Proof.
  unfold screening. intros H.
  destruct (Nat.eqb_spec N (nrows C)), (Nat.eqb_spec M (ncols C)); simpl; try done.
  exfalso. by apply H.
Qed.

Lemma full_mode_flag (C : matrix) :
  negb (nrows C =? nrows C)%nat || negb (ncols C =? ncols C)%nat = false.
Proof. by rewrite !Nat.eqb_refl. Qed.

(** The correction vectors and the offsets of an assembled object in
    screening mode, when [fact_scale] is 1. *)
Lemma assemble_unit_scale a b C reg N M verbose uniform K sel :
  screening C N M ->
  sel_fact_scale sel = Fin 1 ->
  let s := assemble a b C reg N M verbose uniform K sel in
  self_vec_eps_IJc s = map (fmul (self_epsilon s)) (sum_axis1 (self_K_IJc s)) /\
  self_vec_eps_IcJ s = map (fmul (self_epsilon s)) (sum_axis0 (self_K_IcJ s)) /\
  self_cst_u s = Array (map (fmul (self_epsilon s)) (sum_axis1 (self_K_IJc s))) /\
  self_cst_v s = Array (map (fmul (self_epsilon s)) (sum_axis0 (self_K_IcJ s))).
Proof.
  intros Hs Hfs. unfold assemble.
  cbn [self_vec_eps_IJc self_vec_eps_IcJ self_cst_u self_cst_v self_epsilon
       self_K_IJc self_K_IcJ].
  rewrite (screening_mode_flag _ _ _ Hs), Hfs. cbn [fst snd].
  fold one. rewrite !fmul_one_r, fmul_one_l, fdiv_one_r, map_fdiv_one.
  rewrite mul_row_ones by apply ix_rows_length.
  pose proof (mul_col_ones (ix_ K (complement (nrows C) (sel_I sel)) (sel_J sel))) as E.
  rewrite ix_nrows in E. rewrite E. done.
Qed.

Lemma objective_unit_scale s u v :
  self_fact_scale s = Fin 1 ->
  objective s u v =
    fadd (fadd (Spec.dual_objective (self_K_IJ s) (self_a_I s) (self_b_J s) u v)
               (dot u (self_vec_eps_IJc s)))
         (dot (self_vec_eps_IcJ s) v) /\
  grad_objective s u v =
    (zip_with fsub (zip_with fadd (matvec (self_K_IJ s) v) (self_vec_eps_IJc s))
                   (zip_with fdiv (self_a_I s) u),
     zip_with fsub (zip_with fadd (matvec (transpose (self_K_IJ s)) u) (self_vec_eps_IcJ s))
                   (zip_with fdiv (self_b_J s) v)).
Proof.
  intros Hfs. unfold objective, grad_objective, Spec.dual_objective. rewrite Hfs.
  fold one. by rewrite fdiv_one_one, !map_fmul_one.
Qed.

Lemma selection_box a b a_sort b_sort C reg N M verbose uniform K fs sel :
  screening_selection a b a_sort b_sort K N M (nrows C) (ncols C) fs sel ->
  box_built_from a_sort b_sort (assemble a b C reg N M verbose uniform K sel).
Proof.
  intros (K_min & bu & bv & HK & Hbu & Hbv & ->). unfold box_built_from. simpl.
  apply bounds_u_pair_ok in Hbu as (al & bf & af & Hal & Hbf & Haf & ->).
  apply bounds_v_pair_ok in Hbv as (bl & af' & bf' & Hbl & Haf' & Hbf' & ->).
  rewrite Haf in Haf'. injection Haf' as <-.
  rewrite Hbf in Hbf'. injection Hbf' as <-.
  by exists K_min, al, af, bl, bf.
Qed.

End ScaleAndBox.

(** C1, as amended.  In screening mode [screenkhornBFGS.py] resets
    [fact_scale] to 1 after the selection of [I] and [J]: the object holds
    [fact_scale = 1], the two thresholds of the projection are [epsilon],
    the correction vectors and the offsets are [epsilon] times the sums of
    the inactive blocks, the box is the one of the formula at
    [fact_scale = 1], and the objective and its gradient carry no scale.
    [new_formulation.py] has no reset: the object holds the [fact_scale]
    that was computed from the two thresholds. *)
Theorem fact_scale_reset_in_bfgs_only a b C reg N M :
  valid_shape a b C ->
  screening C N M ->
  (forall s, BFGS.__init__ a b C reg N M = Py.Ok s ->
     let eps := self_epsilon s in
     self_fact_scale s = Fin 1 /\
     fdiv eps (self_fact_scale s) = eps /\ fmul eps (self_fact_scale s) = eps /\
     self_vec_eps_IJc s = map (fmul eps) (sum_axis1 (self_K_IJc s)) /\
     self_vec_eps_IcJ s = map (fmul eps) (sum_axis0 (self_K_IcJ s)) /\
     self_cst_u s = Array (map (fmul eps) (sum_axis1 (self_K_IJc s))) /\
     self_cst_v s = Array (map (fmul eps) (sum_axis0 (self_K_IcJ s))) /\
     box_built_from (Np.sort a) (Np.sort b) s /\
     forall u v,
       objective s u v =
         fadd (fadd (Spec.dual_objective (self_K_IJ s) (self_a_I s) (self_b_J s) u v)
                    (dot u (self_vec_eps_IJc s)))
              (dot (self_vec_eps_IcJ s) v) /\
       grad_objective s u v =
         (zip_with fsub (zip_with fadd (matvec (self_K_IJ s) v) (self_vec_eps_IJc s))
                        (zip_with fdiv (self_a_I s) u),
          zip_with fsub
            (zip_with fadd (matvec (transpose (self_K_IJ s)) u) (self_vec_eps_IcJ s))
            (zip_with fdiv (self_b_J s) v))) /\
  (forall verbose uniform s,
     NewFormulation.__init__ a b C reg N M verbose uniform = Py.Ok s ->
     self_fact_scale s = fact_scale0 a b (self_K s) N M).
Proof.
  intros _ Hs. split.
  - intros s H. apply bfgs_init_inv in H as (sel & -> & [(HN & HM & _) | (_ & Hsel)]).
    { exfalso. by apply Hs. }
    assert (Hfs : sel_fact_scale sel = Fin 1).
    { by destruct Hsel as (? & ? & ? & _ & _ & _ & ->). }
    destruct (assemble_unit_scale a b C reg N M None None (BFGS.kernel C reg) sel Hs Hfs)
      as (E1 & E2 & E3 & E4).
    split; [exact Hfs|].
    split; [cbn [self_fact_scale assemble]; rewrite Hfs; apply fdiv_one_r|].
    split; [cbn [self_fact_scale assemble]; rewrite Hfs; apply fmul_one_r|].
    split; [exact E1|]. split; [exact E2|]. split; [exact E3|]. split; [exact E4|].
    split; [by eapply selection_box|].
    intros u v. by apply objective_unit_scale.
  - intros verbose uniform s H.
    apply new_init_inv in H as (sel & -> & [(HN & HM & _) | (_ & Hsel)]).
    { exfalso. by apply Hs. }
    by destruct Hsel as (? & ? & ? & _ & _ & _ & ->).
Qed.

(** C5, as amended.  In screening mode the box of every active row is the
    pair of the formula and the box of every active column the pair of the
    exchanged formula, where the arrays indexed by [I] and [J] are the
    sorted marginals in [screenkhornBFGS.py] and in [new_formulation.py]
    with [uniform = False], and the marginals as given in
    [new_formulation.py] with [uniform = True]; a constant array is its own
    sort. *)
Theorem box_bounds_formula a b C reg N M :
  valid_shape a b C ->
  screening C N M ->
  (forall s, BFGS.__init__ a b C reg N M = Py.Ok s ->
     box_built_from (Np.sort a) (Np.sort b) s) /\
  (forall verbose uniform s,
     NewFormulation.__init__ a b C reg N M verbose uniform = Py.Ok s ->
     box_built_from (if uniform then a else Np.sort a)
                    (if uniform then b else Np.sort b) s) /\
  (forall k c, Np.sort (replicate k c) = replicate k c).
Proof.
  intros _ Hs. split; [|split].
  - intros s H. apply bfgs_init_inv in H as (sel & -> & [(HN & HM & _) | (_ & Hsel)]).
    { exfalso. by apply Hs. }
    by eapply selection_box.
  - intros verbose uniform s H.
    apply new_init_inv in H as (sel & -> & [(HN & HM & _) | (_ & Hsel)]).
    { exfalso. by apply Hs. }
    by eapply selection_box.
  - apply sort_replicate.
Qed.

(** ** The worked input as an instance *)

Section WorkedInstance.

Lemma ex_valid_shape : valid_shape ex_a ex_b ex_C.
Proof. repeat split. unfold wf_matrix, ex_C. simpl. by repeat constructor. Qed.

Lemma ex_screening : screening ex_C 2 2.
Proof. unfold screening, ex_C. simpl. intros [_ H]. discriminate H. Qed.

Lemma ex_valid_input : valid_input ex_a ex_b ex_C (Fin 1) 2 2.
Proof.
  split; [apply ex_valid_shape|].
  split; [repeat constructor; eexists; (split; [reflexivity | lra])|].
  split; [repeat constructor; eexists; (split; [reflexivity | lra])|].
  split; [by repeat constructor|].
  split; [exists 1; split; [done | lra]|].
  unfold nrows, ex_C. simpl. lia.
Qed.

Lemma ex_bfgs_constructed : constructed ex_a ex_b ex_C (Fin 1) 2 2 ex_bfgs.
Proof. left. apply ex_bfgs_init. Qed.

Lemma ex_new_constructed : constructed ex_a ex_b ex_C (Fin 1) 2 2 ex_new.
Proof. right. exists true, true. apply ex_new_init. Qed.

End WorkedInstance.

(** C1 fails as stated: on the worked input [new_formulation.py] builds an
    object in screening mode whose [fact_scale] is 2, not 1. *)
Lemma fact_scale_kept_in_new_formulation :
  screening ex_C 2 2 /\
  NewFormulation.__init__ ex_a ex_b ex_C (Fin 1) 2 2 true true = Py.Ok ex_new /\
  self_fact_scale ex_new = Fin 2 /\
  self_fact_scale ex_new <> Fin 1.
Proof.
  split; [apply ex_screening|]. split; [apply ex_new_init|]. split; [done|].
  simpl. intros [= H]. lra.
Qed.

Lemma fact_scale_reset_in_bfgs_only_witness :
  self_fact_scale ex_bfgs = Fin 1 /\
  self_fact_scale ex_new = fact_scale0 ex_a ex_b (self_K ex_new) 2 2.
Proof.
  destruct (fact_scale_reset_in_bfgs_only ex_a ex_b ex_C (Fin 1) 2 2
              ex_valid_shape ex_screening) as [Hb Hn].
  split.
  - exact (proj1 (Hb ex_bfgs ex_bfgs_init)).
  - exact (Hn true true ex_new ex_new_init).
Defined.

(** C5 fails as stated: on the worked input [new_formulation.py], with its
    default [uniform = True], builds a box that is not the one of the
    formula over the sorted marginals. *)
Lemma box_of_unsorted_marginals :
  screening ex_C 2 2 /\
  NewFormulation.__init__ ex_a ex_b ex_C (Fin 1) 2 2 true true = Py.Ok ex_new /\
  ~ box_built_from (Np.sort ex_a) (Np.sort ex_b) ex_new.
Proof.
  split; [apply ex_screening|]. split; [apply ex_new_init|].
  unfold box_built_from. rewrite ex_sort_a, ex_sort_b.
  intros (K_min & al & af & bl & bf & HK & Hal & Haf & Hbl & Hbf & Hu & _).
  change (self_K ex_new) with ex_K in HK. rewrite ex_K_min in HK.
  injection HK as <-.
  injection Hal as <-. injection Haf as <-. injection Hbf as <-.
  revert Hu. unfold ex_new, ex_sel_new, Spec.box_u, of_nat. cbn [self_bounds_u assemble
    sel_bounds_u self_I sel_I self_J sel_J self_epsilon sel_epsilon self_fact_scale
    sel_fact_scale self_C length replicate nrows ncols ex_C rows].
  intros [= _ H]. revert H. unfold fdiv, fmul. eval_INR. decide_R.
  intros [= H]. lra.
Qed.

Lemma box_bounds_formula_witness :
  box_built_from (Np.sort ex_a) (Np.sort ex_b) ex_bfgs /\
  box_built_from ex_a ex_b ex_new.
Proof.
  destruct (box_bounds_formula ex_a ex_b ex_C (Fin 1) 2 2
              ex_valid_shape ex_screening) as (Hb & Hn & _).
  split.
  - exact (Hb ex_bfgs ex_bfgs_init).
  - exact (Hn true true ex_new ex_new_init).
Defined.

Lemma partition_invariant_witness :
  (list_to_set (self_I ex_new) ∩ list_to_set (self_Ic ex_new) = (∅ : gset nat)) /\
  (list_to_set (self_I ex_new) ∪ list_to_set (self_Ic ex_new)
     = (list_to_set (seq 0 (nrows ex_C)) : gset nat)) /\
  (list_to_set (self_J ex_new) ∩ list_to_set (self_Jc ex_new) = (∅ : gset nat)) /\
  (list_to_set (self_J ex_new) ∪ list_to_set (self_Jc ex_new)
     = (list_to_set (seq 0 (ncols ex_C)) : gset nat)).
Proof.
  exact (partition_invariant ex_a ex_b ex_C (Fin 1) 2 2 ex_new
           ex_valid_shape ex_new_constructed).
Defined.

Lemma active_sets_by_threshold_witness :
  let K := self_K ex_bfgs in
  let eps := self_epsilon ex_bfgs in
  let fs := fact_scale0 ex_a ex_b K 2 2 in
  (forall i, i ∈ self_I ex_bfgs <->
     exists ai row, ex_a !! i = Some ai /\ rows K !! i = Some row /\
       fge ai (fmul (fdiv (fmul eps eps) fs) (Np.sum row)) = true) /\
  (forall j, j ∈ self_J ex_bfgs <->
     exists bj, ex_b !! j = Some bj /\ (j < ncols K)%nat /\
       fge bj (fmul (fmul (fmul eps eps) fs) (Np.sum (col j K))) = true).
Proof.
  exact (active_sets_by_threshold ex_a ex_b ex_C (Fin 1) 2 2 ex_bfgs
           ex_valid_shape ex_screening ex_bfgs_constructed).
Defined.

Lemma thresholds_from_sorted_ratios_witness :
  exists epsilon_u_sq epsilon_v_sq : R,
    ratio_sort ex_a (K_sum_cols (self_K ex_new)) !! 1%nat = Some (Fin epsilon_u_sq) /\
    ratio_sort ex_b (K_sum_rows (self_K ex_new)) !! 1%nat = Some (Fin epsilon_v_sq) /\
    self_epsilon ex_new = Fin (Rpower (epsilon_u_sq * epsilon_v_sq) (1/4)).
Proof.
  destruct (thresholds_from_sorted_ratios ex_a ex_b ex_C (Fin 1) 2 2 ex_new
              ex_valid_input ex_screening ex_new_constructed)
    as (_ & _ & _ & _ & eu & ev & _ & _ & Hu & Hv & He & _).
  exists eu, ev. split; [exact Hu|]. split; [exact Hv | exact He].
Defined.

(** ** Full mode *)

Section FullMode.

Lemma map_nth_seq {A} (l : list A) d : map (fun i => nth i l d) (seq 0 (length l)) = l.
Proof.
  apply list_eq. intros i. rewrite list_lookup_fmap.
  destruct (decide (i < length l)%nat) as [Hi|Hi].
  - destruct (lookup_lt_is_Some_2 l i Hi) as [y Hy].
    rewrite lookup_seq_lt by lia. simpl. rewrite Hy. f_equal.
    by apply nth_lookup_Some.
  - rewrite lookup_seq_ge by lia. simpl.
    symmetry. apply lookup_ge_None. lia.
Qed.

Lemma ix_full K : wf_matrix K -> ix_ K (seq 0 (nrows K)) (seq 0 (ncols K)) = K.
Proof.
  destruct K as [rs m]. unfold wf_matrix, ix_, nrows. simpl. intros Hwf.
  rewrite length_seq. f_equal.
  rewrite <- (map_nth_seq rs []) at 2.
  apply map_ext_in. intros i Hi%in_seq.
  destruct (lookup_lt_is_Some_2 rs i) as [row Hrow]; [lia|].
  rewrite (nth_lookup_Some _ _ _ _ Hrow).
  rewrite Forall_forall in Hwf.
  rewrite <- (Hwf row) by (by eapply list_elem_of_lookup_2).
  apply index_seq.
Qed.

Lemma sum_zeros k : Np.sum (replicate k (Fin 0)) = Fin 0.
Proof.
  unfold Np.sum. induction k as [|k IH]; simpl; [done|].
  rewrite IH. simpl. f_equal. lra.
Qed.

Lemma dot_zeros_r u :
  Forall (fun x => is_finite x = true) u -> dot u (replicate (length u) (Fin 0)) = Fin 0.
Proof.
  unfold dot, Np.sum. induction 1 as [|x u Hx _ IH]; simpl; [done|].
  rewrite IH. destruct x; try done. simpl. f_equal. lra.
Qed.

Lemma dot_zeros_l v :
  Forall (fun x => is_finite x = true) v -> dot (replicate (length v) (Fin 0)) v = Fin 0.
Proof.
  unfold dot, Np.sum. induction 1 as [|x v Hx _ IH]; simpl; [done|].
  rewrite IH. destruct x; try done. simpl. f_equal. lra.
Qed.

Lemma zip_fadd_zeros x : zip_with fadd x (replicate (length x) (Fin 0)) = x.
Proof.
  induction x as [|xi x IH]; [done|]. cbn [length replicate zip_with].
  rewrite IH. fold zero. by rewrite fadd_zero_r.
Qed.

Lemma positive_finite x : positive x -> is_finite x = true.
Proof. by intros (r & -> & _). Qed.

Lemma matvec_length A x : length (matvec A x) = nrows A.
Proof. unfold matvec, nrows. by rewrite length_map. Qed.

Lemma transpose_nrows A : nrows (transpose A) = ncols A.
Proof. unfold transpose, nrows. simpl. by rewrite length_map, length_seq. Qed.

(** The correction vectors of an object assembled in full mode. *)
Lemma full_mode_corrections a b C reg verbose uniform K :
  nrows K = nrows C -> ncols K = ncols C ->
  let s := assemble a b C reg (nrows C) (ncols C) verbose uniform K
             (full_mode (nrows C) (ncols C)) in
  self_vec_eps_IJc s = replicate (nrows C) (Fin 0) /\
  self_vec_eps_IcJ s = replicate (ncols C) (Fin 0) /\
  self_cst_u s = Scalar (Fin 0) /\ self_cst_v s = Scalar (Fin 0).
Proof.
  intros Hn Hm. unfold assemble, full_mode.
  cbn [self_vec_eps_IJc self_vec_eps_IcJ self_cst_u self_cst_v sel_I sel_J
       sel_epsilon sel_fact_scale].
  rewrite full_mode_flag, !complement_full. cbn [fst snd length].
  repeat split.
  - unfold ix_, mul_row, sum_axis1, index, ones, full. cbn [rows map replicate].
    rewrite !map_map. cbn [zip_with Np.sum foldr].
    generalize (nrows C). intros n. generalize 0%nat.
    induction n as [|n IH]; intros k; [done|].
    cbn [seq map replicate]. rewrite IH. f_equal. simpl. f_equal. lra.
  - unfold ix_, mul_col, sum_axis0, col, ones, full.
    cbn [rows ncols map replicate zip_with Np.sum foldr].
    rewrite length_seq. generalize (ncols C). intros m. generalize 0%nat.
    induction m as [|m IH]; intros k; [done|].
    cbn [seq map replicate]. rewrite IH. f_equal. simpl. rewrite Reqb_is_false by lra.
    simpl. f_equal. lra.
Qed.

End FullMode.

(** C2.  For every input of valid shape with [N = n] and [M = m], each
    constructor returns an object with [I] and [J] the full index ranges,
    [epsilon = 0], [fact_scale = 1], [cst_u = cst_v = 0], all-zero
    correction vectors and the box [(0, +inf)]; on strictly positive [u] of
    length [n] and [v] of length [m] its objective is the unconstrained
    dual objective [u.K.v - a.log(u) - b.log(v)] over the whole kernel, and
    its gradient is the gradient of that objective. *)
Theorem full_mode_equivalence a b C reg :
  valid_shape a b C ->
  let n := nrows C in
  let m := ncols C in
  (exists s, BFGS.__init__ a b C reg n m = Py.Ok s) /\
  (forall verbose uniform,
     exists s, NewFormulation.__init__ a b C reg n m verbose uniform = Py.Ok s) /\
  forall s, constructed a b C reg n m s ->
    self_I s = seq 0 n /\ self_J s = seq 0 m /\
    self_epsilon s = Fin 0 /\ self_fact_scale s = Fin 1 /\
    self_cst_u s = Scalar (Fin 0) /\ self_cst_v s = Scalar (Fin 0) /\
    self_vec_eps_IJc s = replicate n (Fin 0) /\
    self_vec_eps_IcJ s = replicate m (Fin 0) /\
    self_bounds_u s = replicate n (Fin 0, PInf) /\
    self_bounds_v s = replicate m (Fin 0, PInf) /\
    forall u v, length u = n -> length v = m ->
      Forall positive u -> Forall positive v ->
      objective s u v = Spec.dual_objective (self_K s) a b u v /\
      grad_objective s u v = Spec.dual_gradient (self_K s) a b u v.
Proof.
  intros (Hwf & Hla & Hlb). simpl. split; [|split].
  - unfold BFGS.__init__. rewrite !Nat.eqb_refl. simpl. eauto.
  - intros verbose uniform. unfold NewFormulation.__init__.
    rewrite !Nat.eqb_refl. simpl. eauto.
  - intros s H. apply constructed_inv in H
      as (verbose & uniform & K & sel & -> & HK & Hn & Hm & H).
    destruct H as [(_ & _ & ->) | (Hs & _)]; [|exfalso; by apply Hs].
    assert (HwfK : wf_matrix K).
    { destruct HK as [-> | ->]; by apply map_matrix_wf. }
    destruct (full_mode_corrections a b C reg verbose uniform K Hn Hm)
      as (E1 & E2 & E3 & E4).
    set (s := assemble a b C reg (nrows C) (ncols C) verbose uniform K
                (full_mode (nrows C) (ncols C))) in *.
    assert (EK : self_K_IJ s = K).
    { subst s. cbn [self_K_IJ assemble full_mode sel_I sel_J].
      rewrite <- Hn, <- Hm. by apply ix_full. }
    assert (Ea : self_a_I s = a).
    { subst s. cbn [self_a_I assemble full_mode sel_I]. rewrite <- Hla. apply index_seq. }
    assert (Eb : self_b_J s = b).
    { subst s. cbn [self_b_J assemble full_mode sel_J]. rewrite <- Hlb. apply index_seq. }
    do 10 (split; [done|]).
    intros u v Hu Hv Pu Pv.
    destruct (objective_unit_scale s u v eq_refl) as [Eo Eg].
    rewrite Eo, Eg, E1, E2, EK, Ea, Eb. split.
    + rewrite <- Hu at 1. rewrite <- Hv at 1.
      rewrite dot_zeros_r, dot_zeros_l.
      * fold zero. by rewrite !fadd_zero_r.
      * eapply Forall_impl; [exact Pv | apply positive_finite].
      * eapply Forall_impl; [exact Pu | apply positive_finite].
    + unfold Spec.dual_gradient. f_equal.
      * rewrite <- Hn, <- (matvec_length K v). by rewrite zip_fadd_zeros.
      * rewrite <- Hm, <- (transpose_nrows K), <- (matvec_length (transpose K) u).
        by rewrite zip_fadd_zeros.
Qed.

(** ** The thresholds of the projection *)

Section Thresholds.

Lemma fmul_nan_l x y : is_nan (fmul x y) = false -> is_nan x = false.
Proof. by destruct x, y. Qed.

Lemma fdiv_nan_l x y : is_nan (fdiv x y) = false -> is_nan x = false.
Proof. by destruct x, y. Qed.

(** When [epsilon^2 / fact_scale] and [epsilon^2 . fact_scale] are numbers,
    so are [epsilon / fact_scale] and [epsilon . fact_scale]. *)
Lemma thresholds_not_nan eps fs :
  is_nan (fdiv (fmul eps eps) fs) = false ->
  is_nan (fmul (fmul eps eps) fs) = false ->
  is_nan (fdiv eps fs) = false /\ is_nan (fmul eps fs) = false.
Proof.
  destruct eps as [e| | |], fs as [f| | |]; simpl; unfold scale_inf, Reqb, Rltb;
    repeat match goal with
    | |- context [Req_dec_T ?x ?y] => destruct (Req_dec_T x y)
    | |- context [Rlt_dec ?x ?y] => destruct (Rlt_dec x y)
    end; simpl; try done;
    try (intros; exfalso;
         match goal with
         | H : _ <> _ |- _ => apply H; subst; nra
         end).
Qed.

Lemma nonempty_elem {A} (l : list A) : l <> [] -> exists x, x ∈ l.
Proof. destruct l as [|x l]; [done|]. intros _. exists x. apply list_elem_of_here. Qed.

(** An object that a constructor returns has thresholds that are numbers:
    with a NaN among them an active set is empty and the box raises. *)
Lemma constructed_thresholds a b C reg N M s :
  constructed a b C reg N M s ->
  is_nan (fdiv (self_epsilon s) (self_fact_scale s)) = false /\
  is_nan (fmul (self_epsilon s) (self_fact_scale s)) = false.
Proof.
  intros H. apply constructed_inv in H
    as (verbose & uniform & K & sel & -> & _ & _ & _ & H).
  destruct H as [(_ & _ & ->) | (_ & a_sort & b_sort & fs & Hfs & Hsel)].
  { simpl. rewrite Reqb_is_false by lra. done. }
  destruct Hsel as (K_min & bu & bv & _ & Hbu & _ & ->).
  cbn [self_epsilon self_fact_scale assemble sel_epsilon sel_fact_scale].
  apply bounds_u_pair_ok in Hbu as (al & bf & af & _ & Hbf & Haf & _).
  apply head_index_nonempty, nonempty_elem in Hbf as (j & Hj).
  apply head_index_nonempty, nonempty_elem in Haf as (i & Hi).
  apply active_I_spec in Hi as (ai & ki & _ & _ & Hi).
  apply active_J_spec in Hj as (bj & kj & _ & _ & Hj).
  unfold fge in Hi, Hj.
  apply fle_not_nan_l, fmul_nan_l in Hi.
  apply fle_not_nan_l, fmul_nan_l in Hj.
  set (eps := epsilon0 a b K N M) in *.
  destruct Hfs as [-> | ->].
  - assert (is_nan eps = false) as He.
    { by apply fdiv_nan_l, fmul_nan_l in Hi. }
    fold one. by rewrite fdiv_one_r, fmul_one_r.
  - by apply thresholds_not_nan.
Qed.

(** The two projections at the end of [restricted_sinkhorn], on a store
    whose two arrays hold numbers. *)
Lemma projections_feasible (h : heap) lu lv tu tv :
  is_nan tu = false -> is_nan tv = false ->
  Forall (fun x => is_nan x = false) (deref h lu) ->
  Forall (fun x => is_nan x = false) (deref h lv) ->
  let h' := alter (clamp tv) lv (alter (clamp tu) lu h) in
  Forall (fun x => fge x tu = true) (deref h' lu) /\
  Forall (fun x => fge x tv = true) (deref h' lv).
Proof.
  intros Htu Htv Hu Hv. simpl. rewrite !deref_alter.
  repeat case_decide; subst; try done;
    (split; [first [ by apply clamp_keeps_ge, clamp_ge
                   | by apply clamp_ge
                   | by apply Forall_nil ]
            | first [ by apply clamp_ge, clamp_not_nan
                    | by apply clamp_ge
                    | by apply Forall_nil ]]).
Qed.

End Thresholds.

(** C7.  For an object returned by a constructor, finite input arrays
    [usc] and [vsc], and a run in which no alternating update produces a
    NaN, every coordinate of the [u] returned by [restricted_sinkhorn] is
    at least [epsilon / fact_scale] and every coordinate of the returned
    [v] is at least [epsilon . fact_scale]. *)
Theorem warm_start_feasibility a b C reg N M s usc vsc max_iter (h : heap) :
  constructed a b C reg N M s ->
  Forall (fun x => is_finite x = true) (deref h usc) ->
  Forall (fun x => is_finite x = true) (deref h vsc) ->
  (forall k, (1 <= k <= Z.to_nat (max_iter - 1))%nat ->
     Forall not_nan (Nat.iter k (Spec.round s) (deref h usc, deref h vsc)).1 /\
     Forall not_nan (Nat.iter k (Spec.round s) (deref h usc, deref h vsc)).2) ->
  let r := BFGS.restricted_sinkhorn s usc vsc max_iter h in
  NewFormulation.restricted_sinkhorn s usc vsc max_iter h = r /\
  Forall (fun x => fge x (fdiv (self_epsilon s) (self_fact_scale s)) = true)
         (deref r.1 r.2.1) /\
  Forall (fun x => fge x (fmul (self_epsilon s) (self_fact_scale s)) = true)
         (deref r.1 r.2.2).
Proof.
  intros Hc Hu Hv Hnan. simpl. split; [done|].
  destruct (constructed_thresholds _ _ _ _ _ _ _ Hc) as [Htu Htv].
  unfold BFGS.restricted_sinkhorn, _projection. simpl.
  pose proof (iter_turn_contents s (Z.to_nat (max_iter - 1)) (Frame h 1 usc vsc 0)) as Hcont.
  rewrite <- sinkhorn_loop_iter in Hcont.
  set (fr := BFGS.sinkhorn_loop s usc vsc max_iter h) in *.
  assert (Hfr : Forall (fun x => is_nan x = false) (deref (fr_heap fr) (fr_usc fr)) /\
                Forall (fun x => is_nan x = false) (deref (fr_heap fr) (fr_vsc fr))).
  { change (Forall (fun x => is_nan x = false) (contents fr).1 /\
            Forall (fun x => is_nan x = false) (contents fr).2).
    rewrite Hcont. unfold contents. simpl.
    destruct (Z.to_nat (max_iter - 1)) as [|k] eqn:E.
    - simpl. split; (eapply Forall_impl; [eassumption|]); by intros [].
    - apply (Hnan (S k)). lia. }
  destruct Hfr as [Hfu Hfv].
  by apply projections_feasible.
Qed.

(** ** The warm start *)

Section WarmStartCalls.

Lemma py_inverse_ok k : k <> 0%nat -> py_inverse k = Py.Ok (fdiv one (of_nat k)).
Proof. unfold py_inverse. by destruct k. Qed.

Lemma py_inverse_inv k x : py_inverse k = Py.Ok x -> k <> 0%nat.
Proof. unfold py_inverse. by destruct k. Qed.

Lemma warm_start_call_bfgs s r :
  BFGS.warm_start_call s = Py.Ok r -> r.2 = 3%Z /\ self_I s <> [] /\ self_J s <> [].
Proof.
  unfold BFGS.warm_start_call.
  destruct (py_inverse (length (self_I s))) as [x|] eqn:EI; simpl; [|done].
  destruct (py_inverse (length (self_J s))) as [y|] eqn:EJ; simpl; [|done].
  intros [= <-]. apply py_inverse_inv in EI, EJ. simpl.
  repeat split; intros E; rewrite E in *; done.
Qed.

Lemma warm_start_call_new s r :
  NewFormulation.warm_start_call s = Py.Ok r ->
  r.2 = 10%Z /\ self_I s <> [] /\ self_J s <> [].
Proof.
  unfold NewFormulation.warm_start_call.
  destruct (py_inverse (length (self_I s))) as [x|] eqn:EI; simpl; [|done].
  destruct (py_inverse (length (self_J s))) as [y|] eqn:EJ; simpl; [|done].
  intros [= <-]. apply py_inverse_inv in EI, EJ. simpl.
  repeat split; intros E; rewrite E in *; done.
Qed.

Lemma warm_start_rounds_bfgs_ok s :
  self_I s <> [] -> self_J s <> [] -> BFGS.warm_start_rounds s = Py.Ok 2%nat.
Proof.
  intros HI HJ. unfold BFGS.warm_start_rounds, BFGS.warm_start_call.
  rewrite py_inverse_ok by (by destruct (self_I s)). simpl.
  rewrite py_inverse_ok by (by destruct (self_J s)). simpl.
  by rewrite sinkhorn_loop_rounds.
Qed.

Lemma warm_start_rounds_new_ok s :
  self_I s <> [] -> self_J s <> [] -> NewFormulation.warm_start_rounds s = Py.Ok 9%nat.
Proof.
  intros HI HJ. unfold NewFormulation.warm_start_rounds, NewFormulation.warm_start_call.
  rewrite py_inverse_ok by (by destruct (self_I s)). simpl.
  rewrite py_inverse_ok by (by destruct (self_J s)). simpl.
  by rewrite sinkhorn_loop_same, sinkhorn_loop_rounds.
Qed.

End WarmStartCalls.

(** C6, as amended.  [restricted_sinkhorn] called with [max_iter] runs
    [max_iter - 1] rounds (none when [max_iter <= 1]), whatever the object
    and the arrays; each round first sets
    [v <- b_J / (fact_scale . (K_IJ^T . u + cst_v))] from the current [u]
    and then [u <- (fact_scale . a_I) / (K_IJ . v + cst_u)] from the new
    [v]; [lbfgsb] calls it with [max_iter = 3] in [screenkhornBFGS.py],
    which is 2 rounds, and with [max_iter = 10] in [new_formulation.py],
    which is 9 rounds. *)
Theorem warm_start_round_count s usc vsc max_iter (h : heap) :
  let fr := BFGS.sinkhorn_loop s usc vsc max_iter h in
  NewFormulation.sinkhorn_loop s usc vsc max_iter h = fr /\
  fr_rounds fr = Z.to_nat (max_iter - 1) /\
  contents fr = Nat.iter (fr_rounds fr) (Spec.round s) (deref h usc, deref h vsc) /\
  (forall r, BFGS.warm_start_call s = Py.Ok r -> r.2 = 3%Z) /\
  (forall k, BFGS.warm_start_rounds s = Py.Ok k -> k = 2%nat) /\
  (forall r, NewFormulation.warm_start_call s = Py.Ok r -> r.2 = 10%Z) /\
  (forall k, NewFormulation.warm_start_rounds s = Py.Ok k -> k = 9%nat).
Proof.
  simpl. split; [done|]. split; [apply sinkhorn_loop_rounds|]. split.
  - rewrite sinkhorn_loop_rounds, sinkhorn_loop_iter. apply iter_turn_contents.
  - split; [intros r Hr; by apply warm_start_call_bfgs in Hr as [? _]|].
    split; [apply warm_start_rounds_bfgs|].
    split; [intros r Hr; by apply warm_start_call_new in Hr as [? _]|].
    apply warm_start_rounds_new.
Qed.

(** C6 fails as stated: on the worked input the warm start of
    [screenkhornBFGS.py] runs 2 rounds, which is not between 3 and 10. *)
Lemma warm_start_of_bfgs_runs_two_rounds :
  BFGS.__init__ ex_a ex_b ex_C (Fin 1) 2 2 = Py.Ok ex_bfgs /\
  BFGS.warm_start_rounds ex_bfgs = Py.Ok 2%nat /\
  ~ (3 <= 2 <= 10)%nat.
Proof.
  split; [apply ex_bfgs_init|]. split; [|lia].
  by apply warm_start_rounds_bfgs_ok.
Qed.

Lemma warm_start_round_count_witness :
  BFGS.warm_start_rounds ex_bfgs = Py.Ok 2%nat /\
  NewFormulation.warm_start_rounds ex_new = Py.Ok 9%nat /\
  fr_rounds (BFGS.sinkhorn_loop ex_bfgs 0%nat 1%nat 3 ∅) = 2%nat.
Proof.
  split; [by apply warm_start_rounds_bfgs_ok|].
  split; [by apply warm_start_rounds_new_ok|].
  exact (proj1 (proj2 (warm_start_round_count ex_bfgs 0%nat 1%nat 3 ∅))).
Defined.

(** C10.  [_projection] writes the clamp into the array it is given and
    returns that array; [restricted_sinkhorn] called with [max_iter = 1]
    runs no round, allocates nothing and returns the arrays [usc] and [vsc]
    of the caller, whose coordinates at or below the thresholds have been
    overwritten in place. *)
Theorem projection_in_place s usc vsc u eps (h : heap) :
  (_projection u eps h).2 = u /\
  dom (_projection u eps h).1 = dom h /\
  (forall l, (_projection u eps h).1 !! l =
             if decide (u = l) then clamp eps <$> h !! u else h !! l) /\
  (forall x i, clamp eps x !! i =
               (fun xi => if fle xi eps then eps else xi) <$> x !! i) /\
  let r := BFGS.restricted_sinkhorn s usc vsc 1 h in
  let tu := fdiv (self_epsilon s) (self_fact_scale s) in
  let tv := fmul (self_epsilon s) (self_fact_scale s) in
  NewFormulation.restricted_sinkhorn s usc vsc 1 h = r /\
  fr_rounds (BFGS.sinkhorn_loop s usc vsc 1 h) = 0%nat /\
  r.2 = (usc, vsc) /\
  r.1 = alter (clamp tv) vsc (alter (clamp tu) usc h) /\
  dom r.1 = dom h.
Proof.
  split; [done|]. split; [apply dom_alter_L|].
  split; [intros l; apply lookup_alter|].
  split; [intros x i; apply clamp_lookup|].
  simpl. split; [done|].
  unfold BFGS.restricted_sinkhorn. rewrite sinkhorn_loop_one. simpl.
  repeat split. by rewrite !dom_alter_L.
Qed.

(** With [max_iter >= 2] the arrays returned are new ones and the arrays of
    the caller are left as they were. *)
Lemma restricted_sinkhorn_fresh s usc vsc max_iter (h : heap) :
  (2 <= max_iter)%Z ->
  let r := BFGS.restricted_sinkhorn s usc vsc max_iter h in
  (r.2.1 ∉ dom h) /\ (r.2.2 ∉ dom h) /\
  forall l, l ∈ dom h -> r.1 !! l = h !! l.
Proof.
  intros Hm. cbv zeta. unfold BFGS.restricted_sinkhorn, _projection.
  rewrite sinkhorn_loop_iter.
  destruct (Z.to_nat (max_iter - 1)) as [|k] eqn:E; [lia|]. rewrite Nat.iter_succ.
  set (fr := Nat.iter k (turn (BFGS.round s)) (Frame h 1 usc vsc 0)).
  assert (Hext : (forall l, l ∈ dom h -> fr_heap fr !! l = h !! l) /\
                 dom h ⊆ dom (fr_heap fr)).
  { subst fr. clear E. induction k as [|k [IH1 IH2]]; [done|]. rewrite Nat.iter_succ.
    set (fr := Nat.iter k (turn (BFGS.round s)) (Frame h 1 usc vsc 0)) in *.
    destruct (round_store s fr) as (_ & _ & _ & _ & _ & Hd & Hl & _).
    change (fr_heap (turn (BFGS.round s) fr)) with (fr_heap (BFGS.round s fr)).
    split.
    - intros l Hl'. rewrite Hl by set_solver. by apply IH1.
    - rewrite Hd. set_solver. }
  destruct Hext as [Hext Hsub].
  destruct (round_store s fr) as (Hu & Hv & _ & _ & _ & _ & Hl & _).
  change (fr_heap (turn (BFGS.round s) fr)) with (fr_heap (BFGS.round s fr)).
  change (fr_usc (turn (BFGS.round s) fr)) with (fr_usc (BFGS.round s fr)).
  change (fr_vsc (turn (BFGS.round s) fr)) with (fr_vsc (BFGS.round s fr)).
  cbn [fst snd].
  split; [set_solver|]. split; [set_solver|].
  intros l Hl'. rewrite !lookup_alter.
  rewrite !decide_False by (intros <-; set_solver).
  rewrite Hl by set_solver. by apply Hext.
Qed.

(** ** Plan reconstruction *)

Section Reconstruction.

Lemma assign_index_cons x i idx yi y :
  assign_index x (i :: idx) (yi :: y) = assign_index (<[i := yi]> x) idx y.
Proof. reflexivity. Qed.

Lemma assign_index_length x idx y : length (assign_index x idx y) = length x.
Proof.
  revert x y. induction idx as [|i idx IH]; intros x y; [done|].
  destruct y as [|yi y]; [done|]. rewrite assign_index_cons, IH. apply length_insert.
Qed.

Lemma assign_index_other x idx y i :
  i ∉ idx -> assign_index x idx y !! i = x !! i.
Proof.
  revert x y. induction idx as [|i0 idx IH]; intros x y Hi; [done|].
  destruct y as [|yi y]; [done|]. rewrite assign_index_cons.
  apply not_elem_of_cons in Hi as [Hne Hi].
  rewrite IH by done. by apply list_lookup_insert_ne.
Qed.

Lemma assign_index_at x idx y k i v :
  NoDup idx -> (forall j, j ∈ idx -> (j < length x)%nat) ->
  idx !! k = Some i -> y !! k = Some v ->
  assign_index x idx y !! i = Some v.
Proof.
  revert x y k. induction idx as [|i0 idx IH]; intros x y k Hnd Hlt Hk Hv; [done|].
  destruct y as [|yi y]; [by destruct k|]. rewrite assign_index_cons.
  apply NoDup_cons in Hnd as [Hi0 Hnd].
  destruct k as [|k]; simpl in Hk, Hv.
  - injection Hk as ->. injection Hv as ->.
    rewrite assign_index_other by done.
    apply list_lookup_insert_eq. apply Hlt. apply list_elem_of_here.
  - apply (IH _ _ k); try done.
    intros j Hj. rewrite length_insert. apply Hlt. by apply list_elem_of_further.
Qed.

Lemma assemble_shape_ok a b C reg N M verbose uniform K sel :
  shape_ok (assemble a b C reg N M verbose uniform K sel).
Proof.
  unfold shape_ok, assemble.
  cbn [self_a_I self_b_J self_K_IJ self_cst_u self_cst_v self_I self_J].
  split; [apply index_length|]. split; [apply index_length|].
  split; [apply ix_nrows|]. split; [done|].
  destruct (negb (N =? nrows C)%nat || negb (M =? ncols C)%nat); cbn [fst snd].
  - split.
    + intros x [= <-]. unfold sum_axis1. rewrite !length_map. apply ix_nrows.
    + intros y [= <-]. unfold sum_axis0. by rewrite !length_map, length_seq.
  - split; by intros.
Qed.

Lemma add_operand_length x c n :
  length x = n -> (forall y, c = Array y -> length y = n) ->
  length (add_operand x c) = n.
Proof.
  intros Hx Hc. destruct c as [c|y]; simpl.
  - by rewrite length_map.
  - rewrite length_zip_with, (Hc y eq_refl). lia.
Qed.

Lemma round_lengths s uv :
  shape_ok s ->
  length (Spec.round s uv).1 = length (self_I s) /\
  length (Spec.round s uv).2 = length (self_J s).
Proof.
  intros (Ha & Hb & Hn & Hm & Hcu & Hcv).
  assert (Hv : length (Spec.v_update s uv.1) = length (self_J s)).
  { unfold Spec.v_update. rewrite length_zip_with, length_map.
    rewrite (add_operand_length _ _ (length (self_J s))); [lia | | done].
    by rewrite matvec_length, transpose_nrows. }
  split; [|exact Hv]. unfold Spec.round. cbn [fst].
  unfold Spec.u_update. rewrite length_zip_with, length_map.
  rewrite (add_operand_length _ _ (length (self_I s))); [lia | | done].
  by rewrite matvec_length.
Qed.

(** After at least one round the arrays returned by [restricted_sinkhorn]
    have the lengths of the active sets. *)
Lemma restricted_sinkhorn_lengths s usc vsc max_iter (h : heap) :
  (2 <= max_iter)%Z -> shape_ok s ->
  let r := BFGS.restricted_sinkhorn s usc vsc max_iter h in
  length (deref r.1 r.2.1) = length (self_I s) /\
  length (deref r.1 r.2.2) = length (self_J s).
Proof.
  intros Hm Hs. cbv zeta. unfold BFGS.restricted_sinkhorn, _projection.
  rewrite sinkhorn_loop_iter.
  destruct (Z.to_nat (max_iter - 1)) as [|k] eqn:E; [lia|]. rewrite Nat.iter_succ.
  set (fr := Nat.iter k (turn (BFGS.round s)) (Frame h 1 usc vsc 0)).
  destruct (round_store s fr) as (_ & _ & Hu & Hv & Hne & _ & _ & Hc).
  destruct (round_lengths s (contents fr) Hs) as [Lu Lv].
  rewrite <- Hc in Lu, Lv. unfold contents in Lu, Lv. cbn [fst snd] in Lu, Lv.
  change (fr_heap (turn (BFGS.round s) fr)) with (fr_heap (BFGS.round s fr)).
  change (fr_usc (turn (BFGS.round s) fr)) with (fr_usc (BFGS.round s fr)).
  change (fr_vsc (turn (BFGS.round s) fr)) with (fr_vsc (BFGS.round s fr)).
  cbn [fst snd]. rewrite !deref_alter, ?dom_alter_L.
  repeat case_decide; rewrite ?clamp_length; try done; congruence.
Qed.

End Reconstruction.

Section Plan.
Context {info : Type}.

Lemma reconstruct_plan s (theta : vec) (d : info) :
  NoDup (self_I s) -> NoDup (self_J s) ->
  (forall i, i ∈ self_I s -> (i < nrows (self_C s))%nat) ->
  (forall j, j ∈ self_J s -> (j < ncols (self_C s))%nat) ->
  nrows (self_K s) = nrows (self_C s) -> ncols (self_K s) = ncols (self_C s) ->
  wf_matrix (self_K s) ->
  length theta = (length (self_I s) + length (self_J s))%nat ->
  plan_of s theta (reconstruct s theta d).1.1.1 (reconstruct s theta d).1.1.2
          (reconstruct s theta d).1.2 /\
  (reconstruct s theta d).2 = d.
Proof.
  intros NI NJ RI RJ Hn Hm Hwf Hth. split; [|done].
  unfold reconstruct, plan_of. cbn [fst snd].
  set (tu := fdiv (self_epsilon s) (self_fact_scale s)).
  set (tv := fmul (self_epsilon s) (self_fact_scale s)).
  set (uf := assign_index (full (nrows (self_C s)) tu) (self_I s)
               (take (length (self_I s)) theta)).
  set (vf := assign_index (full (ncols (self_C s)) tv) (self_J s)
               (drop (length (self_I s)) theta)).
  assert (Luf : length uf = nrows (self_C s)).
  { subst uf. rewrite assign_index_length. apply length_replicate. }
  assert (Lvf : length vf = ncols (self_C s)).
  { subst vf. rewrite assign_index_length. apply length_replicate. }
  split; [exact Luf|]. split; [exact Lvf|]. split; [|split; [|split; [|split]]].
  - intros k i Hk. pose proof (lookup_lt_Some _ _ _ Hk) as Hlt.
    destruct (lookup_lt_is_Some_2 theta k) as [v Hv]; [lia|].
    rewrite Hv. subst uf. apply (assign_index_at _ _ _ k); try done.
    + intros j Hj. unfold full. rewrite length_replicate. by apply RI.
    + by rewrite lookup_take_lt.
  - intros i Hi Hni. subst uf. rewrite assign_index_other by done.
    by apply lookup_replicate_2.
  - intros k j Hk. pose proof (lookup_lt_Some _ _ _ Hk) as Hlt.
    destruct (lookup_lt_is_Some_2 theta (length (self_I s) + k)) as [v Hv]; [lia|].
    rewrite Hv. subst vf. apply (assign_index_at _ _ _ k); try done.
    + intros j' Hj. unfold full. rewrite length_replicate. by apply RJ.
    + by rewrite lookup_drop.
  - intros j Hj Hnj. subst vf. rewrite assign_index_other by done.
    by apply lookup_replicate_2.
  - split.
    + unfold scale_rows_cols, mul_row, mul_col, nrows in *. cbn [rows].
      rewrite length_map, length_zip_with. lia.
    + split; [exact Hm|].
      intros i j Hi Hj.
      destruct (lookup_lt_is_Some_2 uf i) as [ui Hui]; [lia|].
      destruct (lookup_lt_is_Some_2 vf j) as [vj Hvj]; [lia|].
      destruct (lookup_lt_is_Some_2 (rows (self_K s)) i) as [row Hrow].
      { fold (nrows (self_K s)). lia. }
      assert (Lrow : length row = ncols (self_K s)).
      { unfold wf_matrix in Hwf. rewrite Forall_forall in Hwf. apply Hwf.
        by eapply list_elem_of_lookup_2. }
      destruct (lookup_lt_is_Some_2 row j) as [kij Hkij]; [lia|].
      exists ui, row, kij, vj, (zip_with fmul (map (fmul ui) row) vf).
      do 4 (split; [done|]).
      unfold scale_rows_cols, mul_row, mul_col. cbn [rows]. split.
      * rewrite list_lookup_fmap, lookup_zip_with, Hui, Hrow. done.
      * rewrite lookup_zip_with, list_lookup_fmap, Hkij, Hvj. done.
Qed.

Lemma lbfgsb_bfgs_unfold (opt : fmin_args -> vec * num * info) s :
  shape_ok s -> self_I s <> [] -> self_J s <> [] ->
  exists args,
    BFGS.lbfgsb opt s = Py.Ok (reconstruct s (opt args).1.1 (opt args).2) /\
    arg_func args = _bfgspost s /\
    arg_bounds args = self_bounds_u s ++ self_bounds_v s /\
    length (arg_x0 args) = (length (self_I s) + length (self_J s))%nat.
Proof.
  intros Hs HI HJ. unfold BFGS.lbfgsb, BFGS.warm_start, BFGS.warm_start_call.
  rewrite py_inverse_ok by (by destruct (self_I s)). cbn [Py.bind].
  destruct (alloc ∅ _) as [h0 u0]. cbn [Py.bind].
  rewrite py_inverse_ok by (by destruct (self_J s)). cbn [Py.bind].
  destruct (alloc h0 _) as [h1 v0]. cbn [Py.bind].
  destruct (restricted_sinkhorn_lengths s u0 v0 3 h1 ltac:(lia) Hs) as [Lu Lv].
  destruct (BFGS.restricted_sinkhorn s u0 v0 3 h1) as [h2 [u v]].
  cbn [fst snd] in Lu, Lv.
  match goal with
  | |- context [opt ?a] => exists a; destruct (opt a) as [[theta f] d]
  end.
  cbn [fst snd arg_func arg_bounds arg_x0]. rewrite length_app, Lu, Lv. done.
Qed.

Lemma lbfgsb_new_unfold (opt : fmin_args -> vec * num * info) s :
  shape_ok s -> self_I s <> [] -> self_J s <> [] ->
  exists args,
    NewFormulation.lbfgsb opt s = Py.Ok (reconstruct s (opt args).1.1 (opt args).2) /\
    arg_func args = _bfgspost s /\
    arg_bounds args = self_bounds_u s ++ self_bounds_v s /\
    length (arg_x0 args) = (length (self_I s) + length (self_J s))%nat.
Proof.
  intros Hs HI HJ.
  unfold NewFormulation.lbfgsb, NewFormulation.warm_start, NewFormulation.warm_start_call.
  rewrite py_inverse_ok by (by destruct (self_I s)). cbn [Py.bind].
  destruct (alloc ∅ _) as [h0 u0]. cbn [Py.bind].
  rewrite py_inverse_ok by (by destruct (self_J s)). cbn [Py.bind].
  destruct (alloc h0 _) as [h1 v0]. cbn [Py.bind].
  rewrite restricted_sinkhorn_same.
  destruct (restricted_sinkhorn_lengths s u0 v0 10 h1 ltac:(lia) Hs) as [Lu Lv].
  destruct (BFGS.restricted_sinkhorn s u0 v0 10 h1) as [h2 [u v]].
  cbn [fst snd] in Lu, Lv.
  match goal with
  | |- context [opt ?a] => exists a; destruct (opt a) as [[theta f] d]
  end.
  cbn [fst snd arg_func arg_bounds arg_x0]. rewrite length_app, Lu, Lv. done.
Qed.

End Plan.

Section ConstructedFacts.

Lemma constructed_fields a b C reg N M s :
  wf_matrix C ->
  constructed a b C reg N M s ->
  self_C s = C /\ shape_ok s /\
  nrows (self_K s) = nrows C /\ ncols (self_K s) = ncols C /\
  wf_matrix (self_K s).
Proof.
  intros Hwf H. apply constructed_inv in H
    as (verbose & uniform & K & sel & -> & HK & Hn & Hm & _).
  split; [done|]. split; [apply assemble_shape_ok|].
  split; [done|]. split; [done|].
  destruct HK as [-> | ->]; by apply map_matrix_wf.
Qed.

Lemma constructed_nonempty a b C reg N M s :
  (0 < nrows C)%nat -> (0 < ncols C)%nat ->
  constructed a b C reg N M s ->
  self_I s <> [] /\ self_J s <> [].
Proof.
  intros Hn Hm H.
  destruct (mode_cases C N M) as [(_ & -> & ->) | (_ & Hs)].
  - apply constructed_inv in H as (? & ? & K & sel & -> & _ & _ & _ & H).
    destruct H as [(_ & _ & ->) | (Hs & _)]; [|exfalso; by apply Hs].
    simpl. split.
    + destruct (nrows C); [lia | done].
    + destruct (ncols C); [lia | done].
  - by destruct (constructed_screening _ _ _ _ _ _ _ Hs H) as (_ & _ & _ & ? & ?).
Qed.

End ConstructedFacts.

(** C8.  For an object returned by a constructor on an input with at least
    one source and one target, and an optimizer that returns a point of the
    dimension of its starting point, [lbfgsb] returns: [u_full] of length
    [n] holding [epsilon / fact_scale] outside [I] and the optimizer's
    values at the positions listed in [I]; [v_full] of length [m] holding
    [epsilon . fact_scale] outside [J] and the optimizer's values at the
    positions listed in [J]; the [n] by [m] plan
    [P[i,j] = u_full[i] . K[i,j] . v_full[j]]; and the diagnostics of the
    optimizer.  Both source files. *)
Theorem plan_reconstruction {info : Type} (opt : fmin_args -> vec * num * info)
    a b C reg N M s :
  valid_shape a b C ->
  (0 < nrows C)%nat -> (0 < ncols C)%nat ->
  constructed a b C reg N M s ->
  (forall args, length (opt args).1.1 = length (arg_x0 args)) ->
  (exists args,
     let theta := (opt args).1.1 in
     let r := reconstruct s theta (opt args).2 in
     BFGS.lbfgsb opt s = Py.Ok r /\
     arg_func args = _bfgspost s /\
     arg_bounds args = self_bounds_u s ++ self_bounds_v s /\
     plan_of s theta r.1.1.1 r.1.1.2 r.1.2 /\ r.2 = (opt args).2) /\
  (exists args,
     let theta := (opt args).1.1 in
     let r := reconstruct s theta (opt args).2 in
     NewFormulation.lbfgsb opt s = Py.Ok r /\
     arg_func args = _bfgspost s /\
     arg_bounds args = self_bounds_u s ++ self_bounds_v s /\
     plan_of s theta r.1.1.1 r.1.1.2 r.1.2 /\ r.2 = (opt args).2).
Proof.
  intros (HwfC & _ & _) Hn Hm Hc Hopt.
  destruct (constructed_fields _ _ _ _ _ _ _ HwfC Hc) as (HC & Hs & HKn & HKm & HwfK).
  destruct (constructed_nonempty _ _ _ _ _ _ _ Hn Hm Hc) as [HI HJ].
  destruct (selection_I_range _ _ _ _ _ _ _ Hc) as (RI & RJ & NI & NJ).
  rewrite <- HC in RI, RJ, HKn, HKm.
  split.
  - destruct (lbfgsb_bfgs_unfold opt s Hs HI HJ) as (args & E & Ef & Eb & Lx).
    exists args. cbv zeta. split; [exact E|]. split; [exact Ef|]. split; [exact Eb|].
    apply reconstruct_plan; try done. by rewrite Hopt.
  - destruct (lbfgsb_new_unfold opt s Hs HI HJ) as (args & E & Ef & Eb & Lx).
    exists args. cbv zeta. split; [exact E|]. split; [exact Ef|]. split; [exact Eb|].
    apply reconstruct_plan; try done. by rewrite Hopt.
Qed.

Lemma plan_reconstruction_witness :
  exists args,
    BFGS.lbfgsb ex_optimizer ex_bfgs =
      Py.Ok (reconstruct ex_bfgs (ex_optimizer args).1.1 (ex_optimizer args).2) /\
    arg_func args = _bfgspost ex_bfgs.
Proof.
  destruct (plan_reconstruction ex_optimizer ex_a ex_b ex_C (Fin 1) 2 2 ex_bfgs
              ex_valid_shape) as [(args & E & Ef & _) _].
  - unfold nrows, ex_C. simpl. lia.
  - unfold ex_C. simpl. lia.
  - exact ex_bfgs_constructed.
  - intros args. reflexivity.
  - exists args. split; [exact E | exact Ef].
Defined.

Lemma full_mode_equivalence_witness :
  (exists s, BFGS.__init__ exf_a exf_b exf_C (Fin 1) 2 2 = Py.Ok s) /\
  forall s, constructed exf_a exf_b exf_C (Fin 1) 2 2 s ->
    self_I s = [0; 1]%nat /\ self_epsilon s = Fin 0 /\ self_fact_scale s = Fin 1.
Proof.
  assert (Hshape : valid_shape exf_a exf_b exf_C).
  { repeat split. unfold wf_matrix, exf_C. simpl. by repeat constructor. }
  destruct (full_mode_equivalence exf_a exf_b exf_C (Fin 1) Hshape) as (Hb & _ & Hall).
  split; [exact Hb|].
  intros s Hs. destruct (Hall s Hs) as (HI & _ & He & Hf & _).
  split; [exact HI|]. split; [exact He | exact Hf].
Defined.

Section WorkedWarmStart.

Lemma ex_complement_I : complement 2 [0; 1]%nat = [].
Proof. vm_compute. reflexivity. Qed.

Lemma ex_complement_J : complement 3 [0; 1]%nat = [2]%nat.
Proof. vm_compute. reflexivity. Qed.

Lemma ex_round_numbers :
  exists u1 u2 v1 v2 : R,
    Spec.round ex_bfgs ([Fin 1; Fin 1], [Fin 1; Fin 1]) = ([Fin u1; Fin u2], [Fin v1; Fin v2]).
Proof.
  unfold Spec.round, Spec.u_update, Spec.v_update, ex_bfgs, assemble.
  cbn [self_b_J self_a_I self_fact_scale self_K_IJ self_cst_u self_cst_v ex_sel_bfgs
       sel_I sel_J sel_epsilon sel_fact_scale fst snd nrows ncols ex_C rows length
       Nat.eqb negb orb].
  rewrite ex_complement_I, ex_complement_J.
  unfold ex_a, ex_b, ex_K. simpl. decide_R. simpl. decide_R. simpl. decide_R.
  do 4 eexists. reflexivity.
Qed.

Lemma ex_heap_usc : deref ex_heap 0%nat = [Fin 1; Fin 1].
Proof.
  unfold deref, ex_heap.
  rewrite lookup_total_insert_ne by done. by rewrite lookup_total_insert_eq.
Qed.

Lemma ex_heap_vsc : deref ex_heap 1%nat = [Fin 1; Fin 1].
Proof. unfold deref, ex_heap. by rewrite lookup_total_insert_eq. Qed.

End WorkedWarmStart.

Lemma warm_start_feasibility_witness :
  let r := BFGS.restricted_sinkhorn ex_bfgs 0%nat 1%nat 2 ex_heap in
  Forall (fun x => fge x (fdiv (self_epsilon ex_bfgs) (self_fact_scale ex_bfgs)) = true)
         (deref r.1 r.2.1) /\
  Forall (fun x => fge x (fmul (self_epsilon ex_bfgs) (self_fact_scale ex_bfgs)) = true)
         (deref r.1 r.2.2).
Proof.
  apply (warm_start_feasibility ex_a ex_b ex_C (Fin 1) 2 2 ex_bfgs 0%nat 1%nat 2 ex_heap
           ex_bfgs_constructed).
  - rewrite ex_heap_usc. by repeat constructor.
  - rewrite ex_heap_vsc. by repeat constructor.
  - intros k Hk. assert (k = 1%nat) as -> by lia.
    rewrite ex_heap_usc, ex_heap_vsc.
    destruct ex_round_numbers as (u1 & u2 & v1 & v2 & E).
    change (Nat.iter 1 (Spec.round ex_bfgs) ([Fin 1; Fin 1], [Fin 1; Fin 1]))
      with (Spec.round ex_bfgs ([Fin 1; Fin 1], [Fin 1; Fin 1])).
    rewrite E. split; by repeat constructor.
Defined.

(** * Further properties of the code *)

(** ** The exceptions of the constructors *)

Section ConstructorExceptions.

Lemma min_empty K : concat (rows K) = [] -> Np.min K = Py.Raise Py.ValueError.
Proof. unfold Np.min. by intros ->. Qed.

Lemma min_nonempty K : concat (rows K) <> [] -> exists k, Np.min K = Py.Ok k.
Proof. unfold Np.min. destruct (concat (rows K)); [done | by eexists]. Qed.

Lemma concat_map_matrix f C : concat (rows (map_matrix f C)) = map f (concat (rows C)).
Proof.
  unfold map_matrix. cbn [rows]. induction (rows C) as [|r l IH]; [done|].
  simpl. by rewrite IH, map_app.
Qed.

Lemma map_matrix_entries f C : concat (rows (map_matrix f C)) = [] <-> concat (rows C) = [].
Proof.
  rewrite concat_map_matrix. split; [apply fmap_nil_inv | by intros ->].
Qed.

Lemma kernel_bfgs_entries C reg :
  concat (rows (BFGS.kernel C reg)) = [] <-> concat (rows C) = [].
Proof. apply map_matrix_entries. Qed.

Lemma kernel_new_entries C reg :
  concat (rows (NewFormulation.kernel C reg)) = [] <-> concat (rows C) = [].
Proof. apply map_matrix_entries. Qed.

Lemma get_last_index_nil x : get_last (index x []) = Py.Raise Py.IndexError.
Proof. done. Qed.

Lemma get_first_index_nil x : get_first (index x []) = Py.Raise Py.IndexError.
Proof. done. Qed.

Lemma get_first_index_ok x idx : idx <> [] -> exists y, get_first (index x idx) = Py.Ok y.
Proof. destruct idx; [done|]. intros _. by eexists. Qed.

Lemma get_last_index_ok x idx : idx <> [] -> exists y, get_last (index x idx) = Py.Ok y.
Proof.
  intros H. unfold get_last.
  destruct (last (index x idx)) eqn:E; [by eexists|].
  apply last_None in E. apply (f_equal length) in E.
  rewrite index_length in E. by destruct idx.
Qed.

Lemma bounds_u_pair_raises a_sort b_sort I J eps fs n m K_min :
  I = [] \/ J = [] ->
  bounds_u_pair a_sort b_sort I J eps fs n m K_min = Py.Raise Py.IndexError.
Proof.
  unfold bounds_u_pair. destruct (decide (I = [])) as [-> | HI]; [done|].
  intros [-> | ->]; [done|].
  destruct (get_last_index_ok a_sort I HI) as [y ->]. done.
Qed.

Lemma bounds_u_pair_returns a_sort b_sort I J eps fs n m K_min :
  I <> [] -> J <> [] ->
  exists bu, bounds_u_pair a_sort b_sort I J eps fs n m K_min = Py.Ok bu.
Proof.
  intros HI HJ. unfold bounds_u_pair.
  destruct (get_last_index_ok a_sort I HI) as [y ->].
  destruct (get_first_index_ok b_sort J HJ) as [z ->].
  destruct (get_first_index_ok a_sort I HI) as [w ->]. by eexists.
Qed.

Lemma bounds_v_pair_returns a_sort b_sort I J eps fs n m K_min :
  I <> [] -> J <> [] ->
  exists bv, bounds_v_pair a_sort b_sort I J eps fs n m K_min = Py.Ok bv.
Proof.
  intros HI HJ. unfold bounds_v_pair.
  destruct (get_last_index_ok b_sort J HJ) as [y ->].
  destruct (get_first_index_ok a_sort I HI) as [z ->].
  destruct (get_first_index_ok b_sort J HJ) as [w ->]. by eexists.
Qed.

Lemma bfgs_screening_outcome a b K N M n m :
  (concat (rows K) = [] ->
     BFGS.screening_mode a b K N M n m = Py.Raise Py.ValueError) /\
  (concat (rows K) <> [] ->
     (selected_I a b K N M = [] \/ selected_J a b K N M = [] ->
        BFGS.screening_mode a b K N M n m = Py.Raise Py.IndexError) /\
     (selected_I a b K N M <> [] -> selected_J a b K N M <> [] ->
        exists sel, BFGS.screening_mode a b K N M n m = Py.Ok sel)).
Proof.
  unfold BFGS.screening_mode. split.
  - intros H. by rewrite min_empty.
  - intros H. destruct (min_nonempty K H) as [k ->]. cbn [Py.bind]. split.
    + intros HIJ. by rewrite bounds_u_pair_raises.
    + intros HI HJ.
      edestruct bounds_u_pair_returns as [bu ->]; [exact HI | exact HJ |].
      edestruct bounds_v_pair_returns as [bv ->]; [exact HI | exact HJ |].
      by eexists.
Qed.

Lemma new_screening_outcome a b K N M n m uniform :
  (concat (rows K) = [] ->
     NewFormulation.screening_mode a b K N M n m uniform = Py.Raise Py.ValueError) /\
  (concat (rows K) <> [] ->
     (selected_I a b K N M = [] \/ selected_J a b K N M = [] ->
        NewFormulation.screening_mode a b K N M n m uniform = Py.Raise Py.IndexError) /\
     (selected_I a b K N M <> [] -> selected_J a b K N M <> [] ->
        exists sel, NewFormulation.screening_mode a b K N M n m uniform = Py.Ok sel)).
Proof.
  unfold NewFormulation.screening_mode. split.
  - intros H. by rewrite min_empty.
  - intros H. destruct (min_nonempty K H) as [k ->]. cbn [Py.bind].
    destruct (if negb uniform then _ else _) as [a_sort b_sort]. split.
    + intros HIJ. by rewrite bounds_u_pair_raises.
    + intros HI HJ.
      edestruct bounds_u_pair_returns as [bu ->]; [exact HI | exact HJ |].
      edestruct bounds_v_pair_returns as [bv ->]; [exact HI | exact HJ |].
      by eexists.
Qed.

End ConstructorExceptions.

(** X1.  What the constructors raise in screening mode on an input of
    valid shape, in both files.  On a cost matrix without entries
    [self.K.min()] raises [ValueError].  Otherwise, when the thresholds
    leave [I] or [J] empty, building the box raises [IndexError] (at
    [a_sort[self.I][-1]] or [b_sort[self.J][0]]); and when both are
    non-empty the constructor returns an object. *)
Theorem constructor_exceptions a b C reg N M :
  valid_shape a b C ->
  screening C N M ->
  let Kb := BFGS.kernel C reg in
  let Kn := NewFormulation.kernel C reg in
  (concat (rows C) = [] ->
     BFGS.__init__ a b C reg N M = Py.Raise Py.ValueError /\
     forall verbose uniform,
       NewFormulation.__init__ a b C reg N M verbose uniform = Py.Raise Py.ValueError) /\
  (concat (rows C) <> [] ->
     (selected_I a b Kb N M = [] \/ selected_J a b Kb N M = [] ->
        BFGS.__init__ a b C reg N M = Py.Raise Py.IndexError) /\
     (selected_I a b Kb N M <> [] -> selected_J a b Kb N M <> [] ->
        exists s, BFGS.__init__ a b C reg N M = Py.Ok s) /\
     (selected_I a b Kn N M = [] \/ selected_J a b Kn N M = [] ->
        forall verbose uniform,
          NewFormulation.__init__ a b C reg N M verbose uniform = Py.Raise Py.IndexError) /\
     (selected_I a b Kn N M <> [] -> selected_J a b Kn N M <> [] ->
        forall verbose uniform,
          exists s, NewFormulation.__init__ a b C reg N M verbose uniform = Py.Ok s)).
Proof.
  intros _ Hs. cbn zeta.
  destruct (mode_cases C N M) as [(_ & HN & HM) | (Hflag & _)]; [by destruct Hs|].
  unfold BFGS.__init__, NewFormulation.__init__. rewrite Hflag.
  pose proof (bfgs_screening_outcome a b (BFGS.kernel C reg) N M (nrows C) (ncols C))
    as [Be Bn].
  pose proof (new_screening_outcome a b (NewFormulation.kernel C reg) N M
                (nrows C) (ncols C)) as Hnew.
  rewrite kernel_bfgs_entries in Be, Bn.
  split.
  - intros H. split; [by rewrite Be|].
    intros verbose uniform. destruct (Hnew uniform) as [Ne _].
    rewrite kernel_new_entries in Ne.
    by rewrite Ne.
  - intros H. destruct (Bn H) as [Br Bo]. split; [|split; [|split]].
    + intros HIJ. by rewrite Br.
    + intros HI HJ. destruct (Bo HI HJ) as [sel ->]. by eexists.
    + intros HIJ verbose uniform. destruct (Hnew uniform) as [_ Nn].
      rewrite kernel_new_entries in Nn.
      destruct (Nn H) as [-> _]; done.
    + intros HI HJ verbose uniform. destruct (Hnew uniform) as [_ Nn].
      rewrite kernel_new_entries in Nn.
      destruct (Nn H) as [_ No]. destruct (No HI HJ) as [sel ->]. by eexists.
Qed.

Lemma constructor_exceptions_witness :
  BFGS.__init__ [] [] ex_empty_C (Fin 1) 1 1 = Py.Raise Py.ValueError.
Proof.
  refine (proj1 (proj1 (constructor_exceptions [] [] ex_empty_C (Fin 1) 1 1 _ _) _)).
  - repeat split. constructor.
  - unfold screening. simpl. lia.
  - reflexivity.
Defined.

(** ** The optimizer call of [lbfgsb] *)

Section LbfgsbCall.
Context {info : Type}.

Lemma py_inverse_zero : py_inverse 0 = Py.Raise Py.ZeroDivisionError.
Proof. done. Qed.

Lemma lbfgsb_raises (opt : fmin_args -> vec * num * info) s :
  self_I s = [] \/ self_J s = [] ->
  BFGS.lbfgsb opt s = Py.Raise Py.ZeroDivisionError /\
  NewFormulation.lbfgsb opt s = Py.Raise Py.ZeroDivisionError.
Proof.
  intros H.
  unfold BFGS.lbfgsb, BFGS.warm_start, BFGS.warm_start_call,
    NewFormulation.lbfgsb, NewFormulation.warm_start, NewFormulation.warm_start_call.
  destruct (decide (self_I s = [])) as [E | HI].
  { rewrite E. cbn [length]. rewrite py_inverse_zero. done. }
  destruct H as [E | E]; [done|].
  rewrite py_inverse_ok by (by destruct (self_I s)). cbn [Py.bind].
  destruct (alloc ∅ _) as [h0 u0]. cbn [Py.bind].
  rewrite E. cbn [length]. rewrite py_inverse_zero. done.
Qed.

Lemma lbfgsb_returns (opt : fmin_args -> vec * num * info) s :
  self_I s <> [] -> self_J s <> [] ->
  (exists r, BFGS.lbfgsb opt s = Py.Ok r) /\
  (exists r, NewFormulation.lbfgsb opt s = Py.Ok r).
Proof.
  intros HI HJ.
  unfold BFGS.lbfgsb, BFGS.warm_start, BFGS.warm_start_call,
    NewFormulation.lbfgsb, NewFormulation.warm_start, NewFormulation.warm_start_call.
  rewrite py_inverse_ok by (by destruct (self_I s)). cbn [Py.bind].
  destruct (alloc ∅ _) as [h0 u0]. cbn [Py.bind].
  rewrite py_inverse_ok by (by destruct (self_J s)). cbn [Py.bind].
  destruct (alloc h0 _) as [h1 v0]. cbn [Py.bind].
  split.
  - destruct (BFGS.restricted_sinkhorn s u0 v0 3 h1) as [h2 [u v]].
    match goal with |- context [opt ?a] => destruct (opt a) as [[theta f] d] end.
    by eexists.
  - destruct (NewFormulation.restricted_sinkhorn s u0 v0 10 h1) as [h2 [u v]].
    match goal with |- context [opt ?a] => destruct (opt a) as [[theta f] d] end.
    by eexists.
Qed.

Lemma constructed_empty_sets a b C reg N M s :
  constructed a b C reg N M s ->
  (nrows C = 0%nat -> self_I s = []) /\ (ncols C = 0%nat -> self_J s = []).
Proof.
  intros H. destruct (selection_I_range _ _ _ _ _ _ _ H) as (RI & RJ & _ & _).
  split; intros E.
  - destruct (self_I s) as [|i l]; [done|].
    specialize (RI i ltac:(by left)). lia.
  - destruct (self_J s) as [|j l]; [done|].
    specialize (RJ j ltac:(by left)). lia.
Qed.

End LbfgsbCall.

(** X2.  [lbfgsb] raises [ZeroDivisionError], at [1. / len(self.I)] or at
    [1. / len(self.J)], exactly on the objects with an empty [I] or an
    empty [J], whatever the optimizer is; in both files.  An object that a
    constructor has built on an input of valid shape has an empty [I] or
    [J] exactly when the cost matrix has no row or no column. *)
Theorem lbfgsb_division_by_zero {info : Type} (opt : fmin_args -> vec * num * info) s :
  (BFGS.lbfgsb opt s = Py.Raise Py.ZeroDivisionError <->
     self_I s = [] \/ self_J s = []) /\
  (NewFormulation.lbfgsb opt s = Py.Raise Py.ZeroDivisionError <->
     self_I s = [] \/ self_J s = []) /\
  (forall a b C reg N M, valid_shape a b C -> constructed a b C reg N M s ->
     (self_I s = [] \/ self_J s = []) <-> (nrows C = 0 \/ ncols C = 0)%nat).
Proof.
  assert (Hok : self_I s <> [] -> self_J s <> [] ->
    BFGS.lbfgsb opt s <> Py.Raise Py.ZeroDivisionError /\
    NewFormulation.lbfgsb opt s <> Py.Raise Py.ZeroDivisionError).
  { intros HI HJ. destruct (lbfgsb_returns opt s HI HJ) as [[r ->] [r' ->]]. done. }
  assert (Hdec : (self_I s = [] \/ self_J s = []) \/ (self_I s <> [] /\ self_J s <> [])).
  { destruct (self_I s), (self_J s); auto. }
  split; [|split].
  - split; [|by intros H; apply lbfgsb_raises].
    intros E. destruct Hdec as [H | [HI HJ]]; [done|].
    by destruct (Hok HI HJ) as [Hb _].
  - split; [|by intros H; apply lbfgsb_raises].
    intros E. destruct Hdec as [H | [HI HJ]]; [done|].
    by destruct (Hok HI HJ) as [_ Hn].
  - intros a b C reg N M _ H. split.
    + intros HIJ.
      destruct (decide (nrows C = 0%nat)) as [|Hn]; [by left|].
      destruct (decide (ncols C = 0%nat)) as [|Hm]; [by right|].
      destruct (constructed_nonempty a b C reg N M s) as [HI HJ]; [lia | lia | done |].
      by destruct HIJ.
    + destruct (constructed_empty_sets _ _ _ _ _ _ _ H) as [HI HJ].
      intros [E | E]; [left; by apply HI | right; by apply HJ].
Qed.

Lemma lbfgsb_division_by_zero_witness :
  BFGS.__init__ [] [] ex_empty_C (Fin 1) 0 0 =
    Py.Ok (assemble [] [] ex_empty_C (Fin 1) 0 0 None None
             (BFGS.kernel ex_empty_C (Fin 1)) (full_mode 0 0)) /\
  BFGS.lbfgsb ex_optimizer
    (assemble [] [] ex_empty_C (Fin 1) 0 0 None None
       (BFGS.kernel ex_empty_C (Fin 1)) (full_mode 0 0)) =
    Py.Raise Py.ZeroDivisionError.
Proof.
  split; [reflexivity|].
  refine (proj2 (proj1 (lbfgsb_division_by_zero ex_optimizer _)) _).
  left. reflexivity.
Defined.

(** ** [_bfgspost] *)

Section Bfgspost.

Lemma zip_with_length_eq {A B C} (f : A -> B -> C) x y k :
  length x = k -> length y = k -> length (zip_with f x y) = k.
Proof. intros. rewrite length_zip_with. lia. Qed.

Lemma sum_axis0_length A : length (sum_axis0 A) = ncols A.
Proof. unfold sum_axis0. by rewrite length_map, length_seq. Qed.

Lemma sum_axis1_length A : length (sum_axis1 A) = nrows A.
Proof. unfold sum_axis1. by rewrite length_map. Qed.

Lemma assemble_gradient_lengths a b C reg N M verbose uniform K sel u v :
  let s := assemble a b C reg N M verbose uniform K sel in
  length u = length (self_I s) -> length v = length (self_J s) ->
  length (grad_objective s u v).1 = length u /\
  length (grad_objective s u v).2 = length v.
Proof.
  cbn zeta. unfold grad_objective, assemble.
  cbn [self_I self_J self_K_IJ self_vec_eps_IJc self_vec_eps_IcJ self_a_I self_b_J
       self_fact_scale fst snd].
  intros Lu Lv.
  unfold matvec, transpose, sum_axis1, sum_axis0, mul_row, mul_col, ix_, index.
  cbn [rows ncols].
  rewrite !length_zip_with, !length_map, ?length_seq, ?length_map. lia.
Qed.

Lemma bfgspost_app s u v :
  length u = length (self_I s) ->
  _bfgspost s (u ++ v) =
    (objective s u v, (grad_objective s u v).1 ++ (grad_objective s u v).2).
Proof.
  intros Lu. unfold _bfgspost.
  rewrite <- Lu, take_app_length, drop_app_length.
  by destruct (grad_objective s u v).
Qed.

End Bfgspost.

(** X3.  For an object built by either constructor on an input of valid
    shape, [_bfgspost] applied to the stacked vector [hstack([u, v])],
    with [u] of length [len(self.I)] and [v] of length [len(self.J)],
    returns the objective at [(u, v)] and the stacked gradient
    [hstack([g_u, g_v])], where [g_u] has the length of [u] and [g_v] the
    length of [v]: the gradient handed to the optimizer has the dimension
    of its argument. *)
Theorem bfgspost_splits_and_stacks a b C reg N M s u v :
  valid_shape a b C ->
  constructed a b C reg N M s ->
  length u = length (self_I s) ->
  length v = length (self_J s) ->
  _bfgspost s (u ++ v) =
    (objective s u v, (grad_objective s u v).1 ++ (grad_objective s u v).2) /\
  length (grad_objective s u v).1 = length u /\
  length (grad_objective s u v).2 = length v /\
  length (_bfgspost s (u ++ v)).2 = length (u ++ v).
Proof.
  intros _ H Lu Lv.
  assert (G : length (grad_objective s u v).1 = length u /\
              length (grad_objective s u v).2 = length v).
  { apply constructed_inv in H as (vb & un & K & sel & -> & _).
    by apply assemble_gradient_lengths. }
  destruct G as [Gu Gv]. rewrite bfgspost_app by done.
  repeat split; try done.
  cbn [snd]. rewrite !length_app. lia.
Qed.

Lemma bfgspost_splits_and_stacks_witness :
  length (_bfgspost ex_bfgs ([Fin 1; Fin 1] ++ [Fin 1; Fin 1])).2 = 4%nat.
Proof.
  refine (proj2 (proj2 (proj2
    (bfgspost_splits_and_stacks ex_a ex_b ex_C (Fin 1) 2 2 ex_bfgs
       [Fin 1; Fin 1] [Fin 1; Fin 1] ex_valid_shape ex_bfgs_constructed _ _)))).
  - reflexivity.
  - reflexivity.
Defined.

Section CallDimensions.
Context {info : Type}.

Lemma constructed_bounds_lengths a b C reg N M s :
  constructed a b C reg N M s ->
  length (self_bounds_u s) = length (self_I s) /\
  length (self_bounds_v s) = length (self_J s).
Proof.
  intros H. apply constructed_inv in H as (vb & un & K & sel & -> & _ & _ & _ & H).
  unfold assemble. cbn [self_bounds_u self_bounds_v self_I self_J].
  destruct H as [(_ & _ & ->) | (_ & a_sort & b_sort & fs & _ & Hsel)].
  - simpl. by rewrite !length_replicate, !length_seq.
  - destruct Hsel as (K_min & bu & bv & _ & _ & _ & ->). simpl.
    by rewrite !length_replicate.
Qed.

Lemma constructed_shape_ok a b C reg N M s : constructed a b C reg N M s -> shape_ok s.
Proof.
  intros H. apply constructed_inv in H as (vb & un & K & sel & -> & _).
  apply assemble_shape_ok.
Qed.

Lemma call_dimensions a b C reg N M s (args : fmin_args) :
  constructed a b C reg N M s ->
  arg_func args = _bfgspost s ->
  arg_bounds args = self_bounds_u s ++ self_bounds_v s ->
  length (arg_x0 args) = (length (self_I s) + length (self_J s))%nat ->
  length (arg_bounds args) = length (arg_x0 args) /\
  length (arg_func args (arg_x0 args)).2 = length (arg_x0 args).
Proof.
  intros H Hf Hb Hx. rewrite Hf, Hb, Hx, length_app.
  destruct (constructed_bounds_lengths _ _ _ _ _ _ _ H) as [-> ->].
  split; [done|].
  rewrite <- (take_drop (length (self_I s)) (arg_x0 args)) at 1.
  pose proof H as H'.
  apply constructed_inv in H' as (vb & un & K & sel & E & _).
  assert (Lu : length (take (length (self_I s)) (arg_x0 args)) = length (self_I s)).
  { rewrite length_take. lia. }
  assert (Lv : length (drop (length (self_I s)) (arg_x0 args)) = length (self_J s)).
  { rewrite length_drop. lia. }
  rewrite bfgspost_app by done. cbn [snd]. rewrite length_app.
  rewrite E in *.
  destruct (assemble_gradient_lengths a b C reg N M vb un K sel _ _ Lu Lv) as [-> ->].
  lia.
Qed.

End CallDimensions.

(** X4.  For an object built by either constructor on an input of valid
    shape with at least one row and one column, and an optimizer that
    returns a point of the dimension of its starting point, [lbfgsb]
    calls the optimizer with [func = self._bfgspost], a starting point
    [x0] of dimension [len(self.I) + len(self.J)], a list [bounds] with
    one pair for each coordinate of [x0], and a [func] whose gradient at
    [x0] has the dimension of [x0]; in both files. *)
Theorem optimizer_call_dimensions {info : Type} (opt : fmin_args -> vec * num * info)
    a b C reg N M s :
  valid_shape a b C ->
  (0 < nrows C)%nat -> (0 < ncols C)%nat ->
  constructed a b C reg N M s ->
  (forall args, length (opt args).1.1 = length (arg_x0 args)) ->
  (exists args,
     BFGS.lbfgsb opt s = Py.Ok (reconstruct s (opt args).1.1 (opt args).2) /\
     arg_func args = _bfgspost s /\
     length (arg_x0 args) = (length (self_I s) + length (self_J s))%nat /\
     length (arg_bounds args) = length (arg_x0 args) /\
     length (arg_func args (arg_x0 args)).2 = length (arg_x0 args)) /\
  (exists args,
     NewFormulation.lbfgsb opt s = Py.Ok (reconstruct s (opt args).1.1 (opt args).2) /\
     arg_func args = _bfgspost s /\
     length (arg_x0 args) = (length (self_I s) + length (self_J s))%nat /\
     length (arg_bounds args) = length (arg_x0 args) /\
     length (arg_func args (arg_x0 args)).2 = length (arg_x0 args)).
Proof.
  intros _ Hn Hm H _.
  destruct (constructed_nonempty _ _ _ _ _ _ _ Hn Hm H) as [HI HJ].
  pose proof (constructed_shape_ok _ _ _ _ _ _ _ H) as Hs.
  split.
  - destruct (lbfgsb_bfgs_unfold opt s Hs HI HJ) as (args & Hr & Hf & Hb & Hx).
    exists args. split; [done|]. split; [done|]. split; [done|].
    by eapply call_dimensions.
  - destruct (lbfgsb_new_unfold opt s Hs HI HJ) as (args & Hr & Hf & Hb & Hx).
    exists args. split; [done|]. split; [done|]. split; [done|].
    by eapply call_dimensions.
Qed.

Lemma optimizer_call_dimensions_witness :
  exists args,
    BFGS.lbfgsb ex_optimizer ex_bfgs =
      Py.Ok (reconstruct ex_bfgs (ex_optimizer args).1.1 (ex_optimizer args).2) /\
    length (arg_bounds args) = length (arg_x0 args).
Proof.
  destruct (optimizer_call_dimensions ex_optimizer ex_a ex_b ex_C (Fin 1) 2 2 ex_bfgs)
    as [(args & Hr & _ & _ & Hb & _) _].
  - exact ex_valid_shape.
  - unfold nrows, ex_C. simpl. lia.
  - unfold ex_C. simpl. lia.
  - exact ex_bfgs_constructed.
  - intros args. reflexivity.
  - exists args. split; [exact Hr | exact Hb].
Defined.

(** ** The index lists and the blocks of the kernel *)

Section IndexLists.

Lemma where_from_ascending k cond :
  StronglySorted lt (where_from k cond) /\ Forall (le k) (where_from k cond).
Proof.
  revert k. induction cond as [|c cond IH]; intros k; simpl.
  { split; constructor. }
  destruct (IH (S k)) as [Hs Hl].
  assert (Hl' : Forall (le k) (where_from (S k) cond)).
  { eapply Forall_impl; [exact Hl|]. simpl. intros; lia. }
  destruct c; [|done]. split.
  - constructor; [done|]. eapply Forall_impl; [exact Hl|]. simpl. intros; lia.
  - constructor; [lia | done].
Qed.

Lemma where_ascending cond : StronglySorted lt (where_ cond).
Proof. apply where_from_ascending. Qed.

Lemma seq_ascending k n : StronglySorted lt (seq k n).
Proof.
  revert k. induction n as [|n IH]; intros k; simpl; constructor; [apply IH|].
  apply Forall_forall. intros x Hx%elem_of_seq. lia.
Qed.

Lemma complement_NoDup n idx : NoDup (complement n idx).
Proof. apply NoDup_elements. Qed.

Lemma complement_elem n idx i : i ∈ complement n idx <-> (i < n)%nat /\ i ∉ idx.
Proof.
  unfold complement. rewrite elem_of_elements, elem_of_difference.
  rewrite !elem_of_list_to_set, elem_of_seq. split; intros [? ?]; split; (done || lia).
Qed.

Lemma complement_length n idx :
  NoDup idx -> (forall i, i ∈ idx -> (i < n)%nat) ->
  (length idx + length (complement n idx) = n)%nat.
Proof.
  intros Hnd Hr. unfold complement.
  change (length (elements ?X)) with (size X).
  rewrite size_difference.
  - rewrite !size_list_to_set by (done || apply NoDup_seq). rewrite length_seq.
    assert (Hle : (length idx <= length (seq 0 n))%nat);
      [|rewrite length_seq in Hle; lia].
    apply submseteq_length.
    apply NoDup_submseteq; [done|]. intros i Hi. apply elem_of_seq.
    specialize (Hr i Hi). lia.
  - intros i. rewrite !elem_of_list_to_set, elem_of_seq. intros Hi.
    specialize (Hr i Hi). lia.
Qed.

End IndexLists.

(** X5.  For an object built by either constructor on an input of valid
    shape, in full and in screening mode: [self.I] and [self.J] list their
    indices in strictly increasing order (the order of [range] and of
    [np.where]); [self.Ic] and [self.Jc] have no repeated index; and the
    sizes add up, [len(I) + len(Ic) = n] and [len(J) + len(Jc) = m]. *)
Theorem index_lists_ascending a b C reg N M s :
  valid_shape a b C ->
  constructed a b C reg N M s ->
  StronglySorted lt (self_I s) /\ StronglySorted lt (self_J s) /\
  NoDup (self_Ic s) /\ NoDup (self_Jc s) /\
  (length (self_I s) + length (self_Ic s) = nrows C)%nat /\
  (length (self_J s) + length (self_Jc s) = ncols C)%nat.
Proof.
  intros _ H.
  destruct (selection_I_range _ _ _ _ _ _ _ H) as (RI & RJ & NI & NJ).
  destruct (constructed_complements _ _ _ _ _ _ _ H) as [-> ->].
  split; [|split; [|split; [|split; [|split]]]].
  - apply constructed_inv in H as (vb & un & K & sel & -> & _ & _ & _ & H).
    destruct H as [(_ & _ & ->) | (_ & a_sort & b_sort & fs & _ & Hsel)].
    + apply seq_ascending.
    + destruct Hsel as (K_min & bu & bv & _ & _ & _ & ->). apply where_ascending.
  - apply constructed_inv in H as (vb & un & K & sel & -> & _ & _ & _ & H).
    destruct H as [(_ & _ & ->) | (_ & a_sort & b_sort & fs & _ & Hsel)].
    + apply seq_ascending.
    + destruct Hsel as (K_min & bu & bv & _ & _ & _ & ->). apply where_ascending.
  - apply complement_NoDup.
  - apply complement_NoDup.
  - by apply complement_length.
  - by apply complement_length.
Qed.

Lemma index_lists_ascending_witness :
  StronglySorted lt (self_I ex_new) /\
  (length (self_J ex_new) + length (self_Jc ex_new) = ncols ex_C)%nat.
Proof.
  destruct (index_lists_ascending ex_a ex_b ex_C (Fin 1) 2 2 ex_new
              ex_valid_shape ex_new_constructed)
    as (HI & _ & _ & _ & _ & HJ).
  split; [exact HI | exact HJ].
Defined.

Section Blocks.

Lemma index_subvector x idx :
  (forall i, i ∈ idx -> (i < length x)%nat) -> subvector x idx (index x idx).
Proof.
  intros Hr. split; [apply index_length|].
  intros k i Hk.
  destruct (lookup_lt_is_Some_2 x i) as [y Hy].
  { apply Hr. by eapply list_elem_of_lookup_2. }
  split; [by eexists|].
  rewrite index_lookup, Hk, Hy. simpl. f_equal. by apply nth_lookup_Some.
Qed.

Lemma ix_block K ri ci :
  wf_matrix K ->
  (forall i, i ∈ ri -> (i < nrows K)%nat) ->
  (forall j, j ∈ ci -> (j < ncols K)%nat) ->
  block_of K ri ci (ix_ K ri ci).
Proof.
  intros Hwf Hr Hc. split; [apply ix_rows_length|].
  split; [apply ix_nrows|]. split; [done|].
  intros k l i j Hk Hl.
  destruct (lookup_lt_is_Some_2 (rows K) i) as [row Hrow].
  { apply Hr. by eapply list_elem_of_lookup_2. }
  assert (Lrow : length row = ncols K).
  { unfold wf_matrix in Hwf. rewrite Forall_forall in Hwf. apply Hwf.
    by eapply list_elem_of_lookup_2. }
  destruct (lookup_lt_is_Some_2 row j) as [x Hx].
  { rewrite Lrow. apply Hc. by eapply list_elem_of_lookup_2. }
  exists row, x, (index row ci). split; [done|]. split; [done|].
  unfold ix_. cbn [rows]. split.
  - rewrite list_lookup_fmap, Hk. simpl. f_equal. f_equal. by apply nth_lookup_Some.
  - rewrite index_lookup, Hl. simpl. f_equal. by apply nth_lookup_Some.
Qed.

End Blocks.

(** X6.  For an object built by either constructor on an input of valid
    shape, every index that the constructor uses lies inside the array it
    indexes: [a_I], [b_J], [a_Ic], [b_Jc] hold the entries of [a] and [b] at
    the listed positions, and [K_IJ], [K_IcJ], [K_IJc] are well-shaped
    blocks of sizes [|I| x |J|], [|Ic| x |J|], [|I| x |Jc|] that hold the
    entries of [K] at the listed rows and columns. *)
Theorem blocks_of_kernel a b C reg N M s :
  valid_shape a b C ->
  constructed a b C reg N M s ->
  subvector a (self_I s) (self_a_I s) /\
  subvector b (self_J s) (self_b_J s) /\
  subvector a (self_Ic s) (self_a_Ic s) /\
  subvector b (self_Jc s) (self_b_Jc s) /\
  block_of (self_K s) (self_I s) (self_J s) (self_K_IJ s) /\
  block_of (self_K s) (self_Ic s) (self_J s) (self_K_IcJ s) /\
  block_of (self_K s) (self_I s) (self_Jc s) (self_K_IJc s).
Proof.
  intros (Hwf & La & Lb) H.
  destruct (selection_I_range _ _ _ _ _ _ _ H) as (RI & RJ & _ & _).
  destruct (constructed_fields _ _ _ _ _ _ _ Hwf H) as (_ & _ & Hn & Hm & HwK).
  pose proof H as H'.
  apply constructed_inv in H' as (vb & un & K & sel & E & _).
  rewrite E in *. unfold assemble in *.
  cbn [self_I self_J self_Ic self_Jc self_a_I self_b_J self_a_Ic self_b_Jc
       self_K self_K_IJ self_K_IcJ self_K_IJc] in *.
  assert (RIc : forall i, i ∈ complement (nrows C) (sel_I sel) -> (i < nrows C)%nat).
  { by intros i [? _]%complement_elem. }
  assert (RJc : forall j, j ∈ complement (ncols C) (sel_J sel) -> (j < ncols C)%nat).
  { by intros j [? _]%complement_elem. }
  split; [|split; [|split; [|split; [|split; [|split]]]]].
  - apply index_subvector. intros i Hi. rewrite La. auto.
  - apply index_subvector. intros i Hi. rewrite Lb. auto.
  - apply index_subvector. intros i Hi. rewrite La. auto.
  - apply index_subvector. intros i Hi. rewrite Lb. auto.
  - apply ix_block; [done | intros i Hi; rewrite Hn; auto | intros j Hj; rewrite Hm; auto].
  - apply ix_block; [done | intros i Hi; rewrite Hn; auto | intros j Hj; rewrite Hm; auto].
  - apply ix_block; [done | intros i Hi; rewrite Hn; auto | intros j Hj; rewrite Hm; auto].
Qed.

Lemma blocks_of_kernel_witness :
  subvector ex_a (self_I ex_bfgs) (self_a_I ex_bfgs) /\
  block_of (self_K ex_bfgs) (self_I ex_bfgs) (self_Jc ex_bfgs) (self_K_IJc ex_bfgs).
Proof.
  destruct (blocks_of_kernel ex_a ex_b ex_C (Fin 1) 2 2 ex_bfgs
              ex_valid_shape ex_bfgs_constructed) as (Ha & _ & _ & _ & _ & _ & HK).
  split; [exact Ha | exact HK].
Defined.

(** ** The projection *)

Section ProjectionFacts.

Lemma clamp_idempotent eps x : clamp eps (clamp eps x) = clamp eps x.
Proof.
  unfold clamp. rewrite <- list_fmap_compose. apply list_fmap_ext.
  intros i xi _. simpl. destruct (fle xi eps) eqn:E.
  - rewrite fle_refl; [done|]. by eapply fle_not_nan_r.
  - by rewrite E.
Qed.

Lemma clamp_above eps x :
  Forall (fun xi => fgt xi eps = true) x -> clamp eps x = x.
Proof.
  intros H. unfold clamp. rewrite <- (list_fmap_id x) at 2.
  apply Forall_fmap_ext_1. eapply Forall_impl; [exact H|].
  intros xi Hgt. simpl. unfold fgt in Hgt.
  destruct (fle xi eps) eqn:E; [|done]. exfalso.
  destruct xi as [r| | |], eps as [t| | |]; simpl in *; try done. Rb.
Qed.

Lemma clamp_nan_threshold x : clamp NaN x = x.
Proof.
  unfold clamp. rewrite <- (list_fmap_id x) at 2. apply list_fmap_ext.
  intros i xi _. by destruct xi.
Qed.

Lemma clamp_keeps_nan eps x i : x !! i = Some NaN -> clamp eps x !! i = Some NaN.
Proof. intros H. rewrite clamp_lookup, H. done. Qed.

End ProjectionFacts.

(** X7.  [_projection] is idempotent, on the array and on the store; it
    leaves a NaN entry NaN, whatever the threshold; with a NaN threshold
    it changes nothing; and it changes nothing in an array whose entries
    are all strictly above the threshold. *)
Theorem projection_idempotent u eps (h : heap) x :
  clamp eps (clamp eps x) = clamp eps x /\
  _projection u eps (_projection u eps h).1 = _projection u eps h /\
  (forall i, x !! i = Some NaN -> clamp eps x !! i = Some NaN) /\
  clamp NaN x = x /\
  (Forall (fun xi => fgt xi eps = true) x -> clamp eps x = x).
Proof.
  split; [apply clamp_idempotent|]. split; [|split; [|split]].
  - unfold _projection. cbn [fst]. f_equal.
    rewrite alter_alter_eq. apply alter_ext. intros y _. simpl.
    apply clamp_idempotent.
  - apply clamp_keeps_nan.
  - apply clamp_nan_threshold.
  - apply clamp_above.
Qed.

Lemma projection_idempotent_witness :
  clamp (Fin 0) [Fin 1; Fin 1] = [Fin 1; Fin 1].
Proof.
  refine (proj2 (proj2 (proj2 (proj2
    (projection_idempotent 0%nat (Fin 0) ∅ [Fin 1; Fin 1])))) _).
  repeat constructor; unfold fgt, flt; apply Rltb_is_true; lra.
Defined.

(** ** A round in full mode *)

Section FullModeRound.

Lemma add_scalar_zero x : add_operand x (Scalar (Fin 0)) = x.
Proof.
  unfold add_operand. rewrite <- (list_fmap_id x) at 2. apply list_fmap_ext.
  intros i xi _. apply fadd_zero_r.
Qed.

Lemma full_mode_fields a b C reg verbose uniform K :
  valid_shape a b C -> wf_matrix K -> nrows K = nrows C -> ncols K = ncols C ->
  let s := assemble a b C reg (nrows C) (ncols C) verbose uniform K
             (full_mode (nrows C) (ncols C)) in
  self_K_IJ s = K /\ self_a_I s = a /\ self_b_J s = b /\
  self_fact_scale s = Fin 1 /\
  self_cst_u s = Scalar (Fin 0) /\ self_cst_v s = Scalar (Fin 0).
Proof.
  intros (_ & La & Lb) HwK Hn Hm. cbn zeta.
  destruct (full_mode_corrections a b C reg verbose uniform K Hn Hm) as (_ & _ & Hu & Hv).
  split; [|split; [|split; [|split; [|split]]]]; try done.
  - unfold assemble. cbn [self_K_IJ full_mode sel_I sel_J].
    rewrite <- Hn, <- Hm. by apply ix_full.
  - unfold assemble. cbn [self_a_I full_mode sel_I]. rewrite <- La. apply index_seq.
  - unfold assemble. cbn [self_b_J full_mode sel_J]. rewrite <- Lb. apply index_seq.
Qed.

End FullModeRound.

(** X8.  In full mode ([N = n], [M = m]) on an input of valid shape, one
    turn of the loop of [restricted_sinkhorn] on an array [u] of length
    [n] is the Sinkhorn iteration on the whole kernel, [v <- b / (K^T u)]
    and then [u <- a / (K v)], for the objects of both constructors and
    the loop bodies of both files. *)
Theorem full_mode_round_is_sinkhorn a b C reg s fr :
  valid_shape a b C ->
  constructed a b C reg (nrows C) (ncols C) s ->
  length (deref (fr_heap fr) (fr_usc fr)) = nrows C ->
  let u := deref (fr_heap fr) (fr_usc fr) in
  let v' := zip_with fdiv b (matvec (transpose (self_K s)) u) in
  contents (BFGS.round s fr) = (zip_with fdiv a (matvec (self_K s) v'), v') /\
  contents (NewFormulation.round s fr) = (zip_with fdiv a (matvec (self_K s) v'), v').
Proof.
  intros Hshape H _. cbn zeta. rewrite round_same.
  destruct (round_store s fr) as (_ & _ & _ & _ & _ & _ & _ & ->).
  assert (E : Spec.round s (contents fr) =
    (zip_with fdiv a
       (matvec (self_K s)
          (zip_with fdiv b (matvec (transpose (self_K s)) (deref (fr_heap fr) (fr_usc fr))))),
     zip_with fdiv b (matvec (transpose (self_K s)) (deref (fr_heap fr) (fr_usc fr))))); [|done].
  pose proof Hshape as (Hwf & _ & _).
  destruct (constructed_fields _ _ _ _ _ _ _ Hwf H) as (_ & _ & Hn & Hm & HwK).
  apply constructed_inv in H as (vb & un & K & sel & -> & _ & _ & _ & H).
  destruct H as [(_ & _ & ->) | (Hs & _)]; [|by destruct Hs].
  change (self_K (assemble a b C reg (nrows C) (ncols C) vb un K
                    (full_mode (nrows C) (ncols C)))) with K in *.
  destruct (full_mode_fields a b C reg vb un K Hshape HwK Hn Hm)
    as (EK & Ea & Eb & Ef & Eu & Ev).
  unfold Spec.round, Spec.u_update, Spec.v_update, contents. cbn [fst snd].
  rewrite EK, Ea, Eb, Ef, Eu, Ev, !add_scalar_zero.
  fold one. rewrite !map_fmul_one. done.
Qed.

Lemma full_mode_round_is_sinkhorn_witness :
  (contents (BFGS.round exf_bfgs (Frame ex_heap 1 0%nat 1%nat 0))).2 =
    zip_with fdiv exf_b (matvec (transpose (self_K exf_bfgs)) (deref ex_heap 0%nat)).
Proof.
  refine (f_equal snd (proj1 (full_mode_round_is_sinkhorn exf_a exf_b exf_C (Fin 1)
            exf_bfgs (Frame ex_heap 1 0%nat 1%nat 0) _ _ _))).
  - repeat split; repeat constructor.
  - left. reflexivity.
  - cbn [fr_heap fr_usc]. rewrite ex_heap_usc. reflexivity.
Defined.

(** ** The kernel *)

Section Kernel.



End Kernel.



(** ** The offsets of the updates and the corrections of the gradient *)

Section Offsets.

Lemma fmul_comm x y : fmul x y = fmul y x.
Proof.
  destruct x as [r| | |], y as [t| | |]; simpl; try done. f_equal. lra.
Qed.

Lemma assemble_offset_u a b C reg N M verbose uniform K sel :
  screening C N M ->
  let s := assemble a b C reg N M verbose uniform K sel in
  self_cst_u s = Array (self_vec_eps_IJc s).
Proof.
  intros Hs. cbn zeta. unfold assemble.
  cbn [self_cst_u self_vec_eps_IJc]. rewrite (screening_mode_flag _ _ _ Hs). cbn [fst].
  rewrite mul_row_ones by apply ix_rows_length.
  by rewrite (fmul_comm (sel_fact_scale sel)).
Qed.

Lemma scale_then_divide e f x :
  f <> 0 -> is_finite x = true ->
  fdiv (fmul (Fin e) x) (Fin f) = fmul (fdiv (Fin e) (Fin f)) x.
Proof.
  intros Hf Hx. destruct x as [r| | |]; try done. simpl.
  rewrite !Reqb_is_false by lra. simpl. f_equal. by field.
Qed.

Lemma assemble_offset_v a b C reg N M verbose uniform K sel :
  screening C N M ->
  (sel_fact_scale sel = Fin 1 \/
   (exists e f, sel_epsilon sel = Fin e /\ sel_fact_scale sel = Fin f /\ f <> 0) /\
   Forall (fun x => is_finite x = true)
     (sum_axis0 (ix_ K (complement (nrows C) (sel_I sel)) (sel_J sel)))) ->
  let s := assemble a b C reg N M verbose uniform K sel in
  self_cst_v s = Array (self_vec_eps_IcJ s).
Proof.
  intros Hs Hfs. cbn zeta. unfold assemble.
  cbn [self_cst_v self_vec_eps_IcJ]. rewrite (screening_mode_flag _ _ _ Hs). cbn [snd].
  pose proof (mul_col_ones (ix_ K (complement (nrows C) (sel_I sel)) (sel_J sel))) as E.
  rewrite ix_nrows in E. rewrite E. clear E. f_equal. rewrite <- list_fmap_compose.
  destruct Hfs as [-> | [(e & f & -> & -> & Hf) Hfin]].
  - fold one. rewrite fdiv_one_r. apply list_fmap_ext. intros i x _. simpl.
    by rewrite fdiv_one_r.
  - apply Forall_fmap_ext_1. eapply Forall_impl; [exact Hfin|].
    intros x Hx. simpl. by apply scale_then_divide.
Qed.

Lemma full_mode_offsets a b C reg verbose uniform K :
  nrows K = nrows C -> ncols K = ncols C ->
  let s := assemble a b C reg (nrows C) (ncols C) verbose uniform K
             (full_mode (nrows C) (ncols C)) in
  (forall x, length x = length (self_I s) ->
     add_operand x (self_cst_u s) = zip_with fadd x (self_vec_eps_IJc s)) /\
  (forall y, length y = length (self_J s) ->
     add_operand y (self_cst_v s) = zip_with fadd y (self_vec_eps_IcJ s)).
Proof.
  intros Hn Hm. cbn zeta.
  destruct (full_mode_corrections a b C reg verbose uniform K Hn Hm)
    as (-> & -> & -> & ->).
  unfold assemble. cbn [self_I self_J full_mode sel_I sel_J].
  rewrite !length_seq. split.
  - intros x <-. by rewrite add_scalar_zero, zip_fadd_zeros.
  - intros y <-. by rewrite add_scalar_zero, zip_fadd_zeros.
Qed.

End Offsets.

(** ** The thresholds on a valid input *)

Section ValidThresholds.

Lemma fourth_root_square x : 0 < x -> Rpower x (1/4) * Rpower x (1/4) = sqrt x.
Proof.
  intros Hx. rewrite <- Rpower_plus.
  replace (1 / 4 + 1 / 4) with (/ 2) by lra. by apply Rpower_sqrt.
Qed.

Lemma sqrt_product_quotient eu ev :
  0 < eu -> 0 < ev ->
  sqrt (eu * ev) / sqrt (ev / eu) = eu /\ sqrt (eu * ev) * sqrt (ev / eu) = ev.
Proof.
  intros Hu Hv.
  assert (Hq : 0 < ev / eu) by (by apply Rdiv_lt_0_compat).
  assert (Hs : 0 < sqrt (ev / eu)) by (by apply sqrt_lt_R0).
  split.
  - replace (eu * ev) with ((eu * eu) * (ev / eu)) by (field; lra).
    rewrite sqrt_mult by nra. rewrite sqrt_square by lra. field. lra.
  - rewrite <- sqrt_mult by nra.
    replace (eu * ev * (ev / eu)) with (ev * ev) by (field; lra).
    apply sqrt_square. lra.
Qed.

Lemma valid_thresholds a b K N M :
  wf_matrix K -> Forall (Forall positive) (rows K) ->
  length a = nrows K -> length b = ncols K ->
  Forall positive a -> Forall positive b ->
  (1 <= N <= nrows K)%nat -> (1 <= M <= ncols K)%nat ->
  exists eu ev,
    0 < eu /\ 0 < ev /\
    ratio_sort a (K_sum_cols K) !! (N - 1)%nat = Some (Fin eu) /\
    ratio_sort b (K_sum_rows K) !! (M - 1)%nat = Some (Fin ev) /\
    eps_u_sq a K N = Fin eu /\ eps_v_sq b K M = Fin ev /\
    epsilon0 a b K N M = Fin (Rpower (eu * ev) (1/4)) /\
    fact_scale0 a b K N M = Fin (sqrt (ev / eu)) /\
    fdiv (fpow_int (epsilon0 a b K N M) 2) (fact_scale0 a b K N M) = Fin eu /\
    fmul (fpow_int (epsilon0 a b K N M) 2) (fact_scale0 a b K N M) = Fin ev.
Proof.
  intros Hwf Hpos La Lb Ha Hb HN HM.
  assert (Pu : Forall positive (ratio_sort a (K_sum_cols K))).
  { apply ratio_sort_positive; [done|]. apply K_sum_cols_positive; [done | lia | done]. }
  assert (Pv : Forall positive (ratio_sort b (K_sum_rows K))).
  { apply ratio_sort_positive; [done|]. apply K_sum_rows_positive; [done | lia | done]. }
  destruct (positive_rank _ N Pu) as (eu & Heu & Hru).
  { rewrite ratio_sort_length, K_sum_cols_length. lia. }
  destruct (positive_rank _ M Pv) as (ev & Hev & Hrv).
  { rewrite ratio_sort_length, K_sum_rows_length. lia. }
  exists eu, ev.
  assert (Eu : eps_u_sq a K N = Fin eu).
  { unfold eps_u_sq. apply epsilon_square_rank; [lia | done]. }
  assert (Ev : eps_v_sq b K M = Fin ev).
  { unfold eps_v_sq. apply epsilon_square_rank; [lia | done]. }
  assert (Ef : fact_scale0 a b K N M = Fin (sqrt (ev / eu))).
  { unfold fact_scale0. rewrite Eu, Ev. by apply fact_scale_of_positive. }
  assert (Ee : epsilon0 a b K N M = Fin (Rpower (eu * ev) (1/4))).
  { unfold epsilon0. rewrite Eu, Ev. by apply epsilon_of_positive. }
  assert (Hp : 0 < eu * ev) by (by apply Rmult_lt_0_compat).
  assert (Hq : 0 < sqrt (ev / eu)).
  { apply sqrt_lt_R0. by apply Rdiv_lt_0_compat. }
  destruct (sqrt_product_quotient eu ev Heu Hev) as [Hd Hm].
  do 8 (split; [done|]).
  rewrite fpow_int_2, Ee, Ef. simpl. rewrite Reqb_is_false by lra.
  rewrite fourth_root_square by done. split; f_equal; done.
Qed.

End ValidThresholds.

(** ** Signs of the data of a constructed object *)

Section Signs.

Lemma positive_nonneg x : positive x -> nonneg x.
Proof. intros (r & -> & Hr). exists r. split; [done | lra]. Qed.

Lemma nonneg_finite x : nonneg x -> is_finite x = true.
Proof. by intros (r & -> & _). Qed.

Lemma fmul_positive x y : positive x -> positive y -> positive (fmul x y).
Proof.
  intros (r & -> & Hr) (t & -> & Ht). exists (r * t). split; [done|].
  by apply Rmult_lt_0_compat.
Qed.

Lemma fmul_nonneg x y : nonneg x -> nonneg y -> nonneg (fmul x y).
Proof.
  intros (r & -> & Hr) (t & -> & Ht). exists (r * t). split; [done|].
  by apply Rmult_le_pos.
Qed.

Lemma fdiv_nonneg_positive x y : nonneg x -> positive y -> nonneg (fdiv x y).
Proof.
  intros (r & -> & Hr) (t & -> & Ht). simpl. rewrite Reqb_is_false by lra.
  exists (r / t). split; [done|]. apply Rmult_le_pos; [done|].
  left. by apply Rinv_0_lt_compat.
Qed.


Lemma sum_nonneg l : Forall positive l -> nonneg (Np.sum l).
Proof.
  intros H. destruct (sum_positive l H) as (r & Hr & Hr0 & _). by exists r.
Qed.

Lemma index_positive x idx :
  Forall positive x -> (forall i, i ∈ idx -> (i < length x)%nat) ->
  Forall positive (index x idx).
Proof.
  intros Hx Hr. unfold index. apply Forall_fmap, Forall_forall. intros i Hi. simpl.
  destruct (lookup_lt_is_Some_2 x i) as [y Hy]; [by apply Hr|].
  rewrite (nth_lookup_Some _ _ _ _ Hy).
  rewrite Forall_forall in Hx. apply Hx. by eapply list_elem_of_lookup_2.
Qed.

Lemma ix_positive K ri ci :
  wf_matrix K -> Forall (Forall positive) (rows K) ->
  (forall i, i ∈ ri -> (i < nrows K)%nat) ->
  (forall j, j ∈ ci -> (j < ncols K)%nat) ->
  Forall (Forall positive) (rows (ix_ K ri ci)).
Proof.
  intros Hwf HK Hr Hc. unfold ix_. cbn [rows].
  apply Forall_fmap, Forall_forall. intros i Hi. simpl.
  destruct (lookup_lt_is_Some_2 (rows K) i) as [row Hrow]; [by apply Hr|].
  rewrite (nth_lookup_Some _ _ _ _ Hrow).
  unfold wf_matrix in Hwf. rewrite Forall_forall in Hwf, HK.
  pose proof (list_elem_of_lookup_2 _ _ _ Hrow) as Hin.
  apply index_positive; [by apply HK|].
  intros j Hj. rewrite (Hwf row Hin). by apply Hc.
Qed.

Lemma ix_wf K ri ci : wf_matrix (ix_ K ri ci).
Proof. apply ix_rows_length. Qed.

Lemma sum_axis1_nonneg A :
  Forall (Forall positive) (rows A) -> Forall nonneg (sum_axis1 A).
Proof.
  intros H. unfold sum_axis1. apply Forall_fmap. eapply Forall_impl; [exact H|].
  intros row Hrow. by apply sum_nonneg.
Qed.

Lemma sum_axis0_nonneg A :
  wf_matrix A -> Forall (Forall positive) (rows A) -> Forall nonneg (sum_axis0 A).
Proof.
  intros Hwf H. unfold sum_axis0. apply Forall_fmap, Forall_forall.
  intros j Hj%elem_of_seq. simpl. apply sum_nonneg, col_positive; [done | lia | done].
Qed.

Lemma complement_range n idx i : i ∈ complement n idx -> (i < n)%nat.
Proof. by intros [? _]%complement_elem. Qed.

Lemma Rpower_positive x y : 0 < Rpower x y.
Proof. unfold Rpower. apply exp_pos. Qed.

(** On a valid input the threshold is a finite number, positive in
    screening mode, and the scale factor is finite and positive. *)
Lemma constructed_scales a b C reg N M s :
  valid_input a b C reg N M ->
  constructed a b C reg N M s ->
  exists e f,
    self_epsilon s = Fin e /\ self_fact_scale s = Fin f /\
    0 <= e /\ 0 < f /\ (screening C N M -> 0 < e).
Proof.
  intros Hv H.
  destruct (constructed_kernel _ _ _ _ _ _ _ Hv H) as (HwK & Hn & Hm & Hpos).
  destruct Hv as ((_ & La & Lb) & Ha & Hb & _ & _ & HN & HM).
  apply constructed_inv in H as (vb & un & K & sel & -> & _ & _ & _ & H).
  change (self_K (assemble a b C reg N M vb un K sel)) with K in *.
  unfold assemble. cbn [self_epsilon self_fact_scale].
  destruct H as [(EN & EM & ->) | (Hs & a_sort & b_sort & fs & Hfs & Hsel)].
  - exists 0, 1. cbn [full_mode sel_epsilon sel_fact_scale].
    split; [done|]. split; [done|]. split; [lra|]. split; [lra|].
    intros Hs. exfalso. by apply Hs.
  - destruct (valid_thresholds a b K N M) as
      (eu & ev & Heu & Hev & _ & _ & _ & _ & Ee & Ef & _); try done; try lia.
    destruct Hsel as (K_min & bu & bv & _ & _ & _ & ->).
    cbn [sel_epsilon sel_fact_scale]. rewrite Ee.
    pose proof (Rpower_positive (eu * ev) (1/4)) as Hp.
    destruct Hfs as [-> | ->].
    + exists (Rpower (eu * ev) (1/4)), 1. repeat split; (done || lra).
    + rewrite Ef. exists (Rpower (eu * ev) (1/4)), (sqrt (ev / eu)).
      repeat split; try done; try lra.
      apply sqrt_lt_R0. by apply Rdiv_lt_0_compat.
Qed.

End Signs.

Section OffsetsOfConstructed.

Lemma constructed_offset_u a b C reg N M s x :
  constructed a b C reg N M s ->
  length x = length (self_I s) ->
  add_operand x (self_cst_u s) = zip_with fadd x (self_vec_eps_IJc s).
Proof.
  intros H Lx.
  apply constructed_inv in H as (vb & un & K & sel & -> & _ & Hn & Hm & H).
  destruct H as [(-> & -> & ->) | (Hs & _)].
  - by apply (full_mode_offsets a b C reg vb un K Hn Hm).
  - by rewrite assemble_offset_u.
Qed.

Lemma constructed_offset_v a b C reg N M s y :
  valid_input a b C reg N M ->
  constructed a b C reg N M s ->
  length y = length (self_J s) ->
  add_operand y (self_cst_v s) = zip_with fadd y (self_vec_eps_IcJ s).
Proof.
  intros Hv H Ly.
  destruct (constructed_scales _ _ _ _ _ _ _ Hv H) as (e & f & Ee & Ef & _ & Hf & _).
  destruct (constructed_kernel _ _ _ _ _ _ _ Hv H) as (HwK & HnK & HmK & Hpos).
  destruct (selection_I_range _ _ _ _ _ _ _ H) as (RI & RJ & _ & _).
  apply constructed_inv in H as (vb & un & K & sel & E & _ & Hn & Hm & H).
  destruct H as [(EN & EM & Esel) | (Hs & _)].
  - subst N M sel s. by apply (full_mode_offsets a b C reg vb un K Hn Hm).
  - subst s. unfold assemble in Ee, Ef, RI, RJ, HwK, Hpos.
    cbn [self_epsilon self_fact_scale self_I self_J self_K] in *.
    rewrite assemble_offset_v; [done | done |]. right. split.
    + exists e, f. split; [done|]. split; [done | lra].
    + eapply Forall_impl; [|apply nonneg_finite].
      apply sum_axis0_nonneg; [apply ix_wf|].
      apply ix_positive; try done.
      * intros i Hi%complement_range. lia.
      * intros j Hj. rewrite Hm. by apply RJ.
Qed.

End OffsetsOfConstructed.

(** X10.  The offset that [restricted_sinkhorn] adds in the denominator of
    an update is the correction vector of the gradient:
    [K_IJ v + cst_u = K_IJ v + vec_eps_IJc] for every object built by a
    constructor on an input of valid shape, where in full mode the Python
    float [0.] is broadcast and the correction vector is all zero; and
    [K_IJ^T u + cst_v = K_IJ^T u + vec_eps_IcJ] for the objects of
    [screenkhornBFGS.py], and on a valid input (finite values taken as
    exact reals) for those of [new_formulation.py]. *)
Theorem offsets_are_corrections a b C reg N M s :
  valid_shape a b C ->
  constructed a b C reg N M s ->
  (forall x, length x = length (self_I s) ->
     add_operand x (self_cst_u s) = zip_with fadd x (self_vec_eps_IJc s)) /\
  (BFGS.__init__ a b C reg N M = Py.Ok s \/ valid_input a b C reg N M ->
   forall y, length y = length (self_J s) ->
     add_operand y (self_cst_v s) = zip_with fadd y (self_vec_eps_IcJ s)).
Proof.
  intros _ H. split.
  - intros x Lx. by eapply constructed_offset_u.
  - intros [Hb | Hv] y Ly; [|by eapply constructed_offset_v].
    apply bfgs_init_inv in Hb as (sel & E & Hb).
    destruct Hb as [(EN & EM & Esel) | (Hs & Hsel)].
    + subst N M sel s.
      apply (full_mode_offsets a b C reg None None (BFGS.kernel C reg));
        [apply kernel_bfgs_nrows | apply kernel_bfgs_ncols | done].
    + subst s. rewrite assemble_offset_v; [done | done |].
      left. by destruct Hsel as (K_min & bu & bv & _ & _ & _ & ->).
Qed.

Lemma offsets_are_corrections_witness :
  add_operand [Fin 1; Fin 1] (self_cst_v ex_bfgs) =
    zip_with fadd [Fin 1; Fin 1] (self_vec_eps_IcJ ex_bfgs).
Proof.
  refine (proj2 (offsets_are_corrections ex_a ex_b ex_C (Fin 1) 2 2 ex_bfgs
            ex_valid_shape ex_bfgs_constructed) _ [Fin 1; Fin 1] _).
  - left. exact ex_bfgs_init.
  - reflexivity.
Defined.

(** ** The active sets on a valid input *)

Section Budget.









End Budget.



(** ** The data of an object built on a valid input *)

Section PositiveData.

Lemma constructed_positive_data a b C reg N M s :
  valid_input a b C reg N M ->
  constructed a b C reg N M s ->
  positive_data s.
Proof.
  intros Hv H.
  destruct (constructed_scales _ _ _ _ _ _ _ Hv H) as (e & f & Ee & Ef & He & Hf & _).
  destruct (constructed_kernel _ _ _ _ _ _ _ Hv H) as (HwK & HnK & HmK & Hpos).
  destruct (selection_I_range _ _ _ _ _ _ _ H) as (RI & RJ & _ & _).
  assert (Hcu : forall x, length x = length (self_I s) ->
    add_operand x (self_cst_u s) = zip_with fadd x (self_vec_eps_IJc s)).
  { intros x Lx. by eapply constructed_offset_u. }
  assert (Hcv : forall y, length y = length (self_J s) ->
    add_operand y (self_cst_v s) = zip_with fadd y (self_vec_eps_IcJ s)).
  { intros y Ly. by eapply constructed_offset_v. }
  pose proof Hv as ((_ & La & Lb) & Ha & Hb & _ & _ & HN & HM).
  destruct (constructed_nonempty a b C reg N M s) as [HI HJ]; [lia | lia | done |].
  apply constructed_inv in H as (vb & un & K & sel & E & _ & Hn & Hm & _).
  subst s. unfold assemble in *.
  cbn [self_I self_J self_K self_K_IJ self_a_I self_b_J self_epsilon self_fact_scale
       self_vec_eps_IJc self_vec_eps_IcJ self_cst_u self_cst_v] in *.
  assert (PIJ : forall ri ci,
    (forall i, i ∈ ri -> (i < nrows C)%nat) -> (forall j, j ∈ ci -> (j < ncols C)%nat) ->
    Forall (Forall positive) (rows (ix_ K ri ci))).
  { intros ri ci Hr Hc. apply ix_positive; try done.
    - intros i Hi. rewrite Hn. by apply Hr.
    - intros j Hj. rewrite Hm. by apply Hc. }
  assert (Pe : nonneg (Fin e)) by (by exists e).
  assert (Pf : positive (Fin f)) by (by exists f).
  rewrite Ee, Ef in *.
  constructor;
    cbn [self_I self_J self_K self_K_IJ self_a_I self_b_J self_epsilon self_fact_scale
         self_vec_eps_IJc self_vec_eps_IcJ self_cst_u self_cst_v]; try done.
  - apply ix_wf.
  - apply ix_nrows.
  - by apply PIJ.
  - apply index_length.
  - apply index_positive; [done|]. intros i Hi. rewrite La. by apply RI.
  - apply index_length.
  - apply index_positive; [done|]. intros j Hj. rewrite Lb. by apply RJ.
  - rewrite length_map, sum_axis1_length, mul_row_ones by apply ix_rows_length.
    apply ix_nrows.
  - rewrite mul_row_ones by apply ix_rows_length.
    apply Forall_fmap. eapply Forall_impl.
    + apply sum_axis1_nonneg, PIJ; [done|]. apply complement_range.
    + intros x Hx. cbv beta. apply fmul_nonneg; [|done].
      apply fmul_nonneg; [done | by apply positive_nonneg].
  - by rewrite length_map, sum_axis0_length.
  - pose proof (mul_col_ones (ix_ K (complement (nrows C) (sel_I sel)) (sel_J sel))) as Eo.
    rewrite ix_nrows in Eo. rewrite Eo.
    apply Forall_fmap. eapply Forall_impl.
    + apply sum_axis0_nonneg; [apply ix_wf|]. apply PIJ; [|done]. apply complement_range.
    + intros x Hx. cbv beta. apply fmul_nonneg; [|done]. by apply fdiv_nonneg_positive.
Qed.

End PositiveData.

(** ** A round on positive data *)

Section PositiveRound.






Lemma map_fmul_positive c x :
  positive c -> Forall positive x -> Forall positive (map (fmul c) x).
Proof.
  intros Hc Hx. apply Forall_fmap. eapply Forall_impl; [exact Hx|].
  intros y Hy. simpl. by apply fmul_positive.
Qed.










End PositiveRound.



(** ** The starting point of the optimizer *)

Section StartingPoint.

Lemma restricted_sinkhorn_contents s usc vsc max_iter (h : heap) :
  (2 <= max_iter)%Z ->
  let r := BFGS.restricted_sinkhorn s usc vsc max_iter h in
  let uv := Nat.iter (Z.to_nat (max_iter - 1)) (Spec.round s) (deref h usc, deref h vsc) in
  deref r.1 r.2.1 = clamp (fdiv (self_epsilon s) (self_fact_scale s)) uv.1 /\
  deref r.1 r.2.2 = clamp (fmul (self_epsilon s) (self_fact_scale s)) uv.2.
Proof.
  intros Hm. cbv zeta. unfold BFGS.restricted_sinkhorn, _projection.
  pose proof (iter_turn_contents s (Z.to_nat (max_iter - 1)) (Frame h 1 usc vsc 0)) as Hc.
  change (contents (Frame h 1 usc vsc 0)) with (deref h usc, deref h vsc) in Hc.
  rewrite <- Hc. clear Hc. rewrite sinkhorn_loop_iter.
  destruct (Z.to_nat (max_iter - 1)) as [|k] eqn:E; [lia|]. rewrite Nat.iter_succ.
  set (fr := Nat.iter k (turn (BFGS.round s)) (Frame h 1 usc vsc 0)).
  destruct (round_store s fr) as (_ & _ & Hu & Hv & Hne & _ & _ & _).
  unfold contents.
  change (fr_heap (turn (BFGS.round s) fr)) with (fr_heap (BFGS.round s fr)).
  change (fr_usc (turn (BFGS.round s) fr)) with (fr_usc (BFGS.round s fr)).
  change (fr_vsc (turn (BFGS.round s) fr)) with (fr_vsc (BFGS.round s fr)).
  cbn [fst snd]. rewrite !deref_alter, ?dom_alter_L.
  repeat case_decide; try done; congruence.
Qed.


Context {info : Type}.








End StartingPoint.



(** ** The box and the thresholds *)

Section BoxAndThresholds.

Lemma flt_false_fle x t :
  is_nan x = false -> is_nan t = false -> flt x t = false -> fle t x = true.
Proof.
  destruct x as [r| | |], t as [e| | |]; simpl; try done.
  unfold Rltb, Rleb. intros _ _.
  destruct (Rlt_dec r e), (Rle_dec e r); try done. exfalso. lra.
Qed.

Lemma py_max_above X t x :
  is_nan t = false -> fle (py_max X t) x = true -> fle t x = true.
Proof.
  intros Ht. unfold py_max, fgt. destruct (flt X t) eqn:E; [done|].
  intros H. eapply fle_trans; [|exact H].
  apply flt_false_fle; [|done|done]. by eapply fle_not_nan_l.
Qed.

Lemma constructed_box_above a b C reg N M s :
  constructed a b C reg N M s ->
  Forall (fun bd => forall x, within x bd ->
            fge x (fdiv (self_epsilon s) (self_fact_scale s)) = true) (self_bounds_u s) /\
  Forall (fun bd => forall x, within x bd ->
            fge x (fmul (self_epsilon s) (self_fact_scale s)) = true) (self_bounds_v s).
Proof.
  intros H. destruct (constructed_thresholds _ _ _ _ _ _ _ H) as [Ntu Ntv].
  apply constructed_inv in H as (vb & un & K & sel & -> & _ & _ & _ & H).
  destruct H as [(_ & _ & ->) | (_ & a_sort & b_sort & fs & _ & Hsel)].
  - unfold assemble. cbn [self_bounds_u self_bounds_v self_epsilon self_fact_scale
      full_mode sel_bounds_u sel_bounds_v sel_epsilon sel_fact_scale].
    fold one. rewrite fdiv_one_r, fmul_one_r.
    split; apply Forall_replicate; intros x [Hlo _]; exact Hlo.
  - pose proof (selection_box a b a_sort b_sort C reg N M vb un K fs sel Hsel) as Hbox.
    destruct Hbox as (K_min & al & af & bl & bf & _ & _ & _ & _ & _ & -> & ->).
    split; apply Forall_replicate; intros x [Hlo _]; unfold fge;
      unfold Spec.box_u, Spec.box_v in Hlo; cbn [fst] in Hlo;
      by eapply py_max_above.
Qed.

Lemma assign_index_Forall (P : num -> Prop) x idx y :
  Forall P x -> Forall P y -> Forall P (assign_index x idx y).
Proof.
  revert x y. induction idx as [|i idx IH]; intros x y Hx Hy; [done|].
  destruct Hy as [|yi y Hyi Hy]; [done|].
  rewrite assign_index_cons. apply IH; [|done]. by apply Forall_insert.
Qed.

Lemma Forall2_Forall_l {A B} (P : A -> B -> Prop) (Q : A -> Prop) l k :
  Forall2 P l k -> Forall (fun y => forall x, P x y -> Q x) k -> Forall Q l.
Proof.
  induction 1 as [|x y l k Hxy _ IH]; [constructor|].
  intros [Hy Hk]%Forall_cons. constructor; [by apply Hy | by apply IH].
Qed.

End BoxAndThresholds.

(** X14.  For an object built by either constructor on an input of valid
    shape, every point of the box handed to the optimizer satisfies the
    thresholds of the screening, and so do the full-length vectors that
    [lbfgsb] builds from such a point: every coordinate of [usc_full] is
    at least [epsilon / fact_scale] and every coordinate of [vsc_full] at
    least [epsilon * fact_scale], on the active sets by the lower bounds
    of the box and outside them by the fill value. *)
Theorem box_implies_thresholds {info : Type} a b C reg N M s (theta : vec) (d : info) :
  valid_shape a b C ->
  constructed a b C reg N M s ->
  Forall2 within theta (self_bounds_u s ++ self_bounds_v s) ->
  let tu := fdiv (self_epsilon s) (self_fact_scale s) in
  let tv := fmul (self_epsilon s) (self_fact_scale s) in
  let r := reconstruct s theta d in
  length theta = (length (self_I s) + length (self_J s))%nat /\
  Forall (fun x => fge x tu = true) (take (length (self_I s)) theta) /\
  Forall (fun x => fge x tv = true) (drop (length (self_I s)) theta) /\
  Forall (fun x => fge x tu = true) r.1.1.1 /\
  Forall (fun x => fge x tv = true) r.1.1.2.
Proof.
  intros _ H Hth. cbn zeta.
  destruct (constructed_thresholds _ _ _ _ _ _ _ H) as [Ntu Ntv].
  destruct (constructed_bounds_lengths _ _ _ _ _ _ _ H) as [Lbu Lbv].
  destruct (constructed_box_above _ _ _ _ _ _ _ H) as [Bu Bv].
  apply Forall2_app_inv_r in Hth as (tu & tv & Hu & Hv & ->).
  pose proof (Forall2_length _ _ _ Hu) as Lu. rewrite Lbu in Lu.
  pose proof (Forall2_length _ _ _ Hv) as Lv. rewrite Lbv in Lv.
  assert (Fu : Forall (fun x => fge x (fdiv (self_epsilon s) (self_fact_scale s)) = true) tu).
  { eapply Forall2_Forall_l; [exact Hu | exact Bu]. }
  assert (Fv : Forall (fun x => fge x (fmul (self_epsilon s) (self_fact_scale s)) = true) tv).
  { eapply Forall2_Forall_l; [exact Hv | exact Bv]. }
  unfold reconstruct. cbn [fst snd].
  rewrite <- Lu, take_app_length, drop_app_length, length_app.
  split; [lia|]. split; [done|]. split; [done|]. split.
  - apply assign_index_Forall; [|done]. apply Forall_replicate. by apply fle_refl.
  - apply assign_index_Forall; [|done]. apply Forall_replicate. by apply fle_refl.
Qed.

Lemma box_implies_thresholds_witness :
  Forall (fun x => fge x (fdiv (self_epsilon exf_bfgs) (self_fact_scale exf_bfgs)) = true)
    (reconstruct exf_bfgs (replicate 4 (Fin 1)) tt).1.1.1.
Proof.
  refine (proj1 (proj2 (proj2 (proj2
    (box_implies_thresholds exf_a exf_b exf_C (Fin 1) 2 2 exf_bfgs
       (replicate 4 (Fin 1)) tt _ _ _))))).
  - repeat split; repeat constructor.
  - left. reflexivity.
  - repeat constructor; cbn [fst snd]; unfold fle; apply Rleb_is_true; lra.
Defined.

(** ** An empty box *)

Section EmptyBox.

Lemma ex_box_u :
  Spec.box_u (Fin 1) (Fin (1/4)) (Fin 1) 2 3 2 (Fin (29/32)) (Fin (3/32)) (Fin (1/8))
  = (Fin (29/24), Fin (1/8)).
Proof.
  unfold Spec.box_u, of_nat, of_int, py_max, fgt. feval.
  change (3 - 2)%Z with 1%Z. feval.
  f_equal; f_equal; lra.
Qed.

End EmptyBox.

(** X15.  The box that the constructor builds can be empty.  On the worked
    input, a valid input in screening mode, [screenkhornBFGS.py] returns
    an object whose [bounds_u] holds the pair [(29/24, 1/8)], a lower
    bound above the upper bound: no point lies within the box. *)
Theorem box_can_be_empty :
  exists a b C reg N M s,
    valid_input a b C reg N M /\ screening C N M /\
    BFGS.__init__ a b C reg N M = Py.Ok s /\
    self_bounds_u s = replicate (length (self_I s)) (Fin (29/24), Fin (1/8)) /\
    forall x, ~ Forall2 within x (self_bounds_u s).
Proof.
  exists ex_a, ex_b, ex_C, (Fin 1), 2%nat, 2%nat, ex_bfgs.
  split; [apply ex_valid_input|]. split; [apply ex_screening|].
  split; [apply ex_bfgs_init|].
  assert (E : self_bounds_u ex_bfgs = replicate 2 (Fin (29/24), Fin (1/8))).
  { unfold ex_bfgs, assemble, ex_sel_bfgs. cbn [self_bounds_u sel_bounds_u].
    by rewrite ex_box_u. }
  split; [exact E|]. rewrite E. intros x Hx.
  apply Forall2_cons_inv_r in Hx as (x0 & x' & [Hlo Hhi] & _ & _).
  pose proof (fle_trans _ _ _ Hlo Hhi) as H. cbn [fst snd] in H.
  apply Rleb_true in H. lra.
Qed.

(** ** The values of the objective and of its gradient *)

Section FiniteValues.

Lemma positive_is_finite x : positive x -> finite x.
Proof. by intros (r & -> & _). Qed.

Lemma nonneg_is_finite x : nonneg x -> finite x.
Proof. by intros (r & -> & _). Qed.

Lemma finite_inv x : finite x -> exists r, x = Fin r.
Proof. destruct x; try done. by eexists. Qed.

Lemma fadd_finite x y : finite x -> finite y -> finite (fadd x y).
Proof. by intros [r ->]%finite_inv [t ->]%finite_inv. Qed.


Lemma fmul_finite x y : finite x -> finite y -> finite (fmul x y).
Proof. by intros [r ->]%finite_inv [t ->]%finite_inv. Qed.

Lemma fdiv_finite_positive x y : finite x -> positive y -> finite (fdiv x y).
Proof.
  intros [r ->]%finite_inv (t & -> & Ht). simpl. by rewrite Reqb_is_false by lra.
Qed.

Lemma flog_positive x : positive x -> finite (flog x).
Proof. intros (r & -> & Hr). simpl. by rewrite Rltb_is_true. Qed.

Lemma sum_finite l : Forall finite l -> finite (Np.sum l).
Proof.
  induction 1 as [|x l Hx _ IH]; [done|]. unfold Np.sum in *. simpl.
  by apply fadd_finite.
Qed.

Lemma zip_with_finite (f : num -> num -> num) (P Q : num -> Prop) x y :
  (forall a b, P a -> Q b -> finite (f a b)) ->
  Forall P x -> Forall Q y -> Forall finite (zip_with f x y).
Proof.
  intros Hf Hx. revert y. induction Hx as [|xi x Hxi _ IH]; intros y Hy; [constructor|].
  destruct Hy as [|yi y Hyi Hy]; simpl; constructor; [by apply Hf | by apply IH].
Qed.

Lemma dot_finite x y : Forall finite x -> Forall finite y -> finite (dot x y).
Proof.
  intros Hx Hy. unfold dot. apply sum_finite.
  by apply (zip_with_finite fmul finite finite); [apply fmul_finite | |].
Qed.

Lemma Forall_positive_finite x : Forall positive x -> Forall finite x.
Proof. intros H. eapply Forall_impl; [exact H | apply positive_is_finite]. Qed.

Lemma Forall_nonneg_finite x : Forall nonneg x -> Forall finite x.
Proof. intros H. eapply Forall_impl; [exact H | apply nonneg_is_finite]. Qed.

Lemma matvec_finite A x :
  Forall (Forall finite) (rows A) -> Forall finite x -> Forall finite (matvec A x).
Proof.
  intros HA Hx. unfold matvec. apply Forall_fmap.
  eapply Forall_impl; [exact HA|]. intros row Hrow. by apply dot_finite.
Qed.

Lemma vecmat_finite x A :
  wf_matrix A -> Forall (Forall positive) (rows A) -> Forall finite x ->
  Forall finite (vecmat x A).
Proof.
  intros Hwf HA Hx. unfold vecmat. apply Forall_fmap, Forall_forall.
  intros j Hj%elem_of_seq. apply dot_finite; [done|].
  apply Forall_positive_finite, col_positive; [done | lia | done].
Qed.

Lemma rows_positive_finite A :
  Forall (Forall positive) (rows A) -> Forall (Forall finite) (rows A).
Proof.
  intros H. eapply Forall_impl; [exact H|]. apply Forall_positive_finite.
Qed.

Lemma map_finite (f : num -> num) (P : num -> Prop) x :
  (forall a, P a -> finite (f a)) -> Forall P x -> Forall finite (map f x).
Proof. intros Hf Hx. apply Forall_fmap. eapply Forall_impl; [exact Hx | exact Hf]. Qed.



End FiniteValues.



(** ** The objective on the boundary of the positive orthant *)

Section Boundary.

Lemma sum_minus_infinity l :
  Forall (fun x => finite x \/ x = NInf) l ->
  (finite (Np.sum l) \/ Np.sum l = NInf) /\ (NInf ∈ l -> Np.sum l = NInf).
Proof.
  induction 1 as [|x l Hx _ [IH1 IH2]]; [split; [by left | by intros ?%elem_of_nil]|].
  unfold Np.sum in *. cbn [foldr]. split.
  - destruct Hx as [[r ->]%finite_inv | ->], IH1 as [[t ->]%finite_inv | ->];
      simpl; first [by left | by right].
  - intros [<- | Hin]%elem_of_cons.
    + destruct IH1 as [[t ->]%finite_inv | ->]; done.
    + rewrite (IH2 Hin). destruct Hx as [[r ->]%finite_inv | ->]; done.
Qed.

Lemma weighted_log_entries (p u : vec) :
  Forall positive p -> Forall nonneg u ->
  Forall (fun x => finite x \/ x = NInf) (zip_with fmul p (map flog u)).
Proof.
  intros Hp. revert u. induction Hp as [|pi p (r & -> & Hr) _ IH]; intros u Hu; [constructor|].
  destruct Hu as [|ui u (t & -> & Ht) Hu]; simpl; constructor; [|by apply IH].
  destruct (Rlt_dec 0 t).
  - left. rewrite Rltb_is_true by done. done.
  - right. rewrite Rltb_is_false, Reqb_is_true by lra. simpl.
    unfold scale_inf. by rewrite Reqb_is_false, Rltb_is_true by lra.
Qed.

Lemma weighted_log_at_zero (p u : vec) i :
  Forall positive p -> length p = length u -> u !! i = Some (Fin 0) ->
  zip_with fmul p (map flog u) !! i = Some NInf.
Proof.
  intros Hp L Hi.
  destruct (lookup_lt_is_Some_2 p i) as [pi Hpi].
  { rewrite L. by eapply lookup_lt_Some. }
  rewrite lookup_zip_with, Hpi, list_lookup_fmap, Hi. simpl.
  rewrite Forall_forall in Hp.
  destruct (Hp pi) as (r & -> & Hr); [by eapply list_elem_of_lookup_2|].
  rewrite Rltb_is_false, Reqb_is_true by lra. simpl.
  unfold scale_inf. by rewrite Reqb_is_false, Rltb_is_true by lra.
Qed.

Lemma dot_log_minus_infinity (p u : vec) i :
  Forall positive p -> Forall nonneg u -> length p = length u ->
  u !! i = Some (Fin 0) ->
  dot p (map flog u) = NInf.
Proof.
  intros Hp Hu L Hi. unfold dot.
  apply (sum_minus_infinity _ (weighted_log_entries p u Hp Hu)).
  eapply list_elem_of_lookup_2. by apply weighted_log_at_zero.
Qed.

Lemma full_mode_box a b C reg s :
  constructed a b C reg (nrows C) (ncols C) s ->
  self_bounds_u s = replicate (length (self_I s)) (Fin 0, PInf) /\
  self_bounds_v s = replicate (length (self_J s)) (Fin 0, PInf).
Proof.
  intros H. apply constructed_inv in H as (vb & un & K & sel & -> & _ & _ & _ & H).
  destruct H as [(_ & _ & ->) | (Hs & _)]; [|by destruct Hs].
  unfold assemble. cbn [self_bounds_u self_bounds_v self_I self_J full_mode
    sel_bounds_u sel_bounds_v sel_I sel_J]. by rewrite !length_seq.
Qed.

Lemma nonneg_within x : nonneg x -> within x (Fin 0, PInf).
Proof.
  intros (r & -> & Hr). split; cbn [fst snd]; [|done]. by apply Rleb_is_true.
Qed.

End Boundary.

(** X17.  On an object built on a valid input (finite values taken as
    exact reals), at a point with non-negative [u], one coordinate of
    which is zero, and positive [v], of the lengths of [I] and [J], the
    objective is [+inf] (through [np.log(0) = -inf]) and the coordinate of
    the gradient at the zero is [-inf] (through the division by zero).  In
    full mode the lower bound of the box is [0.0], so such a point lies
    within the box handed to the optimizer. *)
Theorem objective_infinite_at_zero a b C reg N M s u v i :
  valid_input a b C reg N M ->
  constructed a b C reg N M s ->
  Forall nonneg u -> length u = length (self_I s) ->
  Forall positive v -> length v = length (self_J s) ->
  u !! i = Some (Fin 0) ->
  objective s u v = PInf /\ (grad_objective s u v).1 !! i = Some NInf /\
  (N = nrows C -> M = ncols C ->
   Forall2 within (u ++ v) (self_bounds_u s ++ self_bounds_v s)).
Proof.
  intros Hv H Hu Lu Hpv Lv Hi.
  assert (Hbox : N = nrows C -> M = ncols C ->
    Forall2 within (u ++ v) (self_bounds_u s ++ self_bounds_v s)).
  { intros -> ->. destruct (full_mode_box _ _ _ _ _ H) as [-> ->].
    apply Forall2_app; apply Forall2_replicate_r; try done.
    - eapply Forall_impl; [exact Hu | apply nonneg_within].
    - eapply Forall_impl; [exact Hpv|]. intros x Hx.
      by apply nonneg_within, positive_nonneg. }
  cut (objective s u v = PInf /\ (grad_objective s u v).1 !! i = Some NInf).
  { intros [? ?]. done. }
  clear Hbox.
  pose proof (constructed_positive_data _ _ _ _ _ _ _ Hv H) as pd.
  pose proof (Forall_nonneg_finite _ Hu) as Fu.
  pose proof (Forall_positive_finite _ Hpv) as Fv.
  assert (Ffs : finite (self_fact_scale s)) by apply positive_is_finite, pd.
  assert (Pp : Forall positive (map (fmul (self_fact_scale s)) (self_a_I s))).
  { apply map_fmul_positive; apply pd. }
  assert (Lp : length (map (fmul (self_fact_scale s)) (self_a_I s)) = length u).
  { by rewrite length_map, (pd_a_len s pd). }
  split.
  - unfold objective. rewrite (dot_log_minus_infinity _ u i) by done.
    assert (FA : finite (dot (vecmat u (self_K_IJ s)) v)).
    { apply dot_finite; [|done]. apply vecmat_finite; [apply pd | apply pd | done]. }
    assert (FC : finite (dot (map (fmul (fdiv one (self_fact_scale s))) (self_b_J s))
                             (map flog v))).
    { apply dot_finite.
      - apply (map_finite _ positive); [|apply pd]. intros x Hx.
        apply fmul_finite; [|by apply positive_is_finite].
        apply fdiv_finite_positive; [done | apply pd].
      - apply (map_finite _ positive); [apply flog_positive | done]. }
    assert (FD : finite (dot u (self_vec_eps_IJc s))).
    { apply dot_finite; [done | apply Forall_nonneg_finite, pd]. }
    assert (FE : finite (dot (self_vec_eps_IcJ s) v)).
    { apply dot_finite; [apply Forall_nonneg_finite, pd | done]. }
    apply finite_inv in FA as [ra ->]. apply finite_inv in FC as [rc ->].
    apply finite_inv in FD as [rd ->]. apply finite_inv in FE as [re ->]. done.
  - unfold grad_objective. cbn [fst].
    destruct (lookup_lt_is_Some_2 (map (fmul (self_fact_scale s)) (self_a_I s)) i)
      as [p Hp].
    { rewrite Lp. by eapply lookup_lt_Some. }
    assert (Pos : positive p).
    { rewrite Forall_forall in Pp. apply Pp. by eapply list_elem_of_lookup_2. }
    assert (LD : length (zip_with fadd (matvec (self_K_IJ s) v) (self_vec_eps_IJc s))
                 = length u).
    { rewrite length_zip_with, matvec_length, (pd_K_nrows s pd), (pd_eu_len s pd). lia. }
    destruct (lookup_lt_is_Some_2
                (zip_with fadd (matvec (self_K_IJ s) v) (self_vec_eps_IJc s)) i)
      as [d Hd].
    { rewrite LD. by eapply lookup_lt_Some. }
    assert (Fd : finite d).
    { assert (FD : Forall finite
        (zip_with fadd (matvec (self_K_IJ s) v) (self_vec_eps_IJc s))).
      { apply (zip_with_finite fadd finite finite); [apply fadd_finite | |].
        - apply matvec_finite; [apply rows_positive_finite, pd | done].
        - apply Forall_nonneg_finite, pd. }
      rewrite Forall_forall in FD. apply FD. by eapply list_elem_of_lookup_2. }
    rewrite lookup_zip_with, Hd. cbn [mbind option_bind].
    rewrite lookup_zip_with, Hp, Hi. cbn [mbind option_bind].
    destruct Pos as (r & -> & Hr). apply finite_inv in Fd as [t ->].
    simpl. rewrite Reqb_is_true, Reqb_is_false, Rltb_is_true by lra. done.
Qed.

Lemma objective_infinite_at_zero_witness :
  objective ex_new [Fin 0; Fin 1] [Fin 1; Fin 1] = PInf.
Proof.
  refine (proj1 (objective_infinite_at_zero ex_a ex_b ex_C (Fin 1) 2 2 ex_new
            [Fin 0; Fin 1] [Fin 1; Fin 1] 0%nat
            ex_valid_input ex_new_constructed _ _ _ _ _)).
  - repeat constructor; eexists; (split; [reflexivity | lra]).
  - reflexivity.
  - repeat constructor; exists 1; (split; [reflexivity | lra]).
  - reflexivity.
  - reflexivity.
Defined.

(** ** The arrays returned by [restricted_sinkhorn] *)

Section ReturnedArrays.

Lemma restricted_sinkhorn_distinct s usc vsc max_iter (h : heap) :
  (2 <= max_iter)%Z ->
  let r := BFGS.restricted_sinkhorn s usc vsc max_iter h in
  r.2.1 <> r.2.2.
Proof.
  intros Hm. cbv zeta. unfold BFGS.restricted_sinkhorn, _projection.
  rewrite sinkhorn_loop_iter.
  destruct (Z.to_nat (max_iter - 1)) as [|k] eqn:E; [lia|]. rewrite Nat.iter_succ.
  set (fr := Nat.iter k (turn (BFGS.round s)) (Frame h 1 usc vsc 0)).
  destruct (round_store s fr) as (_ & _ & _ & _ & Hne & _).
  exact Hne.
Qed.

Lemma round_ignores_v s (u x y : vec) : Spec.round s (u, x) = Spec.round s (u, y).
Proof. done. Qed.

Lemma iter_round_ignores_v s k (u x y : vec) :
  Nat.iter (S k) (Spec.round s) (u, x) = Nat.iter (S k) (Spec.round s) (u, y).
Proof. by rewrite !Nat.iter_succ_r, (round_ignores_v s u x y). Qed.

End ReturnedArrays.

(** X18.  Called with [max_iter >= 2] on an object with attributes of
    matching shapes and an array [usc] of length [len(I)],
    [restricted_sinkhorn] never writes into the arrays it is given: the
    two arrays it returns are new, distinct objects, every array of the
    caller keeps its contents, and the returned arrays hold the
    projections of the result of [max_iter - 1] rounds started from the
    contents of [usc], [u] clamped at [epsilon / fact_scale] and [v] at
    [epsilon * fact_scale]; the contents of the argument [vsc] are never
    read.  In both files.  (With [max_iter <= 1] the arguments themselves
    are projected in place.) *)
Theorem restricted_sinkhorn_returns_new_arrays s usc vsc max_iter (h : heap) :
  shape_ok s ->
  length (deref h usc) = length (self_I s) ->
  (2 <= max_iter)%Z ->
  let r := BFGS.restricted_sinkhorn s usc vsc max_iter h in
  let uv := Nat.iter (Z.to_nat (max_iter - 1)) (Spec.round s) (deref h usc, deref h vsc) in
  NewFormulation.restricted_sinkhorn s usc vsc max_iter h = r /\
  (r.2.1 ∉ dom h) /\ (r.2.2 ∉ dom h) /\ r.2.1 <> r.2.2 /\
  (forall l, l ∈ dom h -> r.1 !! l = h !! l) /\
  deref r.1 r.2.1 = clamp (fdiv (self_epsilon s) (self_fact_scale s)) uv.1 /\
  deref r.1 r.2.2 = clamp (fmul (self_epsilon s) (self_fact_scale s)) uv.2 /\
  (forall x : vec,
     Nat.iter (Z.to_nat (max_iter - 1)) (Spec.round s) (deref h usc, x) = uv).
Proof.
  intros _ _ Hm. cbv zeta. rewrite restricted_sinkhorn_same. split; [done|].
  destruct (restricted_sinkhorn_fresh s usc vsc max_iter h Hm) as (Hu & Hv & Hold).
  destruct (restricted_sinkhorn_contents s usc vsc max_iter h Hm) as [Cu Cv].
  pose proof (restricted_sinkhorn_distinct s usc vsc max_iter h Hm) as Hne.
  do 6 (split; [done|]).
  intros x. destruct (Z.to_nat (max_iter - 1)) as [|k] eqn:E; [lia|].
  apply iter_round_ignores_v.
Qed.

Lemma restricted_sinkhorn_returns_new_arrays_witness :
  let r := BFGS.restricted_sinkhorn ex_bfgs 0%nat 1%nat 3 ex_heap in
  (r.2.1 ∉ dom ex_heap) /\ r.1 !! 0%nat = ex_heap !! 0%nat.
Proof.
  destruct (restricted_sinkhorn_returns_new_arrays ex_bfgs 0%nat 1%nat 3 ex_heap)
    as (_ & Hu & _ & _ & Hold & _).
  - apply assemble_shape_ok.
  - rewrite ex_heap_usc. reflexivity.
  - lia.
  - split; [exact Hu|]. apply Hold. unfold ex_heap. set_solver.
Defined.

(** ** The order of the complements *)

Section ComplementOrder.

Lemma fadd_swap x y z : fadd x (fadd y z) = fadd y (fadd x z).
Proof.
  destruct x as [r| | |], y as [t| | |], z as [w| | |]; simpl; try done.
  f_equal. lra.
Qed.

Lemma sum_Permutation l l' : l ≡ₚ l' -> Np.sum l = Np.sum l'.
Proof.
  unfold Np.sum. induction 1 as [|x l l' _ IH|x y l|l l' l'' _ IH1 _ IH2]; simpl.
  - done.
  - by rewrite IH.
  - apply fadd_swap.
  - by rewrite IH1.
Qed.

Lemma sum_axis1_ix_Permutation K ri ci ci' :
  ci ≡ₚ ci' -> sum_axis1 (ix_ K ri ci) = sum_axis1 (ix_ K ri ci').
Proof.
  intros Hp. unfold sum_axis1, ix_, index. cbn [rows].
  rewrite <- !list_fmap_compose. apply list_fmap_ext. intros k i _. simpl.
  apply sum_Permutation. by apply fmap_Permutation.
Qed.

Lemma sum_axis0_ix_Permutation K ri ri' ci :
  ri ≡ₚ ri' -> sum_axis0 (ix_ K ri ci) = sum_axis0 (ix_ K ri' ci).
Proof.
  intros Hp. unfold sum_axis0, ix_, col. cbn [rows ncols].
  apply list_fmap_ext. intros k j _. simpl.
  apply sum_Permutation. by apply fmap_Permutation, fmap_Permutation.
Qed.

Lemma vec_eps_IJc_of_sum K I Jc eps fs :
  vec_eps_IJc_of K I Jc eps fs = map (fmul (fmul eps fs)) (sum_axis1 (ix_ K I Jc)).
Proof. unfold vec_eps_IJc_of. by rewrite mul_row_ones by apply ix_rows_length. Qed.

Lemma vec_eps_IcJ_of_sum K Ic J eps fs :
  vec_eps_IcJ_of K Ic J eps fs = map (fmul (fdiv eps fs)) (sum_axis0 (ix_ K Ic J)).
Proof.
  unfold vec_eps_IcJ_of. pose proof (mul_col_ones (ix_ K Ic J)) as E.
  rewrite ix_nrows in E. by rewrite E.
Qed.

Lemma complement_order K I J Ic Ic' Jc Jc' eps fs :
  Ic ≡ₚ Ic' -> Jc ≡ₚ Jc' ->
  vec_eps_IJc_of K I Jc eps fs = vec_eps_IJc_of K I Jc' eps fs /\
  vec_eps_IcJ_of K Ic J eps fs = vec_eps_IcJ_of K Ic' J eps fs /\
  cst_u_of K I Jc eps fs = cst_u_of K I Jc' eps fs /\
  cst_v_of K Ic J eps fs = cst_v_of K Ic' J eps fs.
Proof.
  intros HI HJ. rewrite !vec_eps_IJc_of_sum, !vec_eps_IcJ_of_sum. unfold cst_u_of, cst_v_of.
  rewrite (sum_axis1_ix_Permutation K I Jc Jc' HJ).
  rewrite (sum_axis0_ix_Permutation K Ic Ic' J HI). done.
Qed.

End ComplementOrder.

(** X19.  The attributes computed from [Ic] and [Jc] do not depend on the
    order in which Python lists the two set differences: for an object
    built by either constructor on an input of valid shape and any other
    listing [Ic'], [Jc'] of the same indices, the statements of the
    constructor give the same [vec_eps_IJc], [vec_eps_IcJ] and, in
    screening mode, the same [cst_u] and [cst_v] (finite sums taken as
    exact). *)
Theorem complement_order_is_irrelevant a b C reg N M s Ic' Jc' :
  valid_shape a b C ->
  constructed a b C reg N M s ->
  Ic' ≡ₚ self_Ic s -> Jc' ≡ₚ self_Jc s ->
  let K := self_K s in
  let eps := self_epsilon s in
  let fs := self_fact_scale s in
  self_vec_eps_IJc s = vec_eps_IJc_of K (self_I s) Jc' eps fs /\
  self_vec_eps_IcJ s = vec_eps_IcJ_of K Ic' (self_J s) eps fs /\
  (screening C N M ->
   self_cst_u s = Array (cst_u_of K (self_I s) Jc' eps fs) /\
   self_cst_v s = Array (cst_v_of K Ic' (self_J s) eps fs)).
Proof.
  intros _ H HI HJ. cbn zeta.
  apply constructed_inv in H as (vb & un & K & sel & -> & _).
  unfold assemble in *.
  cbn [self_K self_I self_J self_Ic self_Jc self_epsilon self_fact_scale
       self_vec_eps_IJc self_vec_eps_IcJ self_cst_u self_cst_v] in *.
  destruct (complement_order K (sel_I sel) (sel_J sel) _ _ _ _
              (sel_epsilon sel) (sel_fact_scale sel) HI HJ) as (E1 & E2 & E3 & E4).
  split; [by rewrite E1|]. split; [by rewrite E2|].
  intros Hs. rewrite (screening_mode_flag _ _ _ Hs). cbn [fst snd].
  by rewrite E3, E4.
Qed.

Lemma complement_order_is_irrelevant_witness :
  self_vec_eps_IJc ex_new =
    vec_eps_IJc_of (self_K ex_new) (self_I ex_new) (reverse (self_Jc ex_new))
      (self_epsilon ex_new) (self_fact_scale ex_new).
Proof.
  refine (proj1 (complement_order_is_irrelevant ex_a ex_b ex_C (Fin 1) 2 2 ex_new
            (self_Ic ex_new) (reverse (self_Jc ex_new))
            ex_valid_shape ex_new_constructed _ _)).
  - reflexivity.
  - apply reverse_Permutation.
Defined.

(** ** The bounds of the box on a valid input *)

Section PositiveBox.













End PositiveBox.


